(** * diffrax/_autocitation.py: the citation dispatcher and its reference store

    A shallow embedding of [citation], of the rule registry [citation_rules]
    and of the two memoised extractors [_parse_reference] and
    [_parse_reference_multi], together with the parts of the Python standard
    library they rest on ([str] methods, the one regular expression of the
    module, [inspect.cleandoc], [inspect.Signature.bind_partial],
    [functools.lru_cache]).

    A Python [str] is the list of its code points.  The literals of the
    module are written as the strings they are in the source and read through
    [text], which decodes UTF-8.  Names (of parameters, classes, attributes)
    stay plain strings. *)

From Stdlib Require Import Ascii String ZArith List Bool Lia.
From stdpp Require Import gmap strings list fin_maps.

Set Default Proof Using "Type".

(* ===================================================================== *)
(** ** Python [str] *)
(* ===================================================================== *)

Abbreviation pystr := (list N).

Module str.

  (** The code points that a UTF-8 byte string encodes.  A byte that does
      not start a well-formed sequence stands for itself. *)
Fixpoint decode (s : string) : pystr :=
    match s with
    | "" => []
    | String c0 s1 =>
        let b0 := N_of_ascii c0 in
        let continues (c : ascii) : bool :=
          ((128 <=? N_of_ascii c) && (N_of_ascii c <? 192))%N in
        let low (c : ascii) : N := (N_of_ascii c - 128)%N in
        match s1 with
        | String c1 s2 =>
            if ((192 <=? b0) && (b0 <? 224))%N && continues c1 then
              ((b0 - 192) * 64 + low c1)%N :: decode s2
            else
              match s2 with
              | String c2 s3 =>
                  if ((224 <=? b0) && (b0 <? 240))%N && continues c1
                     && continues c2 then
                    ((b0 - 224) * 4096 + low c1 * 64 + low c2)%N :: decode s3
                  else
                    match s3 with
                    | String c3 s4 =>
                        if ((240 <=? b0) && (b0 <? 248))%N && continues c1
                           && continues c2 && continues c3 then
                          ((b0 - 240) * 262144 + low c1 * 4096 + low c2 * 64
                           + low c3)%N :: decode s4
                        else b0 :: decode s1
                    | "" => b0 :: decode s1
                    end
              | "" => b0 :: decode s1
              end
        | "" => [b0]
        end
    end.

  (** The code points for which [str.isspace] holds; [strip], [lstrip] and
      [rstrip] without argument remove exactly these. *)
Definition whitespace : list N :=
    [9; 10; 11; 12; 13; 28; 29; 30; 31; 32; 133; 160; 5760;
     8192; 8193; 8194; 8195; 8196; 8197; 8198; 8199; 8200; 8201; 8202;
     8232; 8233; 8239; 8287; 12288]%N.

Definition isspace (c : N) : bool := existsb (N.eqb c) whitespace.

  (** [s.lstrip()] *)
Fixpoint lstrip (s : pystr) : pystr :=
    match s with
    | [] => []
    | c :: s' => if isspace c then lstrip s' else s
    end.

  (** [s] has white-space characters only. *)
Fixpoint all_space (s : pystr) : bool :=
    match s with
    | [] => true
    | c :: s' => if isspace c then all_space s' else false
    end.

  (** [s.rstrip()]: [s] up to its last character that is not white
      space. *)
Fixpoint rstrip (s : pystr) : pystr :=
    match s with
    | [] => []
    | c :: s' => if all_space s then [] else c :: rstrip s'
    end.

  (** [s.strip()] *)
Definition strip (s : pystr) : pystr := rstrip (lstrip s).

  (** [sep.join(l)] *)
Fixpoint join (sep : pystr) (l : list pystr) : pystr :=
    match l with
    | [] => []
    | x :: l' =>
        match l' with
        | [] => x
        | _ :: _ => x ++ sep ++ join sep l'
        end
    end.

  (** [s.split(sep)] for a separator of one character *)
Fixpoint split (sep : N) (s : pystr) : list pystr :=
    match s with
    | [] => [[]]
    | c :: s' =>
        if (c =? sep)%N then [] :: split sep s'
        else match split sep s' with
             | l :: ls => (c :: l) :: ls
             | [] => [[c]]
             end
    end.

Fixpoint expandtabs_go (line_pos : nat) (s : pystr) : pystr :=
    match s with
    | [] => []
    | c :: s' =>
        if (c =? 9)%N then
          let incr := 8 - line_pos mod 8 in
          replicate incr 32%N ++ expandtabs_go (line_pos + incr) s'
        else if ((c =? 10) || (c =? 13))%N then c :: expandtabs_go 0 s'
        else c :: expandtabs_go (S line_pos) s'
    end.

  (** [s.expandtabs()], tab size 8 *)
Definition expandtabs (s : pystr) : pystr := expandtabs_go 0 s.

  (** [s.startswith(sub)] *)
Fixpoint startswith (sub s : pystr) : bool :=
    match sub, s with
    | [], _ => true
    | a :: sub', b :: s' => (a =? b)%N && startswith sub' s'
    | _ :: _, [] => false
    end.

  (** [sub in s] *)
Fixpoint contains (sub s : pystr) : bool :=
    startswith sub s ||
    match s with
    | [] => false
    | _ :: s' => contains sub s'
    end.

End str.

(** A literal of the source. *)
Definition text (s : string) : pystr := str.decode s.

Definition newline : pystr := [10%N].

(* ===================================================================== *)
(** ** The regular expression of the module *)
(* ===================================================================== *)

Definition backtick : N := 96.
Definition fence : pystr := [backtick; backtick; backtick].

(** The longest prefix without a backtick, and what follows it: the greedy
    group of the pattern, a run of characters other than the backtick. *)
Fixpoint span_no_backtick (s : pystr) : pystr * pystr :=
  match s with
  | [] => ([], [])
  | c :: s' =>
      if (c =? backtick)%N then ([], s)
      else let '(g, rest) := span_no_backtick s' in (c :: g, rest)
  end.

(** A match of the pattern (an opening fence followed by [bibtex], the
    group, a closing fence) that starts at the head of [s]: the captured
    group and the text after the match.  Giving the group fewer
    characters cannot help, since the character after a shorter group is not a
    backtick; so the match succeeds exactly when the longest group is
    followed by the closing fence. *)
Definition match_reference (s : pystr) : option (pystr * pystr) :=
  if str.startswith (fence ++ text "bibtex") s then
    let '(g, rest) := span_no_backtick (drop 9 s) in
    if str.startswith fence rest then Some (g, drop 3 rest) else None
  else None.

Fixpoint findall_go (fuel : nat) (s : pystr) : list pystr :=
  match fuel with
  | O => []
  | S fuel' =>
      match match_reference s with
      | Some (g, rest) => g :: findall_go fuel' rest
      | None =>
          match s with
          | [] => []
          | _ :: s' => findall_go fuel' s'
          end
      end
  end.

(** [_reference_regex.findall(doc)]: the groups of the successive
    non-overlapping matches, leftmost first. *)
Definition _reference_regex_findall (doc : pystr) : list pystr :=
  findall_go (S (length doc)) doc.

(* ===================================================================== *)
(** ** Python values, exceptions *)
(* ===================================================================== *)

(** How an object hashes and compares, which is what a [dict] and hence
    [functools.lru_cache] sees of it: by identity (the default of [object],
    of classes and of functions), by a value ([HashValue h]: the class defines
    [__eq__] and [__hash__], and [h] stands for what they compare, so that two
    such objects are equal exactly when their [h] agree), or not at all
    ([__hash__] is [None]). *)
Inductive hash_eq :=
| HashIdentity
| HashValue (h : Z)
| Unhashable.

#[warnings="-register-all"]
Inductive value :=
| VNone
| VBool (b : bool)
| VInt (z : Z)
| VFloat (m e : Z)                      (* the finite float m * 2^e *)
| VStr (s : pystr)
| VTuple (xs : list value)
| VDict (items : list (string * value))
| VGenerator (source : list value)      (* a generator object over [source], not yet run *)
| VTracer                               (* an instance of jax.core.Tracer *)
| VObj (o : pyobject)
with pyobject :=
| Class (name : string)
| Function (name : string)
| Instance (addr : N) (cls : string) (heq : hash_eq)
    (attrs : list (string * value)).

Global Instance value_inhabited : Inhabited value := populate VNone.

Inductive type_error :=
| too_many_positional_arguments
| multiple_values_for_argument (arg : string)
| unexpected_keyword_argument (arg : string)
| positional_only_passed_as_keyword (arg : string)
| missing_required_argument (arg : string)
| unhashable_type
| expected_string_or_bytes.

Inductive exn :=
| TypeError (why : type_error)
| ValueError                            (* unpacking: wrong number of values *)
| AssertionError
| AttributeError (attr : string)
| TracerBoolConversionError
| RuntimeError (msg : pystr).

Inductive result (A : Type) :=
| Ok (a : A)
| Raise (e : exn).
Global Arguments Ok {A} a.
Global Arguments Raise {A} e.

Definition result_bind {A B} (r : result A) (k : A → result B) : result B :=
  match r with
  | Ok a => k a
  | Raise e => Raise e
  end.

Global Instance result_ret : MRet result := λ A, Ok.
Global Instance result_mbind : MBind result := λ A B k r, result_bind r k.

(** Association lists: a [dict] whose order of insertion is kept. *)
Definition alist := list (string * value).

Fixpoint alist_lookup {K A} `{EqDecision K} (k : K) (l : list (K * A)) : option A :=
  match l with
  | [] => None
  | (k', a) :: l' => if decide (k = k') then Some a else alist_lookup k l'
  end.

Definition alist_remove (k : string) (l : alist) : alist :=
  filter (λ kv, kv.1 ≠ k) l.

(** [type(v).__name__] *)
Definition type_name (v : value) : string :=
  match v with
  | VNone => "NoneType"
  | VBool _ => "bool"
  | VInt _ => "int"
  | VFloat _ _ => "float"
  | VStr _ => "str"
  | VTuple _ => "tuple"
  | VDict _ => "dict"
  | VGenerator _ => "generator"
  | VTracer => "Tracer"
  | VObj (Class _) => "type"
  | VObj (Function _) => "function"
  | VObj (Instance _ cls _ _) => cls
  end.

(** [type(v) is cls] *)
Definition type_is (v : value) (cls : string) : bool :=
  String.eqb (type_name v) cls.

(** [type(v) in classes] *)
Definition type_in (v : value) (classes : list string) : bool :=
  existsb (type_is v) classes.

(** [bool(v)]: objects are true unless their type says otherwise; a traced
    value has no truth value. *)
Definition truthy (v : value) : result bool :=
  match v with
  | VNone => Ok false
  | VBool b => Ok b
  | VInt z => Ok (negb (z =? 0)%Z)
  | VFloat m _ => Ok (negb (m =? 0)%Z)
  | VStr s => Ok (match s with [] => false | _ => true end)
  | VTuple xs => Ok (match xs with [] => false | _ => true end)
  | VDict items => Ok (match items with [] => false | _ => true end)
  | VGenerator _ => Ok true
  | VTracer => Raise TracerBoolConversionError
  | VObj _ => Ok true
  end.

(** [v.attr] for the data attributes of an instance. *)
Definition getattr (v : value) (attr : string) : result value :=
  match v with
  | VObj (Instance _ _ _ attrs) =>
      match alist_lookup attr attrs with
      | Some a => Ok a
      | None => Raise (AttributeError attr)
      end
  | _ => Raise (AttributeError attr)
  end.

(** [v == 0]: a number compares by value, a traced value yields a traced
    value, anything else is different from zero. *)
Definition eq_zero (v : value) : value :=
  match v with
  | VBool b => VBool (negb b)
  | VInt z => VBool (z =? 0)%Z
  | VFloat m _ => VBool (m =? 0)%Z
  | VTracer => VTracer
  | _ => VBool false
  end.

(** [v != ""] *)
Definition ne_empty_str (v : value) : bool :=
  match v with
  | VStr s => match s with [] => false | _ => true end
  | _ => true
  end.

(** [isinstance(v, jax.core.Tracer)] *)
Definition is_tracer (v : value) : bool :=
  match v with VTracer => true | _ => false end.

(* ===================================================================== *)
(** ** [inspect]: [cleandoc], parameters, signatures, [bind_partial] *)
(* ===================================================================== *)

Module inspect.


  (** Number of white-space characters a line starts with, for a line that
      is not blank: [len(line) - len(line.lstrip())]. *)
Definition indent (line : pystr) : option nat :=
    let content := length (str.lstrip line) in
    if content =? 0 then None else Some (length line - content).

  (** The least indentation of the given lines; [None] stands for
      [sys.maxsize], the value the loop starts from. *)
Fixpoint margin (lines : list pystr) : option nat :=
    match lines with
    | [] => None
    | line :: rest =>
        match indent line, margin rest with
        | Some i, Some m => Some (Nat.min i m)
        | Some i, None => Some i
        | None, m => m
        end
    end.

Fixpoint drop_leading_empty (lines : list pystr) : list pystr :=
    match lines with
    | [] :: rest => drop_leading_empty rest
    | _ => lines
    end.

Definition drop_trailing_empty (lines : list pystr) : list pystr :=
    rev (drop_leading_empty (rev lines)).

Definition cleandoc (doc : pystr) : pystr :=
    match str.split 10 (str.expandtabs doc) with
    | [] => []
    | first :: rest =>
        let rest' :=
          match margin rest with
          | Some m => drop m <$> rest
          | None => rest
          end in
        str.join newline
          (drop_leading_empty (drop_trailing_empty (str.lstrip first :: rest')))
    end.

Inductive kind :=
  | POSITIONAL_ONLY
  | POSITIONAL_OR_KEYWORD
  | VAR_POSITIONAL
  | KEYWORD_ONLY
  | VAR_KEYWORD.

Global Instance kind_eq_dec : EqDecision kind.
Proof. solve_decision. Defined.

  (** [default = None] is [Parameter.empty]. *)
Record param := Param {
    name : string;
    kind_of : kind;
    default : option value;
  }.

Definition Signature := list param.

Definition has_key (k : string) (kwargs : alist) : bool :=
    bool_decide (k ∈ kwargs.*1).

  (** First loop of [Signature._bind]: positional values against the
      parameters in order.  Returns [arguments] and the parameters the second
      loop goes through, [parameters_ex] followed by the rest of the
      iterator. *)
Fixpoint bind_positional (partial : bool) (parameters : list param)
      (arg_vals : list value) (kwargs : alist) (arguments : gmap string value)
      : result (gmap string value * list param) :=
    match arg_vals with
    | [] =>
        match parameters with
        | [] => Ok (arguments, [])
        | param :: rest =>
            if decide (kind_of param = VAR_POSITIONAL) then Ok (arguments, rest)
            else if has_key (name param) kwargs then
              if decide (kind_of param = POSITIONAL_ONLY) then
                Raise (TypeError (positional_only_passed_as_keyword (name param)))
              else Ok (arguments, param :: rest)
            else if bool_decide (kind_of param = VAR_KEYWORD)
                    || bool_decide (is_Some (default param)) then
              Ok (arguments, param :: rest)
            else if partial then Ok (arguments, param :: rest)
            else Raise (TypeError (missing_required_argument (name param)))
        end
    | arg_val :: arg_vals' =>
        match parameters with
        | [] => Raise (TypeError too_many_positional_arguments)
        | param :: rest =>
            if bool_decide (kind_of param = VAR_KEYWORD)
               || bool_decide (kind_of param = KEYWORD_ONLY) then
              Raise (TypeError too_many_positional_arguments)
            else if decide (kind_of param = VAR_POSITIONAL) then
              Ok (<[name param := VTuple (arg_val :: arg_vals')]> arguments, rest)
            else if has_key (name param) kwargs
                    && negb (bool_decide (kind_of param = POSITIONAL_ONLY)) then
              Raise (TypeError (multiple_values_for_argument (name param)))
            else
              bind_positional partial rest arg_vals' kwargs
                (<[name param := arg_val]> arguments)
        end
    end.

  (** Second loop: the remaining parameters take their values from [kwargs],
      which loses the entries taken ([kwargs.pop]). *)
Fixpoint bind_keywords (partial : bool) (parameters : list param)
      (kwargs : alist) (kwargs_param : option param)
      (arguments : gmap string value)
      : result (alist * option param * gmap string value) :=
    match parameters with
    | [] => Ok (kwargs, kwargs_param, arguments)
    | param :: rest =>
        if decide (kind_of param = VAR_KEYWORD) then
          bind_keywords partial rest kwargs (Some param) arguments
        else if decide (kind_of param = VAR_POSITIONAL) then
          bind_keywords partial rest kwargs kwargs_param arguments
        else
          match alist_lookup (name param) kwargs with
          | None =>
              if negb partial && negb (bool_decide (is_Some (default param))) then
                Raise (TypeError (missing_required_argument (name param)))
              else bind_keywords partial rest kwargs kwargs_param arguments
          | Some arg_val =>
              if decide (kind_of param = POSITIONAL_ONLY) then
                Raise (TypeError (positional_only_passed_as_keyword (name param)))
              else
                bind_keywords partial rest (alist_remove (name param) kwargs)
                  kwargs_param (<[name param := arg_val]> arguments)
          end
    end.

  (** [Signature._bind(args, kwargs, partial=...)]: the [arguments] of the
      resulting [BoundArguments]. *)
Definition _bind (sig : Signature) (args : list value) (kwargs : alist)
      (partial : bool) : result (gmap string value) :=
    '(arguments, parameters) ← bind_positional partial sig args kwargs ∅;
    '(kwargs', kwargs_param, arguments) ←
       bind_keywords partial parameters kwargs None arguments;
    match kwargs' with
     | [] => Ok arguments
     | (arg, _) :: _ =>
         match kwargs_param with
         | Some param => Ok (<[name param := VDict kwargs']> arguments)
         | None => Raise (TypeError (unexpected_keyword_argument arg))
         end
    end.

Definition bind_partial (sig : Signature) (args : list value) (kwargs : alist)
      : result (gmap string value) :=
    _bind sig args kwargs true.

  (** [BoundArguments.args] *)
Fixpoint args (sig : Signature) (arguments : gmap string value) : list value :=
    match sig with
    | [] => []
    | param :: rest =>
        if bool_decide (kind_of param = VAR_KEYWORD)
           || bool_decide (kind_of param = KEYWORD_ONLY) then []
        else
          match arguments !! name param with
          | None => []
          | Some arg =>
              if decide (kind_of param = VAR_POSITIONAL) then
                match arg with
                | VTuple xs => xs ++ args rest arguments
                | _ => args rest arguments
                end
              else arg :: args rest arguments
          end
    end.

  (** [BoundArguments.kwargs]; [acc] is the dictionary under construction. *)
Fixpoint kwargs_go (sig : Signature) (arguments : gmap string value)
      (kwargs_started : bool) (acc : gmap string value) : gmap string value :=
    match sig with
    | [] => acc
    | param :: rest =>
        let in_arguments := bool_decide (is_Some (arguments !! name param)) in
        let var_or_kwonly :=
          bool_decide (kind_of param = VAR_KEYWORD)
          || bool_decide (kind_of param = KEYWORD_ONLY) in
        if negb kwargs_started && negb var_or_kwonly && negb in_arguments then
          kwargs_go rest arguments true acc
        else if negb kwargs_started && negb var_or_kwonly then
          kwargs_go rest arguments false acc
        else
          match arguments !! name param with
          | None => kwargs_go rest arguments true acc
          | Some arg =>
              if decide (kind_of param = VAR_KEYWORD) then
                match arg with
                | VDict items =>
                    kwargs_go rest arguments true
                      (fold_left (λ d kv, <[kv.1 := kv.2]> d) items acc)
                | _ => kwargs_go rest arguments true acc
                end
              else kwargs_go rest arguments true (<[name param := arg]> acc)
          end
    end.

Definition kwargs (sig : Signature) (arguments : gmap string value)
      : gmap string value :=
    kwargs_go sig arguments false ∅.

End inspect.

(* ===================================================================== *)
(** ** What the module imports *)
(* ===================================================================== *)

(** The names the module takes from the rest of the package and from JAX.
    Classes are known by name: [class_doc] gives the [__doc__] of a class,
    [class_bases] the names of its proper ancestors ([__mro__] without the
    class itself).  [tree_leaves] is [jax.tree_util.tree_leaves] with its
    [is_leaf] callback, which may raise. *)
Record imports := Imports {
  diffeqsolve_signature : inspect.Signature;
  class_doc : string → option pystr;
  class_bases : string → list string;
  function_doc : string → option pystr;
  is_sde : value → bool;
  is_cde : value → bool;
  tree_leaves : (value → result bool) → value → result (list value);
  jax_version : pystr;
}.

(* ===================================================================== *)
(** ** State: the two [lru_cache]s *)
(* ===================================================================== *)

(** What a [dict] compares when an object is used as a key. *)
Inductive key :=
| KClass (name : string)
| KFunction (name : string)
| KIdentity (addr : N)
| KValue (h : Z).

Global Instance key_eq_dec : EqDecision key.
Proof. solve_decision. Defined.

(** [None]: the object cannot be hashed. *)
Definition cache_key (obj : pyobject) : option key :=
  match obj with
  | Class name => Some (KClass name)
  | Function name => Some (KFunction name)
  | Instance addr _ HashIdentity _ => Some (KIdentity addr)
  | Instance _ _ (HashValue h) _ => Some (KValue h)
  | Instance _ _ Unhashable _ => None
  end.

(** The caches of [_parse_reference] and [_parse_reference_multi], and a
    counter of the scans of a documentation text made so far (it is not part
    of the program; it lets one say that a call did not scan). *)
Record store := Store {
  parse_reference_cache : list (key * pystr);
  parse_reference_multi_cache : list (key * list pystr);
  scans : nat;
}.

Definition empty_store : store := Store [] [] 0.

Definition M (A : Type) : Type := store → result A * store.

Global Instance M_ret : MRet M := λ A a st, (Ok a, st).
Global Instance M_bind : MBind M := λ A B k m st,
  match m st with
  | (Ok a, st') => k a st'
  | (Raise e, st') => (Raise e, st')
  end.

Definition raise {A} (e : exn) : M A := λ st, (Raise e, st).
Definition lift {A} (r : result A) : M A := λ st, (r, st).

(** [functools.lru_cache(maxsize=None)] around a function of one argument:
    a hit returns the stored result, a miss runs the function and stores what
    it returns; nothing is stored when it raises. *)
Definition lru_cache {A} (get : store → list (key * A))
    (set : list (key * A) → store → store)
    (f : pyobject → M A) (obj : pyobject) : M A := λ st,
  match cache_key obj with
  | None => (Raise (TypeError unhashable_type), st)
  | Some k =>
      match alist_lookup k (get st) with
      | Some r => (Ok r, st)
      | None =>
          match f obj st with
          | (Ok r, st') => (Ok r, set ((k, r) :: get st') st')
          | (Raise e, st') => (Raise e, st')
          end
      end
  end.

Definition set_parse_reference_cache (c : list (key * pystr)) (st : store) : store :=
  Store c (parse_reference_multi_cache st) (scans st).

Definition set_parse_reference_multi_cache (c : list (key * list pystr))
    (st : store) : store :=
  Store (parse_reference_cache st) c (scans st).

Section module.

Context (env : imports).

  (** [isinstance(v, cls)] *)
Definition isinstance (v : value) (cls : string) : bool :=
    type_is v cls || bool_decide (cls ∈ class_bases env (type_name v)).

  (** [obj.__doc__]; an instance shows the text of its class. *)
Definition doc_of (obj : pyobject) : option pystr :=
    match obj with
    | Class name => class_doc env name
    | Function name => function_doc env name
    | Instance _ cls _ _ => class_doc env cls
    end.

  (** [_reference_regex.findall(doc)], which rejects [None]. *)
Definition findall (doc : option pystr) : M (list pystr) := λ st,
    match doc with
    | None => (Raise (TypeError expected_string_or_bytes), st)
    | Some d =>
        (Ok (_reference_regex_findall d),
         Store (parse_reference_cache st) (parse_reference_multi_cache st)
           (S (scans st)))
    end.

Definition _parse_reference_body (obj : pyobject) : M pystr :=
    references ← findall (doc_of obj);
    match inspect.cleandoc <$> references with
    | [reference] => mret reference
    | _ => raise ValueError
    end.

Definition _parse_reference : pyobject → M pystr :=
    lru_cache parse_reference_cache set_parse_reference_cache
      _parse_reference_body.

Definition _parse_reference_multi_body (obj : pyobject) : M (list pystr) :=
    references ← findall (doc_of obj);
    mret (inspect.cleandoc <$> references).

Definition _parse_reference_multi : pyobject → M (list pystr) :=
    lru_cache parse_reference_multi_cache set_parse_reference_multi_cache
      _parse_reference_multi_body.

End module.

(* ===================================================================== *)
(** ** Rules and the dispatcher *)
(* ===================================================================== *)

(** A rule: a function of the module, seen through [inspect.signature] (its
    parameters) and through a call (its body, run on the local variables the
    call binds). *)
Record rule := Rule {
  rule_name : string;
  rule_parameters : list inspect.param;
  rule_body : gmap string value → M (option pystr);
}.

Definition param_names (ps : list inspect.param) : list string :=
  inspect.name <$> ps.

(** Whether a keyword argument can give the parameter its value. *)
Definition takes_keyword (p : inspect.param) : bool :=
  bool_decide (inspect.kind_of p = inspect.POSITIONAL_OR_KEYWORD)
  || bool_decide (inspect.kind_of p = inspect.KEYWORD_ONLY).

Definition has_var_keyword (ps : list inspect.param) : bool :=
  existsb (λ p, bool_decide (inspect.kind_of p = inspect.VAR_KEYWORD)) ps.

Fixpoint bind_locals (ps : list inspect.param) (kw extras : gmap string value)
    (locals : gmap string value) : result (gmap string value) :=
  match ps with
  | [] => Ok locals
  | p :: rest =>
      let x := inspect.name p in
      match inspect.kind_of p with
      | inspect.VAR_KEYWORD =>
          bind_locals rest kw extras (<[x := VDict (map_to_list extras)]> locals)
      | inspect.VAR_POSITIONAL =>
          bind_locals rest kw extras (<[x := VTuple []]> locals)
      | inspect.POSITIONAL_ONLY =>
          match inspect.default p with
          | Some d => bind_locals rest kw extras (<[x := d]> locals)
          | None => Raise (TypeError (missing_required_argument x))
          end
      | _ =>
          match kw !! x, inspect.default p with
          | Some v, _ => bind_locals rest kw extras (<[x := v]> locals)
          | None, Some d => bind_locals rest kw extras (<[x := d]> locals)
          | None, None => Raise (TypeError (missing_required_argument x))
          end
      end
  end.

(** The local variables of the call [f( **kw)] of a function with parameters
    [ps]: every keyword goes to the parameter of that name, or to the
    variadic keyword parameter when there is one; a parameter without a
    keyword takes its default. *)
Definition call_locals (ps : list inspect.param) (kw : gmap string value)
    : result (gmap string value) :=
  let named := param_names (filter (λ p, takes_keyword p = true) ps) in
  let extras := filter (λ kv, kv.1 ∉ named) kw in
  match map_to_list extras with
  | (k, _) :: _ =>
      if has_var_keyword ps then bind_locals ps kw extras ∅
      else Raise (TypeError (unexpected_keyword_argument k))
  | [] => bind_locals ps kw extras ∅
  end.

(** [rule( **rulekwargs)] *)
Definition call (r : rule) (rulekwargs : gmap string value) : M (option pystr) :=
  match call_locals (rule_parameters r) rulekwargs with
  | Ok locals => rule_body r locals
  | Raise e => raise e
  end.

(** The loop of [citation] over the parameters of a rule: the names that
    have no default, and whether a variadic keyword parameter was seen. *)
Fixpoint scan_parameters (ps : list inspect.param) (needed_keys : gset string)
    (has_var : bool) : result (gset string * bool) :=
  match ps with
  | [] => Ok (needed_keys, has_var)
  | p :: rest =>
      if decide (inspect.kind_of p = inspect.VAR_KEYWORD) then
        scan_parameters rest needed_keys true
      else if decide (inspect.kind_of p = inspect.POSITIONAL_OR_KEYWORD) then
        match inspect.default p with
        | None => scan_parameters rest ({[inspect.name p]} ∪ needed_keys) has_var
        | Some _ => scan_parameters rest needed_keys has_var
        end
      else Raise AssertionError
  end.

(** The dictionary comprehension that keeps the entries of [kwargs] named by
    a parameter. *)
Definition restrict_kwargs (ps : list inspect.param) (kwargs : gmap string value)
    : gmap string value :=
  fold_left
    (λ d p, match kwargs !! inspect.name p with
            | Some v => <[inspect.name p := v]> d
            | None => d
            end) ps ∅.

(** What the loop body decides for a rule before it calls it. *)
Inductive admission :=
| Skip
| Invoke (rulekwargs : gmap string value).

Definition examine (kwargs : gmap string value) (r : rule) : result admission :=
  '(needed_keys, has_var) ← scan_parameters (rule_parameters r) ∅ false;
  if bool_decide (needed_keys ⊆ dom kwargs) then
    Ok (Invoke (if has_var : bool then kwargs
                else restrict_kwargs (rule_parameters r) kwargs))
  else Ok Skip.

(** One call of a rule made by the dispatcher. *)
Record invocation := Invocation {
  inv_rule : rule;
  inv_kwargs : gmap string value;
  inv_result : result (option pystr);
}.

(** The loop over the registry.  [cites] is the list under construction;
    [trace] lists the calls made so far, the raising one included. *)
Fixpoint dispatch (kwargs : gmap string value) (rules : list rule)
    (cites : list pystr) (trace : list invocation) (st : store)
    : result (list pystr) * list invocation * store :=
  match rules with
  | [] => (Ok cites, trace, st)
  | r :: rest =>
      match examine kwargs r with
      | Raise e => (Raise e, trace, st)
      | Ok Skip => dispatch kwargs rest cites trace st
      | Ok (Invoke rulekwargs) =>
          match call r rulekwargs st with
          | (Ok cite, st') =>
              dispatch kwargs rest
                (match cite with
                 | Some c => cites ++ [str.strip c]
                 | None => cites
                 end)
                (trace ++ [Invocation r rulekwargs (Ok cite)]) st'
          | (Raise e, st') =>
              (Raise e, trace ++ [Invocation r rulekwargs (Raise e)], st')
          end
      end
  end.

Definition dquote : string := String (ascii_of_N 34) "".

Definition _thesis_cite : pystr := str.strip (text "
phdthesis{kidger2021on,
    title={{O}n {N}eural {D}ifferential {E}quations},
    author={Patrick Kidger},
    year={2021},
    school={University of Oxford},
}
").

Definition _start : pystr := str.strip (text "
% --- AUTOGENERATED REFERENCES PRODUCED USING `diffrax.citation(...)` ---
% The following references were found for the numerical techniques being used.
% This does not cover e.g. any modelling techniques being used.
% If you think a paper is missing from here then open an issue or pull request at
% https://github.com/patrick-kidger/diffrax
").

Definition _end : pystr := str.strip (text "
% --- END AUTOGENERATED REFERENCES ---
").

(** The canonical argument map: [dict(bound.kwargs)], then one entry per
    positional value under the name of the parameter at that position. *)
Definition canonical_kwargs (sig : inspect.Signature)
    (arguments : gmap string value) : gmap string value :=
  fold_left (λ kwargs nv, <[nv.1 := nv.2]> kwargs)
    (zip (param_names sig) (inspect.args sig arguments))
    (inspect.kwargs sig arguments).

(** How a call of [citation] ends: [print] was given a document, or an
    exception left the function and nothing was printed. *)
Inductive outcome :=
| Printed (document : pystr)
| Raised (e : exn).

(** [citation( *args, **kwargs)], with the registry [citation_rules] as the
    call finds it. *)
Definition citation (_diffeqsignature : inspect.Signature)
    (citation_rules : list rule) (args : list value) (kwargs : alist)
    (st : store) : outcome * list invocation * store :=
  match inspect.bind_partial _diffeqsignature args kwargs with
  | Raise e => (Raised e, [], st)
  | Ok bound =>
      let kwargs := canonical_kwargs _diffeqsignature bound in
      match dispatch kwargs citation_rules [_start] [] st with
      | (Ok cites, trace, st') =>
          (Printed (str.join (newline ++ newline) (cites ++ [_end])), trace, st')
      | (Raise e, trace, st') => (Raised e, trace, st')
      end
  end.

(* ===================================================================== *)
(** ** The registered rules *)
(* ===================================================================== *)

(** Classes and the function the rules name. *)
Definition BacksolveAdjoint : string := "BacksolveAdjoint".
Definition DirectAdjoint : string := "DirectAdjoint".
Definition RecursiveCheckpointAdjoint : string := "RecursiveCheckpointAdjoint".
Definition AbstractBrownianPath : string := "AbstractBrownianPath".
Definition VirtualBrownianTree : string := "VirtualBrownianTree".
Definition SubSaveAt : string := "SubSaveAt".
Definition AbstractImplicitSolver : string := "AbstractImplicitSolver".
Definition AbstractItoSolver : string := "AbstractItoSolver".
Definition AbstractSRK : string := "AbstractSRK".
Definition AbstractStratonovichSolver : string := "AbstractStratonovichSolver".
Definition Dopri5 : string := "Dopri5".
Definition Dopri8 : string := "Dopri8".
Definition GeneralShARK : string := "GeneralShARK".
Definition Kvaerno3 : string := "Kvaerno3".
Definition Kvaerno4 : string := "Kvaerno4".
Definition Kvaerno5 : string := "Kvaerno5".
Definition LeapfrogMidpoint : string := "LeapfrogMidpoint".
Definition ReversibleHeun : string := "ReversibleHeun".
Definition SEA : string := "SEA".
Definition SemiImplicitEuler : string := "SemiImplicitEuler".
Definition ShARK : string := "ShARK".
Definition SlowRK : string := "SlowRK".
Definition SPaRK : string := "SPaRK".
Definition SRA1 : string := "SRA1".
Definition Tsit5 : string := "Tsit5".
Definition PIDController : string := "PIDController".
Definition adjoint_rms_seminorm : pyobject := Function "adjoint_rms_seminorm".

(** [a, b = l] *)
Definition unpack2 {A} (l : list A) : result (A * A) :=
  match l with
  | [a; b] => Ok (a, b)
  | _ => Raise ValueError
  end.

(** [assert b] *)
Definition assert (b : bool) : M unit :=
  if b then mret () else raise AssertionError.

(** [any(f(x) for x in l)] *)
Fixpoint any (f : value → result bool) (l : list value) : result bool :=
  match l with
  | [] => Ok false
  | x :: l' => b ← f x; if b : bool then Ok true else any f l'
  end.

(** [f in l] for a function [f]: some element is that function. *)
Definition function_in (f : pyobject) (l : list value) : bool :=
  existsb
    (λ v, match v, f with
          | VObj (Function n), Function n' => String.eqb n n'
          | _, _ => false
          end) l.

Definition positional_or_keyword (x : string) (d : option value) : inspect.param :=
  inspect.Param x inspect.POSITIONAL_OR_KEYWORD d.

(** The message of the error that [_no_tracer] raises. *)
Definition traced_message (name : pystr) : pystr :=
  text "`diffrax.citation` was called with " ++ name ++
  text " as a traced JAX value. Try " ++
  text "running again without this, e.g. using `jax.disable_jit()`.".

Definition _no_tracer (x : value) (name : pystr) : M unit :=
  if is_tracer x then raise (RuntimeError (traced_message name))
  else mret ().

Section rules.

Context (env : imports).

(** The text that [_diffrax] returns. *)
Definition _diffrax_text : pystr :=
      (text "
% You are using Diffrax, which is citable as:
")
      ++ _thesis_cite
      ++ (text "

% You are using Equinox, which is citable as:
@article{kidger2021equinox,
    author={Patrick Kidger and Cristian Garcia},
    title={{E}quinox: neural networks in {JAX} via callable {P}y{T}rees and
           filtered transformations},
    year={2021},
    journal={Differentiable Programming workshop at Neural Information Processing
             Systems 2021}
}

% You are using JAX, which is citable as:
@software{jax2018github,
  author = {James Bradbury and Roy Frostig and Peter Hawkins and Matthew James Johnson
            and Chris Leary and Dougal Maclaurin and George Necula and Adam Paszke and
            Jake Vander{P}las and Skye Wanderman-{M}ilne and Qiao Zhang},
  title = {{JAX}: composable transformations of {P}ython+{N}um{P}y programs},
  url = {http://github.com/google/jax},
  version = {")
      ++ jax_version env
      ++ (text "},
  year = {2018},
}
").

Definition _diffrax : rule := Rule "_diffrax" [] (λ _,
    mret (Some _diffrax_text)).

Definition _backsolve_adjoint : rule := Rule "_backsolve_adjoint"
    [positional_or_keyword "adjoint" None;
     positional_or_keyword "terms" (Some VNone)] (λ locals,
    let adjoint := locals !!! "adjoint" in
    let terms := locals !!! "terms" in
    if type_is adjoint BacksolveAdjoint then
      if is_sde env terms then
        refs ← _parse_reference_multi env (Class VirtualBrownianTree);
        '(vbt_ref, _) ← lift (unpack2 refs);
        mret (Some (
          (text "
    % You are backpropagating through an SDE using optimise-then-discretise
    % (`adjoint=BacksolveAdjoint(...)`)
    % This technique was introduced in 
    ")
          ++ vbt_ref
          ++ (text "
    % This technique was refined (simplified via rough path theory) in Section 5.2.3 of:
    ")
          ++ _thesis_cite))
      else if is_cde env terms then
        mret (Some (
          (text "
    % You are backpropagating through a CDE using optimise-then-discretise
    % (`adjoint=BacksolveAdjoint(...)`)
    % This technique was introduced in Section 5.2.2 of:
    ")
          ++ _thesis_cite))
      else
        mret (Some (
          (text "
% You are backpropagating through an ODE using optimise-then-discretise
%  (`adjoint=BacksolveAdjoint(...)`)
% Many references exist for this technique. For example:
@article{chen2018neuralode,
  title={Neural Ordinary Differential Equations},
  author={Chen, Ricky T. Q. and Rubanova, Yulia and Bettencourt, Jesse and Duvenaud,
          David},
  journal={Advances in Neural Information Processing Systems},
  year={2018}
}
% In addition, the most modern (6-line) proof of this result can be found in Section
5.1.2.1 of:
")
          ++ _thesis_cite))
    else mret None).

Definition _discrete_adjoint : rule := Rule "_discrete_adjoint"
    [positional_or_keyword "adjoint" None] (λ locals,
    let adjoint := locals !!! "adjoint" in
    if type_in adjoint [RecursiveCheckpointAdjoint; DirectAdjoint] then
      let pieces := [] in
      let pieces := pieces ++ [
        (text "
% You are differentiating using discretise-then-optimise.
")] in
      let pieces := pieces ++ [
        (text "
% If using forward-mode autodifferentiation, then this was studied in:
@inproceedings{ma2021comparison,
  title={A Comparison of Automatic Differentiation and Continuous Sensitivity Analysis
         for Derivatives of Differential Equation Solutions}, 
  author={Ma, Yingbo and Dixit, Vaibhav and Innes, Michael J and Guo, Xingjian and
          Rackauckas, Chris},
  booktitle={2021 IEEE High Performance Extreme Computing Conference (HPEC)}, 
  year={2021},
  pages={1-9},
  doi={10.1109/HPEC49654.2021.9622796}
}
")] in
      let pieces :=
        if type_is adjoint RecursiveCheckpointAdjoint then
          pieces ++ [
            (text ("
% If using reverse-mode autodifferentiation (backpropagation), then you are using
% online recursive checkpointing in order to minimise memory usage. This was developed
% in:
@article{stumm2010new,
    author = {Stumm, Philipp and Walther, Andrea},
    title = {New Algorithms for Optimal Online Checkpointing},
    journal = {SIAM Journal on Scientific Computing},
    volume = {32},
    number = {2},
    pages = {836--854},
    year = {2010},
    doi = {10.1137/080742439},
}
@article{wang2009minimal,
    author = {Wang, Qiqi and Moin, Parviz and Iaccarino, Gianluca},
    title = {Minimal Repetition Dynamic Checkpointing Algorithm for Unsteady
             Adjoint Calculation},
    journal = {SIAM Journal on Scientific Computing},
    volume = {31},
    number = {4},
    pages = {2549--2567},
    year = {2009},
    doi = {10.1137/080727890},
}

% In addition, the equivalent offline recursive checkpointing scheme (also known as
% " +:+ dquote +:+ "treeverse" +:+ dquote +:+ ", " +:+ dquote +:+ "binary checkpointing" +:+ dquote +:+ ", or " +:+ dquote +:+ "revolve" +:+ dquote +:+ ") was developed in:
@article{griewank1992achieving,
    author = {Griewank, Andreas},
    title = {Achieving logarithmic growth of temporal and spatial complexity in
             reverse automatic differentiation},
    journal = {Optimization Methods and Software},
    volume = {1},
    number = {1},
    pages = {35--54},
    year  = {1992},
    publisher = {Taylor & Francis},
    doi = {10.1080/10556789208805505},
}
@article{griewank2000revolve,
    author = {Griewank, Andreas and Walther, Andrea},
    title = {Algorithm 799: Revolve: An Implementation of Checkpointing for the
             Reverse or Adjoint Mode of Computational Differentiation},
    year = {2000},
    publisher = {Association for Computing Machinery},
    volume = {26},
    number = {1},
    doi = {10.1145/347837.347846},
    journal = {ACM Trans. Math. Softw.},
    pages = {19--45},
}
"))]
        else pieces in
      mret (Some (str.join newline (str.strip <$> pieces)))
    else mret None).

Definition _virtual_brownian_tree : rule := Rule "_virtual_brownian_tree"
    [positional_or_keyword "terms" None] (λ locals,
    let terms := locals !!! "terms" in
    let is_vbt := λ x, isinstance env x VirtualBrownianTree in
    leaves ← lift (tree_leaves env (λ x, Ok (is_vbt x)) terms);
    if existsb is_vbt leaves then
      refs ← _parse_reference_multi env (Class VirtualBrownianTree);
      '(vbt_ref, _) ← lift (unpack2 refs);
      mret (Some (
        (text "
% You are simulating Brownian motion using a virtual Brownian tree, which was introduced
% in:
")
        ++ vbt_ref))
    else mret None).

Definition has_levy_area (x : value) : result bool :=
    if isinstance env x AbstractBrownianPath then
      levy_area ← getattr x "levy_area"; Ok (ne_empty_str levy_area)
    else Ok false.

Definition _space_time_levy_area : rule := Rule "_space_time_levy_area"
    [positional_or_keyword "terms" None] (λ locals,
    let terms := locals !!! "terms" in
    leaves ← lift (tree_leaves env has_levy_area terms);
    found ← lift (any has_levy_area leaves);
    if found : bool then
      refs ← _parse_reference_multi env (Class VirtualBrownianTree);
      '(_, levy_area_ref) ← lift (unpack2 refs);
      mret (Some (
        (text "
% You are simulating Brownian motion using space-time Levy area, the formulae for which
% were developed in:
")
        ++ levy_area_ref))
    else mret None).

Definition _backsolve_rms_norm : rule := Rule "_backsolve_rms_norm"
    [positional_or_keyword "adjoint" None] (λ locals,
    let adjoint := locals !!! "adjoint" in
    if type_is adjoint BacksolveAdjoint then
      leaves ← lift (tree_leaves env (λ _, Ok false) adjoint);
      if function_in adjoint_rms_seminorm leaves then
        ref ← _parse_reference env adjoint_rms_seminorm;
        mret (Some (
          (text "
% You are backpropagating using adjoint seminorms, which was introduced in::
") ++ ref))
      else mret None
    else mret None).

Definition _explicit_solver : rule := Rule "_explicit_solver"
    [positional_or_keyword "solver" None;
     positional_or_keyword "terms" (Some VNone)] (λ locals,
    let solver := locals !!! "solver" in
    let terms := locals !!! "terms" in
    if negb (existsb (isinstance env solver)
               [AbstractImplicitSolver; AbstractSRK; AbstractItoSolver;
                AbstractStratonovichSolver])
       && negb (is_sde env terms) then
      mret (Some
        (text "
% You are using an explicit solver, and may wish to cite the standard textbook:
@book{hairer2008solving-i,
  address={Berlin},
  author={Hairer, E. and N{\o}rsett, S.P. and Wanner, G.},
  edition={Second Revised Edition},
  publisher={Springer},
  title={{S}olving {O}rdinary {D}ifferential {E}quations {I} {N}onstiff
         {P}roblems},
  year={2008}
}
"))
    else mret None).

Definition _implicit_solver : rule := Rule "_implicit_solver"
    [positional_or_keyword "solver" None;
     positional_or_keyword "terms" (Some VNone)] (λ locals,
    let solver := locals !!! "solver" in
    let terms := locals !!! "terms" in
    if isinstance env solver AbstractImplicitSolver && negb (is_sde env terms) then
      mret (Some
        (text "
% You are using an implicit solver, and may wish to cite the standard textbook:
@book{hairer2002solving-ii,
  address={Berlin},
  author={Hairer, E. and Wanner, G.},
  edition={Second Revised Edition},
  publisher={Springer},
  title={{S}olving {O}rdinary {D}ifferential {E}quations {II} {S}tiff and
         {D}ifferential-{A}lgebraic {P}roblems},
  year={2002}
}
"))
    else mret None).

Definition _symplectic_solver : rule := Rule "_symplectic_solver"
    [positional_or_keyword "solver" None;
     positional_or_keyword "terms" (Some VNone)] (λ locals,
    let solver := locals !!! "solver" in
    let terms := locals !!! "terms" in
    if type_is solver SemiImplicitEuler && negb (is_sde env terms) then
      mret (Some
        (text "
You are using a symplectic solver, and may wish to cite the textbook:
@book{hairer2013geometric,
  title={Geometric Numerical Integration: Structure-Preserving Algorithms for Ordinary
         Differential Equations},
  author={Hairer, E. and Lubich, C. and Wanner, G.},
  isbn={9783662050187},
  series={Springer Series in Computational Mathematics},
  year={2013},
  publisher={Springer Berlin Heidelberg}
}

"))
    else mret None).

Definition _cde : rule := Rule "_cde"
    [positional_or_keyword "terms" None] (λ locals,
    let terms := locals !!! "terms" in
    if is_cde env terms then
      mret (Some
        (text "
% You are solving a CDE. These were studied in:
@incollection{kidger2020neuralcde,
    title={Neural Controlled Differential Equations for Irregular Time Series},
    author={Kidger, Patrick and Morrill, James and Foster, James and Lyons, Terry},
    booktitle={Advances in Neural Information Processing Systems},
    publisher={Curran Associates, Inc.},
    year={2020},
}
"))
    else mret None).

Definition _sde : rule := Rule "_sde"
    [positional_or_keyword "terms" None] (λ locals,
    let terms := locals !!! "terms" in
    if is_sde env terms then
      mret (Some
        (text "
% You are solving an SDE, and may wish to cite the textbook:
@book{kloeden2011numerical,
  title={Numerical Solution of Stochastic Differential Equations},
  author={Kloeden, P.E. and Platen, E.},
  isbn={9783540540625},
  series={Stochastic Modelling and Applied Probability},
  year={2011},
  publisher={Springer Berlin Heidelberg}
}
"))
    else mret None).

Definition _is_subsaveat (x : value) : bool := isinstance env x SubSaveAt.

  (** The condition of the Dopri8 branch,
      [saveat is not None and (saveat.dense or (... for subsaveat in leaves))]:
      [or] yields its first operand when that is true and else its second,
      here the generator object; [tree_leaves] is called when the generator
      is made, its body never runs. *)
Definition dopri8_interpolant_cited (saveat : value) : M bool :=
    match saveat with
    | VNone => mret false
    | _ =>
        dense ← lift (getattr saveat "dense");
        is_dense ← lift (truthy dense);
        if is_dense : bool then mret true
        else
          leaves ← lift (tree_leaves env (λ x, Ok (_is_subsaveat x)) saveat);
          lift (truthy (VGenerator leaves))
    end.

Definition _solvers : rule := Rule "_solvers"
    [positional_or_keyword "solver" None;
     positional_or_keyword "saveat" (Some VNone)] (λ locals,
    let solver := locals !!! "solver" in
    let saveat := locals !!! "saveat" in
    if type_in solver
         [Tsit5; Kvaerno3; Kvaerno4; Kvaerno5; ReversibleHeun; LeapfrogMidpoint;
          ShARK; SRA1; SlowRK; GeneralShARK; SPaRK; SEA] then
      match solver with
      | VObj obj =>
          ref ← _parse_reference env obj;
          mret (Some (
            (text "
% You are using the ")
            ++ text (type_name solver)
            ++ (text " solver, which was introduced in:
")
            ++ ref))
      | _ => mret None (* no other value has one of these types *)
      end
    else if type_is solver Dopri5 then
      refs ← _parse_reference_multi env (Class Dopri5);
      '(ref1, ref2) ← lift (unpack2 refs);
      _ ← assert (str.contains (text "Dormand") ref1);
      _ ← assert (str.contains (text "Prince") ref1);
      _ ← assert (str.contains (text "Shampine") ref2);
      mret (Some (
        (text "
% Dormand--Prince 5(4) was introduced in:
")
        ++ ref1
        ++ (text "
% The specific implementation used here is the improved version (different Butcher
% tableau) introduced in:
")
        ++ ref2))
    else if type_is solver Dopri8 then
      refs ← _parse_reference_multi env (Class Dopri8);
      '(ref1, ref2) ← lift (unpack2 refs);
      _ ← assert (str.contains (text "Dormand") ref1);
      _ ← assert (str.contains (text "Prince") ref1);
      _ ← assert (str.contains (text "Bogacki") ref2);
      _ ← assert (str.contains (text "Shampine") ref2);
      let msg :=
        (text "
% Dormand--Prince 8(7) was introduced in:
")
        ++ ref1 in
      cited ← dopri8_interpolant_cited saveat;
      if cited : bool then
        mret (Some (msg ++
          (text "
% Output via `SaveAt(ts=...)` or `SaveAt(dense=True)` is done using the
% Dormand--Prince 8(7) interpolant introduced in:
")
          ++ ref2))
      else mret (Some msg)
    else mret None).

Definition _auto_dt0 : rule := Rule "_auto_dt0"
    [positional_or_keyword "dt0" None] (λ locals,
    let dt0 := locals !!! "dt0" in
    match dt0 with
    | VNone =>
        mret (Some
          (text "
% Automatic selection of initial step size is from Section II.4 of:
@book{hairer2008solving-i,
  address={Berlin},
  author={Hairer, E. and N{\o}rsett, S.P. and Wanner, G.},
  edition={Second Revised Edition},
  publisher={Springer},
  title={{S}olving {O}rdinary {D}ifferential {E}quations {I} {N}onstiff
         {P}roblems},
  year={2008}
}
"))
    | _ => mret None
    end).

Definition _pid_controller : rule := Rule "_pid_controller"
    [positional_or_keyword "stepsize_controller" None;
     positional_or_keyword "terms" (Some VNone)] (λ locals,
    let stepsize_controller := locals !!! "stepsize_controller" in
    let terms := locals !!! "terms" in
    if type_is stepsize_controller PIDController then
      if is_sde env terms then
        mret (Some
          (text "
% The use of PI and PI controllers to adapt step sizes for SDEs are from:
@article{burrage2004adaptive,
  title={Adaptive stepsize based on control theory for stochastic
         differential equations},
  journal={Journal of Computational and Applied Mathematics},
  volume={170},
  number={2},
  pages={317--336},
  year={2004},
  doi={https://doi.org/10.1016/j.cam.2004.01.027},
  author={P.M. Burrage and R. Herdiana and K. Burrage},
}
@article{ilie2015adaptive,
  author={Ilie, Silvana and Jackson, Kenneth R. and Enright, Wayne H.},
  title={{A}daptive {T}ime-{S}tepping for the {S}trong {N}umerical {S}olution
         of {S}tochastic {D}ifferential {E}quations},
  year={2015},
  publisher={Springer-Verlag},
  address={Berlin, Heidelberg},
  volume={68},
  number={4},
  doi={https://doi.org/10.1007/s11075-014-9872-6},
  journal={Numer. Algorithms},
  pages={791–-812},
}
"))
      else
        pcoeff ← lift (getattr stepsize_controller "pcoeff");
        let no_p := eq_zero pcoeff in
        dcoeff ← lift (getattr stepsize_controller "dcoeff");
        let no_d := eq_zero dcoeff in
        _ ← _no_tracer no_p (text "stepsize_controller.pcoeff");
        _ ← _no_tracer no_d (text "stepsize_controller.dcoeff");
        d ← lift (truthy no_d);
        if d : bool then
          p ← lift (truthy no_p);
          if p : bool then
            mret (Some
              (text "
% The use of an I-controller to adapt step sizes is from Section II.4 of:
@book{hairer2008solving-i,
  address={Berlin},
  author={Hairer, E. and N{\o}rsett, S.P. and Wanner, G.},
  edition={Second Revised Edition},
  publisher={Springer},
  title={{S}olving {O}rdinary {D}ifferential {E}quations {I} {N}onstiff
         {P}roblems},
  year={2008}
}
"))
          else
            mret (Some
              (text ("
% The use of a PI-controller to adapt step sizes is from Section IV.2 of:
@book{hairer2002solving-ii,
  address={Berlin},
  author={Hairer, E. and Wanner, G.},
  edition={Second Revised Edition},
  publisher={Springer},
  title={{S}olving {O}rdinary {D}ifferential {E}quations {II} {S}tiff and
         {D}ifferential-{A}lgebraic {P}roblems},
  year={2002}
}
% and Sections 1--3 of:
@article{soderlind2002automatic,
    title={Automatic control and adaptive time-stepping},
    author={Gustaf S{\" +:+ dquote +:+ "o}derlind},
    year={2002},
    journal={Numerical Algorithms},
    volume={31},
    pages={281--310}
}
")))
        else
          mret (Some
            (text ("
% The use of a PID controller to adapt step sizes is from:
@article{soderlind2003digital,
    title={{D}igital {F}ilters in {A}daptive {T}ime-{S}tepping,
    author={Gustaf S{\" +:+ dquote +:+ "o}derlind},
    year={2003},
    journal={ACM Transactions on Mathematical Software},
    volume={20},
    number={1},
    pages={1--26}
}
")))
    else mret None).

  (** The registry, in the order in which the module appends to it. *)
Definition citation_rules : list rule :=
    [_diffrax; _backsolve_adjoint; _discrete_adjoint; _virtual_brownian_tree;
     _space_time_levy_area; _backsolve_rms_norm; _explicit_solver;
     _implicit_solver; _symplectic_solver; _cde; _sde; _solvers; _auto_dt0;
     _pid_controller].

Definition _diffeqsignature : inspect.Signature := diffeqsolve_signature env.

End rules.

(* ===================================================================== *)
(** ** Vocabulary of the statements *)
(* ===================================================================== *)

(** A signature without [*args] and without [**kwargs]. *)
Definition no_variadic (sig : inspect.Signature) : Prop :=
  Forall (λ p, inspect.kind_of p ≠ inspect.VAR_POSITIONAL
               ∧ inspect.kind_of p ≠ inspect.VAR_KEYWORD) sig.

(** The parameters of a rule pass the assertion of the dispatcher. *)
Definition asserted (ps : list inspect.param) : Prop :=
  Forall (λ p, inspect.kind_of p = inspect.VAR_KEYWORD
               ∨ inspect.kind_of p = inspect.POSITIONAL_OR_KEYWORD) ps.

(** The required names of a rule: its declared parameters without a
    default, the variadic one apart. *)
Definition required_names (ps : list inspect.param) : gset string :=
  list_to_set
    (param_names
       (filter (λ p, inspect.kind_of p ≠ inspect.VAR_KEYWORD
                     ∧ inspect.default p = None) ps)).

(** A rule is admitted by a map when its required names are keys of it. *)
Definition admitted (kwargs : gmap string value) (r : rule) : Prop :=
  required_names (rule_parameters r) ⊆ dom kwargs.

(** The restriction of a map to the names of the given parameters. *)
Definition restriction (ps : list inspect.param) (kwargs : gmap string value)
    : gmap string value :=
  filter (λ kv, kv.1 ∈ param_names ps) kwargs.

(** The blocks a trace contributes: the trimmed return value of every call
    that returned something other than [None]. *)
Definition blocks (trace : list invocation) : list pystr :=
  omap (λ i, match inv_result i with
             | Ok (Some cite) => Some (str.strip cite)
             | _ => None
             end) trace.

(** The blocks as the specification words them: one per call whose return
    value is non-empty text. *)
Definition spec_blocks (trace : list invocation) : list pystr :=
  omap (λ i, match inv_result i with
             | Ok (Some cite) =>
                 match cite with
                 | [] => None
                 | _ => Some (str.strip cite)
                 end
             | _ => None
             end) trace.

Definition blank_line : pystr := newline ++ newline.

(** A run of the loop that raises nothing, call by call. *)
Inductive run (kwargs : gmap string value)
    : list rule → store → list invocation → store → Prop :=
| run_nil st : run kwargs [] st [] st
| run_skip r rules st trace st' :
    examine kwargs r = Ok Skip →
    run kwargs rules st trace st' →
    run kwargs (r :: rules) st trace st'
| run_call r rules st rulekwargs cite st1 trace st' :
    examine kwargs r = Ok (Invoke rulekwargs) →
    call r rulekwargs st = (Ok cite, st1) →
    run kwargs rules st1 trace st' →
    run kwargs (r :: rules) st (Invocation r rulekwargs (Ok cite) :: trace) st'.

(** A text that neither starts nor ends with white space. *)
Definition trimmed (s : pystr) : Prop :=
  (∀ c, head s = Some c → str.isspace c = false)
  ∧ (∀ c, last s = Some c → str.isspace c = false).

(** The field that the error of [_pid_controller] names: [pcoeff] is
    checked first. *)
Definition traced_field (pcoeff : value) : pystr :=
  if is_tracer pcoeff then text "stepsize_controller.pcoeff"
  else text "stepsize_controller.dcoeff".

(** The rules registered before [_pid_controller]. *)
Definition rules_before_pid_controller (env : imports) : list rule :=
  take 13 (citation_rules env).

(** The names that a keyword can reach in a call. *)
Definition keyword_names (ps : list inspect.param) : list string :=
  param_names (filter (λ p, takes_keyword p = true) ps).

(** The value a call gives to a parameter: the keyword of its name, else its
    default; the variadic keyword parameter collects the keywords that name
    no parameter. *)
Definition bound_value (ps : list inspect.param) (kwargs : gmap string value)
    (p : inspect.param) : option value :=
  if decide (inspect.kind_of p = inspect.VAR_KEYWORD) then
    Some (VDict (map_to_list (filter (λ kv, kv.1 ∉ keyword_names ps) kwargs)))
  else
    match kwargs !! inspect.name p with
    | Some v => Some v
    | None => inspect.default p
    end.

(** The value a parameter gets from [bind_locals], for the kinds the
    dispatcher accepts. *)
Definition local_value (kw extras : gmap string value) (p : inspect.param)
    : option value :=
  if decide (inspect.kind_of p = inspect.VAR_KEYWORD) then
    Some (VDict (map_to_list extras))
  else match kw !! inspect.name p with
       | Some v => Some v
       | None => inspect.default p
       end.

Global Instance admitted_dec kwargs r : Decision (admitted kwargs r).
Proof. unfold admitted. apply _. Defined.

Global Instance asserted_dec ps : Decision (asserted ps).
Proof. unfold asserted. apply _. Defined.

Global Instance no_variadic_dec sig : Decision (no_variadic sig).
Proof. unfold no_variadic. apply _. Defined.

(** A reference block as it stands in a documentation text. *)
Definition reference_block (body : pystr) : pystr :=
  fence ++ text "bibtex" ++ body ++ fence.

(** What a scan of the documentation text of [obj] yields. *)
Definition references_of (env : imports) (obj : pyobject) : option (list pystr) :=
  (λ doc, inspect.cleandoc <$> _reference_regex_findall doc) <$> doc_of env obj.

(** An entry of the cache of [_parse_reference_multi] under the key of
    [obj], if there is one, holds the references of [obj]. *)
Definition multi_cache_agrees (env : imports) (obj : pyobject) (st : store)
    : Prop :=
  ∀ k refs,
    cache_key obj = Some k →
    alist_lookup k (parse_reference_multi_cache st) = Some refs →
    references_of env obj = Some refs.

Definition no_backtick (s : pystr) : Prop := Forall (λ c, c ≠ backtick) s.

(** A documentation text: free text, then reference blocks each followed by
    free text. *)
Definition documentation (before : pystr) (refs : list (pystr * pystr))
    : pystr :=
  before ++ concat ((λ ba, reference_block ba.1 ++ ba.2) <$> refs).

(** [later env st st']: the store [st'] is what [st] has become after any
    number of calls of [_parse_reference] and [_parse_reference_multi], on
    any objects, whether they returned or raised. *)
Inductive later (env : imports) (st : store) : store → Prop :=
| later_now : later env st st
| later_parse_reference obj st' :
    later env st st' → later env st (_parse_reference env obj st').2
| later_parse_reference_multi obj st' :
    later env st st' → later env st (_parse_reference_multi env obj st').2.

(* ===================================================================== *)
(** ** A concrete setting, for examples *)
(* ===================================================================== *)

(** An instance of the parameter list of [diffeqsolve], which is declared in
    another module of the package: positional parameters, then keyword-only
    ones. *)
Definition example_signature : inspect.Signature :=
  [positional_or_keyword "terms" None;
   positional_or_keyword "solver" None;
   positional_or_keyword "t0" None;
   positional_or_keyword "t1" None;
   positional_or_keyword "dt0" None;
   positional_or_keyword "y0" None;
   positional_or_keyword "args" (Some VNone);
   inspect.Param "saveat" inspect.KEYWORD_ONLY (Some VNone);
   inspect.Param "stepsize_controller" inspect.KEYWORD_ONLY (Some VNone);
   inspect.Param "adjoint" inspect.KEYWORD_ONLY (Some VNone);
   inspect.Param "max_steps" inspect.KEYWORD_ONLY (Some (VInt 4096))].

Definition example_class_doc (cls : string) : option pystr :=
  if String.eqb cls Dopri8 then
    Some (text "Dormand--Prince 8/7 method.

    " ++ reference_block (text "
    @article{prince1981high,
      author={Prince, P. J and Dormand, J. R.},
    }
    ") ++ text "
    " ++ reference_block (text "
    @article{shampine1986some,
      author={Bogacki, P. and Shampine, Lawrence F.},
    }
    ") ++ text "
")
  else if String.eqb cls Tsit5 then
    Some (text "Tsitouras 5/4 method.

    " ++ reference_block (text "
    @article{tsitouras2011runge,
      author={Tsitouras, Ch},
    }
    ") ++ text "
")
  else if String.eqb cls "Undocumented" then Some (text "No reference here.")
  else None.

Definition example_env : imports :=
  Imports example_signature example_class_doc (λ _, []) (λ _, None)
    (λ _, false) (λ _, false)
    (λ _ v, match v with VNone => Ok [] | _ => Ok [v] end) (text "0.4.13").

Definition example_dopri8 : value := VObj (Instance 1 Dopri8 (HashValue 0) []).
Definition example_tsit5 : pyobject := Instance 2 Tsit5 (HashValue 0) [].
Definition example_saveat : value :=
  VObj (Instance 3 "SaveAt" (HashValue 0) [("dense", VBool false)]).
(** A [SaveAt] whose field [dense] is a traced value. *)
Definition example_traced_saveat : value :=
  VObj (Instance 11 "SaveAt" (HashValue 5) [("dense", VTracer)]).

Definition example_pid (pcoeff dcoeff : value) : value :=
  VObj (Instance 4 PIDController (HashValue 0)
          [("pcoeff", pcoeff); ("dcoeff", dcoeff)]).

(** An object that is equal to [example_tsit5] ([__eq__] and [__hash__]
    agree) without being it, whose class has a text without reference. *)
Definition example_lookalike : pyobject := Instance 5 "Undocumented" (HashValue 0) [].

(** A rule that returns the empty string. *)
Definition example_empty_rule : rule :=
  Rule "_empty" [] (λ _, mret (Some [])).

(* ===================================================================== *)
(** ** Vocabulary of the further properties *)
(* ===================================================================== *)

(** Whether [v == 0] is true, for a value that is not traced. *)
Definition is_zero (v : value) : bool :=
  match eq_zero v with
  | VBool b => b
  | _ => false
  end.

(** An environment in which every term is an SDE. *)
Definition example_sde_env : imports :=
  Imports example_signature example_class_doc (λ _, []) (λ _, None)
    (λ _, true) (λ _, false)
    (λ _ v, match v with VNone => Ok [] | _ => Ok [v] end) (text "0.4.13").

Definition example_backsolve : value :=
  VObj (Instance 8 BacksolveAdjoint (HashValue 2) []).

(** An environment in which every class has a text without reference. *)
Definition example_bare_env : imports :=
  Imports example_signature (λ _, Some (text "No reference here."))
    (λ _, []) (λ _, None) (λ _, false) (λ _, false)
    (λ _ v, match v with VNone => Ok [] | _ => Ok [v] end) (text "0.4.13").

(** The values that a call supplies, by name: each positional value under
    the name of the parameter at its position, each keyword under its own
    name. *)
Definition supplied (sig : inspect.Signature) (args : list value)
    (kwargs : alist) : gmap string value :=
  list_to_map (zip (param_names sig) args ++ kwargs).

(** [extends st st']: every entry of the caches of [st] is an entry of the
    caches of [st']. *)
Definition extends (st st' : store) : Prop :=
  (∀ k ref, alist_lookup k (parse_reference_cache st) = Some ref →
            alist_lookup k (parse_reference_cache st') = Some ref)
  ∧ (∀ k refs, alist_lookup k (parse_reference_multi_cache st) = Some refs →
               alist_lookup k (parse_reference_multi_cache st') = Some refs).

(** A computation that can be replayed: when it returns, it has only added
    to the caches, and from any store that has these entries it returns the
    same value and leaves the store as it is. *)
Definition replayable {A} (m : M A) : Prop :=
  ∀ st a st1,
    m st = (Ok a, st1) →
    extends st st1 ∧ ∀ st2, extends st1 st2 → m st2 = (Ok a, st2).

(** The characters of a text that are not white space, in order. *)
Definition visible (s : pystr) : pystr :=
  filter (λ c, str.isspace c = false) s.

(** Every value that the computation returns satisfies [P]. *)
Definition returns {A} (P : A → Prop) (m : M A) : Prop :=
  ∀ st a st', m st = (Ok a, st') → P a.

(** The block that the dispatcher makes of the text begins with [p]. *)
Definition begins_with (p cite : pystr) : Prop :=
  str.startswith p (str.strip cite) = true.

(** What a rule returns is [None], or a text whose block begins with [p]. *)
Definition block_begins_with (p : pystr) (cite : option pystr) : Prop :=
  ∀ c, cite = Some c → begins_with p c.

(** An environment in which every class is a Brownian path and carries two
    references. *)
Definition example_brownian_env : imports :=
  Imports example_signature (λ _, example_class_doc Dopri8)
    (λ _, [AbstractBrownianPath]) (λ _, None) (λ _, true) (λ _, false)
    (λ _ v, match v with VNone => Ok [] | _ => Ok [v] end) (text "0.4.13").

Definition example_brownian_tree : value :=
  VObj (Instance 10 VirtualBrownianTree (HashValue 4)
          [("levy_area", VStr (text "space-time"))]).

(* ===================================================================== *)
(** ** Binding the arguments of a call *)
(* ===================================================================== *)

Section binding.

Import inspect.

Lemma bind_positional_no_variadic sig arg_vals kwargs arguments :
    no_variadic sig →
    match bind_positional true sig arg_vals kwargs arguments with
    | Raise e => ∃ why, e = TypeError why
    | Ok (_, parameters) =>
        length arg_vals ≤ length sig ∧ parameters = drop (length arg_vals) sig
    end.
Proof.
    revert arg_vals arguments.
    induction sig as [|param rest IH]; intros [|arg_val arg_vals] arguments Hsig; simpl.
    - done.
    - eauto.
    - apply Forall_cons in Hsig as [[Hvp Hvk] _].
      case_decide; [done|].
      destruct (has_key _ _); [case_decide; simpl; eauto with lia|].
      destruct (_ || _); simpl; eauto with lia.
    - apply Forall_cons in Hsig as [[Hvp Hvk] Hrest].
      destruct (_ || _); [eauto|]. case_decide; [done|].
      destruct (_ && _); [eauto|].
      specialize (IH arg_vals (<[name param:=arg_val]> arguments) Hrest).
      destruct (bind_positional _ _ _ _ _) as [[? ?]|]; [|done].
      destruct IH as [? ->]. split; [lia|done].
Qed.

Lemma alist_remove_keeps k x kwargs :
    k ∈ kwargs.*1 → k ≠ x → k ∈ (alist_remove x kwargs).*1.
Proof.
    intros [[k' v] [-> Hin]]%list_elem_of_fmap Hne.
    apply list_elem_of_fmap. exists (k', v). split; [done|].
    apply list_elem_of_filter. done.
Qed.

Lemma bind_keywords_no_variadic parameters kwargs kwargs_param arguments :
    no_variadic parameters →
    match bind_keywords true parameters kwargs kwargs_param arguments with
    | Raise e => ∃ why, e = TypeError why
    | Ok (kwargs', kwargs_param', _) =>
        kwargs_param' = kwargs_param
        ∧ ∀ k, k ∈ kwargs.*1 → k ∉ param_names parameters → k ∈ kwargs'.*1
    end.
Proof.
    revert kwargs arguments.
    induction parameters as [|param rest IH]; intros kwargs arguments Hsig; simpl.
    - done.
    - apply Forall_cons in Hsig as [[Hvp Hvk] Hrest].
      destruct (decide (kind_of param = VAR_KEYWORD)); [done|].
      destruct (decide (kind_of param = VAR_POSITIONAL)); [done|].
      destruct (alist_lookup (name param) kwargs) as [arg_val|]; simpl.
      + destruct (decide (kind_of param = POSITIONAL_ONLY)); [eauto|].
        specialize (IH (alist_remove (name param) kwargs)
                      (<[name param:=arg_val]> arguments) Hrest).
        destruct (bind_keywords _ _ _ _ _) as [[[? ?] ?]|]; [|done].
        destruct IH as [-> IH]. split; [done|].
        intros k Hk Hnot. apply not_elem_of_cons in Hnot as [Hne Hnot].
        apply IH; [|done]. by apply alist_remove_keeps.
      + specialize (IH kwargs arguments Hrest).
        destruct (bind_keywords _ _ _ _ _) as [[[? ?] ?]|]; [|done].
        destruct IH as [-> IH]. split; [done|].
        intros k Hk Hnot. apply not_elem_of_cons in Hnot as [Hne Hnot]. auto.
Qed.

Lemma param_names_drop n (sig : Signature) k :
    k ∉ param_names sig → k ∉ param_names (drop n sig).
Proof.
    intros Hk Hin. apply Hk. unfold param_names in *.
    rewrite fmap_drop in Hin. by eapply subseteq_drop.
Qed.

  (** Too many positional values, or a name that is not a parameter: the
      binding raises [TypeError]. *)
Lemma bind_partial_rejects sig args kwargs :
    no_variadic sig →
    length sig < length args ∨ (∃ k, k ∈ kwargs.*1 ∧ k ∉ param_names sig) →
    ∃ why, bind_partial sig args kwargs = Raise (TypeError why).
Proof.
    intros Hsig Hbad. unfold bind_partial, _bind.
    pose proof (bind_positional_no_variadic sig args kwargs ∅ Hsig) as Hpos.
    destruct (bind_positional true sig args kwargs ∅) as [[arguments parameters]|e];
      simpl; [|destruct Hpos as [why ->]; eauto].
    destruct Hpos as [Hlen ->].
    destruct Hbad as [Hbad|(k & Hk & Hnot)]; [lia|].
    assert (no_variadic (drop (length args) sig)) as Hdrop
      by (by apply Forall_drop).
    pose proof (bind_keywords_no_variadic _ kwargs None arguments Hdrop) as Hkw.
    destruct (bind_keywords true _ kwargs None arguments)
      as [[[kwargs' kwargs_param] arguments']|e];
      simpl; [|destruct Hkw as [why ->]; eauto].
    destruct Hkw as [-> Hkeep].
    specialize (Hkeep k Hk (param_names_drop _ _ _ Hnot)).
    destruct kwargs' as [|[arg ?] kwargs']; [by apply elem_of_nil in Hkeep|].
    eauto.
Qed.

  (** A positional value and a keyword for the same parameter: the first
      loop raises [TypeError]. *)
Lemma bind_positional_twice sig i p arg_vals kwargs arguments :
    sig !! i = Some p →
    kind_of p = POSITIONAL_OR_KEYWORD →
    Forall (λ q, kind_of q ≠ VAR_POSITIONAL) (take i sig) →
    i < length arg_vals →
    name p ∈ kwargs.*1 →
    ∃ why, bind_positional true sig arg_vals kwargs arguments
           = Raise (TypeError why).
Proof.
    revert i arg_vals arguments.
    induction sig as [|param rest IH]; intros i arg_vals arguments Hi Hkind Hvp Hlen Hin;
      [done|].
    destruct arg_vals as [|arg_val arg_vals]; simpl in Hlen; [lia|].
    destruct i as [|i]; simpl in *.
    - simplify_eq. rewrite Hkind. simpl.
      unfold has_key. rewrite bool_decide_eq_true_2 by done. simpl. eauto.
    - apply Forall_cons in Hvp as [Hparam Hvp].
      destruct (_ || _); [eauto|]. case_decide; [done|].
      destruct (_ && _); [eauto|].
      apply (IH i); auto with lia.
Qed.

End binding.

Lemma citation_bind_raises sig rules args kwargs st e :
  inspect.bind_partial sig args kwargs = Raise e →
  citation sig rules args kwargs st = (Raised e, [], st).
Proof. intros H. unfold citation. by rewrite H. Qed.

(* ===================================================================== *)
(** ** Admission of a rule *)
(* ===================================================================== *)

Section admission.

Import inspect.

Lemma required_names_cons p ps :
  required_names (p :: ps) =
    if decide (kind_of p ≠ VAR_KEYWORD ∧ default p = None)
    then {[name p]} ∪ required_names ps
    else required_names ps.
Proof.
  unfold required_names. rewrite filter_cons.
  destruct (decide _); [|done]. simpl. done.
Qed.

(** What the loop over the parameters computes, when it ends. *)
Lemma scan_parameters_Ok ps needed_keys has_var needed_keys' has_var' :
  scan_parameters ps needed_keys has_var = Ok (needed_keys', has_var') →
  asserted ps
  ∧ needed_keys' = required_names ps ∪ needed_keys
  ∧ has_var' = has_var || has_var_keyword ps.
Proof.
  revert needed_keys has_var.
  induction ps as [|p ps IH]; intros needed_keys has_var Hscan; simpl in Hscan.
  - simplify_eq. split; [constructor|]. split; [set_solver|].
    by rewrite orb_false_r.
  - rewrite required_names_cons. simpl.
    destruct (decide (kind_of p = VAR_KEYWORD)) as [Hvk|Hvk].
    + apply IH in Hscan as (Has & -> & ->).
      split; [constructor; auto|].
      rewrite bool_decide_eq_true_2 by done.
      rewrite decide_False by naive_solver. split; [done|].
      simpl. by rewrite orb_true_r.
    + destruct (decide (kind_of p = POSITIONAL_OR_KEYWORD)) as [Hpk|Hpk]; [|done].
      rewrite bool_decide_eq_false_2 by done. simpl.
      destruct (default p) as [d|] eqn:Hd.
      * apply IH in Hscan as (Has & -> & ->).
        split; [constructor; auto|].
        rewrite decide_False by naive_solver. done.
      * apply IH in Hscan as (Has & -> & ->).
        split; [constructor; auto|].
        rewrite decide_True by naive_solver. split; [set_solver|done].
Qed.

Lemma scan_parameters_asserted ps needed_keys has_var :
  asserted ps →
  scan_parameters ps needed_keys has_var
  = Ok (required_names ps ∪ needed_keys, has_var || has_var_keyword ps).
Proof.
  revert needed_keys has_var.
  induction ps as [|p ps IH]; intros needed_keys has_var Has; simpl.
  - f_equal. f_equal; [set_solver|by rewrite orb_false_r].
  - apply Forall_cons in Has as [Hp Has].
    rewrite required_names_cons.
    destruct (decide (kind_of p = VAR_KEYWORD)) as [Hvk|Hvk].
    + rewrite IH by done. rewrite bool_decide_eq_true_2 by done.
      rewrite decide_False by naive_solver. simpl. by rewrite orb_true_r.
    + destruct Hp as [?|Hpk]; [done|].
      rewrite decide_True by done.
      rewrite bool_decide_eq_false_2 by done. simpl.
      destruct (default p) as [d|] eqn:Hd; rewrite IH by done.
      * rewrite decide_False by naive_solver. done.
      * rewrite decide_True by naive_solver. do 2 f_equal. set_solver.
Qed.

Lemma scan_parameters_Raise ps needed_keys has_var e :
  scan_parameters ps needed_keys has_var = Raise e →
  e = AssertionError ∧ ¬ asserted ps.
Proof.
  intros Hscan. split.
  - revert needed_keys has_var Hscan.
    induction ps as [|p ps IH]; intros needed_keys has_var Hscan; simpl in Hscan;
      [done|].
    repeat case_decide; try (destruct (default p)); eauto; congruence.
  - intros Has. by rewrite scan_parameters_asserted in Hscan.
Qed.

(** The dictionary comprehension is the restriction of the map. *)
Lemma restrict_kwargs_lookup ps kwargs x :
  restrict_kwargs ps kwargs !! x =
    if decide (x ∈ param_names ps) then kwargs !! x else None.
Proof.
  unfold restrict_kwargs.
  assert (∀ d : gmap string value,
    fold_left
      (λ d p, match kwargs !! name p with
              | Some v => <[name p := v]> d
              | None => d
              end) ps d !! x
    = match (if decide (x ∈ param_names ps) then kwargs !! x else None) with
      | Some v => Some v
      | None => d !! x
      end) as Hgen.
  { induction ps as [|p ps IH]; intros d; simpl; [done|].
    rewrite IH. unfold param_names. simpl.
    destruct (decide (x ∈ name <$> ps)) as [Hin|Hin].
    - rewrite decide_True by set_solver.
      destruct (kwargs !! x) eqn:Hx; [done|].
      destruct (kwargs !! name p) eqn:Hp; [|done].
      rewrite lookup_insert_ne; [done|congruence].
    - destruct (decide (x = name p)) as [->|Hne].
      + rewrite decide_True by set_solver.
        destruct (kwargs !! name p) eqn:Hk; [by rewrite lookup_insert_eq|done].
      + rewrite decide_False by set_solver.
        destruct (kwargs !! name p) eqn:Hk; [by rewrite lookup_insert_ne|done]. }
  rewrite Hgen. destruct (decide _); [|done]. by destruct (kwargs !! x).
Qed.

Lemma restrict_kwargs_restriction ps kwargs :
  restrict_kwargs ps kwargs = restriction ps kwargs.
Proof.
  apply map_eq. intros x. rewrite restrict_kwargs_lookup.
  unfold restriction. destruct (decide (x ∈ param_names ps)) as [Hin|Hin].
  - destruct (kwargs !! x) as [v|] eqn:Hk.
    + symmetry. by apply map_lookup_filter_Some.
    + symmetry. apply map_lookup_filter_None. left. done.
  - symmetry. apply map_lookup_filter_None. right. intros v _. done.
Qed.

(** What the loop body decides for a rule. *)
Lemma examine_asserted kwargs r :
  asserted (rule_parameters r) →
  examine kwargs r =
    if decide (admitted kwargs r) then
      Ok (Invoke (if has_var_keyword (rule_parameters r) then kwargs
                  else restriction (rule_parameters r) kwargs))
    else Ok Skip.
Proof.
  intros Has. unfold examine. rewrite scan_parameters_asserted by done. simpl.
  rewrite restrict_kwargs_restriction.
  replace (required_names (rule_parameters r) ∪ ∅)
    with (required_names (rule_parameters r)) by set_solver.
  unfold admitted. destruct (decide _).
  - by rewrite bool_decide_eq_true_2.
  - by rewrite bool_decide_eq_false_2.
Qed.

Lemma examine_Invoke kwargs r rulekwargs :
  examine kwargs r = Ok (Invoke rulekwargs) →
  asserted (rule_parameters r) ∧ admitted kwargs r.
Proof.
  unfold examine. intros H.
  destruct (scan_parameters _ _ _) as [[nk hv]|e] eqn:Hscan; [|done].
  apply scan_parameters_Ok in Hscan as (Has & -> & ->). simpl in H.
  split; [done|]. unfold admitted.
  destruct (bool_decide _) eqn:Hsub; [|done].
  apply bool_decide_eq_true in Hsub. set_solver.
Qed.

Lemma examine_Skip kwargs r :
  examine kwargs r = Ok Skip →
  asserted (rule_parameters r) ∧ ¬ admitted kwargs r.
Proof.
  unfold examine. intros H.
  destruct (scan_parameters _ _ _) as [[nk hv]|e] eqn:Hscan; [|done].
  apply scan_parameters_Ok in Hscan as (Has & -> & ->). simpl in H.
  split; [done|]. unfold admitted.
  destruct (bool_decide _) eqn:Hsub; [done|].
  apply bool_decide_eq_false in Hsub. set_solver.
Qed.

End admission.

(* ===================================================================== *)
(** ** Calling a rule *)
(* ===================================================================== *)

Section calling.

Import inspect.

Lemma bind_locals_asserted ps kw extras locals0 :
  asserted ps →
  NoDup (param_names ps) →
  (∀ p, p ∈ ps → kind_of p = POSITIONAL_OR_KEYWORD → default p = None →
        is_Some (kw !! name p)) →
  ∃ locals,
    bind_locals ps kw extras locals0 = Ok locals
    ∧ (∀ p, p ∈ ps → locals !! name p = local_value kw extras p)
    ∧ (∀ x, x ∉ param_names ps → locals !! x = locals0 !! x).
Proof.
  revert locals0.
  induction ps as [|p ps IH]; intros locals0 Has Hnd Hreq; simpl.
  - exists locals0. split; [done|]. split; [|done].
    intros p Hp. by apply elem_of_nil in Hp.
  - apply Forall_cons in Has as [Hp Has].
    apply NoDup_cons in Hnd as [Hfresh Hnd].
    assert (∀ q, q ∈ ps → kind_of q = POSITIONAL_OR_KEYWORD → default q = None
                 → is_Some (kw !! name q)) as Hreq'
      by (intros q Hq; apply Hreq; by right).
    assert (∀ v, local_value kw extras p = Some v → ∃ locals,
      bind_locals ps kw extras (<[name p := v]> locals0) = Ok locals
      ∧ (∀ q, q ∈ p :: ps → locals !! name q = local_value kw extras q)
      ∧ (∀ x, x ∉ param_names (p :: ps) → locals !! x = locals0 !! x)) as Hval.
    { intros v Hv.
      destruct (IH (<[name p := v]> locals0) Has Hnd Hreq')
        as (locals & Hbind & Hin & Hout).
      exists locals. split; [done|]. split.
      - intros q Hq. apply elem_of_cons in Hq as [->|Hq]; [|by apply Hin].
        rewrite Hout by done. by rewrite lookup_insert_eq.
      - intros x Hx. apply not_elem_of_cons in Hx as [Hne Hx].
        rewrite Hout by done. by rewrite lookup_insert_ne. }
    unfold local_value in Hval.
    destruct Hp as [Hvk|Hpk]; rewrite ?Hvk, ?Hpk.
    + apply Hval. by rewrite decide_True.
    + rewrite decide_False in Hval by congruence.
      destruct (kw !! name p) as [v|] eqn:Hkw; [by apply Hval|].
      destruct (default p) as [d|] eqn:Hd; [by apply Hval|].
      destruct (Hreq p) as [v Hv]; [by left|done..|congruence].
Qed.

Lemma asserted_takes_keyword ps p :
  asserted ps → p ∈ ps →
  takes_keyword p = true ↔ kind_of p ≠ VAR_KEYWORD.
Proof.
  intros Has Hp. unfold asserted in Has. rewrite Forall_forall in Has.
  unfold takes_keyword. destruct (Has p Hp) as [->| ->]; simpl; naive_solver.
Qed.

Lemma keyword_names_no_var ps :
  asserted ps → has_var_keyword ps = false → keyword_names ps = param_names ps.
Proof.
  unfold keyword_names. induction ps as [|p ps IH]; intros Has Hvar; [done|].
  apply Forall_cons in Has as [Hp Has]. simpl in Hvar.
  apply orb_false_iff in Hvar as [Hvk Hvar].
  apply bool_decide_eq_false in Hvk. destruct Hp as [?|Hpk]; [done|].
  rewrite filter_cons_True
    by (unfold takes_keyword; rewrite Hpk; done).
  unfold param_names in *. rewrite !fmap_cons. f_equal. by apply IH.
Qed.

(** The call of an admitted rule binds every parameter. *)
Lemma call_locals_admitted kwargs r :
  let ps := rule_parameters r in
  let rulekwargs :=
    if has_var_keyword ps then kwargs else restriction ps kwargs in
  asserted ps → NoDup (param_names ps) → admitted kwargs r →
  ∃ locals,
    call_locals ps rulekwargs = Ok locals
    ∧ ∀ p, p ∈ ps → locals !! name p = bound_value ps kwargs p.
Proof.
  intros ps rulekwargs Has Hnd Hadm.
  assert (∀ p, p ∈ ps → kind_of p = POSITIONAL_OR_KEYWORD → default p = None →
            is_Some (kwargs !! name p)) as Hreq.
  { intros p Hp Hpk Hd. apply elem_of_dom. apply Hadm.
    unfold required_names. apply elem_of_list_to_set.
    apply list_elem_of_fmap. exists p. split; [done|].
    apply list_elem_of_filter. split; [|done]. split; [congruence|done]. }
  unfold call_locals. fold (keyword_names ps).
  destruct (has_var_keyword ps) eqn:Hvar; subst rulekwargs.
  - destruct (bind_locals_asserted ps kwargs
                (filter (λ kv, kv.1 ∉ keyword_names ps) kwargs) ∅ Has Hnd Hreq)
      as (locals & Hbind & Hin & _).
    exists locals. split; [by destruct (map_to_list _) as [|[??]?]|].
    intros p Hp. rewrite Hin by done. done.
  - assert (filter (λ kv, kv.1 ∉ keyword_names ps) (restriction ps kwargs) = ∅)
      as Hextras.
    { apply map_eq. intros x. rewrite lookup_empty.
      apply map_lookup_filter_None. right. intros v Hv.
      apply map_lookup_filter_Some in Hv as [_ Hx]. simpl in *.
      rewrite keyword_names_no_var by done. auto. }
    rewrite Hextras, map_to_list_empty.
    assert (∀ p, p ∈ ps → restriction ps kwargs !! name p = kwargs !! name p)
      as Hsame.
    { intros p Hp. rewrite <- restrict_kwargs_restriction, restrict_kwargs_lookup.
      rewrite decide_True; [done|]. apply list_elem_of_fmap. eauto. }
    destruct (bind_locals_asserted ps (restriction ps kwargs) ∅ ∅ Has Hnd)
      as (locals & Hbind & Hin & _).
    { intros p Hp Hpk Hd. rewrite Hsame by done. by apply Hreq. }
    exists locals. split; [done|].
    intros p Hp. rewrite Hin by done. unfold local_value, bound_value.
    rewrite Hsame by done.
    destruct (decide (kind_of p = VAR_KEYWORD)) as [Hvk|]; [|done].
    assert (has_var_keyword ps = true) as Hvar'; [|congruence].
    apply existsb_exists. exists p.
    split; [by apply list_elem_of_In|by apply bool_decide_eq_true].
Qed.

End calling.

(* ===================================================================== *)
(** ** Trimming *)
(* ===================================================================== *)

Lemma lstrip_head s c : head (str.lstrip s) = Some c → str.isspace c = false.
Proof.
  induction s as [|a s IH]; simpl; [done|].
  destruct (str.isspace a) eqn:Ha; [done|]. simpl. by intros [= <-].
Qed.

Lemma rstrip_nil s : str.rstrip s = [] ↔ str.all_space s = true.
Proof.
  destruct s as [|a s]; [done|]. simpl.
  destruct (str.isspace a); [|done]. by destruct (str.all_space s).
Qed.

Lemma rstrip_head s c : head (str.rstrip s) = Some c → head s = Some c.
Proof.
  destruct s as [|a s]; simpl; [done|].
  by destruct (if str.isspace a then str.all_space s else false).
Qed.

Lemma rstrip_last s c : last (str.rstrip s) = Some c → str.isspace c = false.
Proof.
  induction s as [|a s IH]; [done|].
  cbn [str.rstrip].
  destruct (str.all_space (a :: s)) eqn:Hall; [done|].
  destruct (str.rstrip s) as [|b r] eqn:Hr.
  - apply rstrip_nil in Hr. simpl in Hall. rewrite Hr in Hall.
    simpl. intros [= <-]. by destruct (str.isspace a).
  - rewrite last_cons_cons. done.
Qed.

Lemma strip_trimmed s : trimmed (str.strip s).
Proof.
  split; intros c Hc.
  - apply rstrip_head in Hc. by apply lstrip_head in Hc.
  - by apply rstrip_last in Hc.
Qed.

Lemma blocks_trimmed trace : Forall trimmed (blocks trace).
Proof.
  induction trace as [|i trace IH]; [constructor|].
  unfold blocks. simpl. destruct (inv_result i) as [[cite|]|]; simpl; [|done..].
  constructor; [apply strip_trimmed|done].
Qed.

Lemma blocks_app t1 t2 : blocks (t1 ++ t2) = blocks t1 ++ blocks t2.
Proof. unfold blocks. apply omap_app. Qed.

(* ===================================================================== *)
(** ** The loop over the registry *)
(* ===================================================================== *)

Lemma dispatch_app kwargs rules1 rules2 cites trace st :
  dispatch kwargs (rules1 ++ rules2) cites trace st =
    match dispatch kwargs rules1 cites trace st with
    | (Ok cites1, trace1, st1) => dispatch kwargs rules2 cites1 trace1 st1
    | (Raise e, trace1, st1) => (Raise e, trace1, st1)
    end.
Proof.
  revert cites trace st.
  induction rules1 as [|r rules1 IH]; intros cites trace st; simpl; [done|].
  destruct (examine kwargs r) as [[|rulekwargs]|e]; [by apply IH| |done].
  destruct (call r rulekwargs st) as [[cite|e] st1]; [by apply IH|done].
Qed.

Lemma dispatch_trace_extends kwargs rules cites trace st :
  ∃ tr, (dispatch kwargs rules cites trace st).1.2 = trace ++ tr.
Proof.
  revert cites trace st.
  induction rules as [|r rules IH]; intros cites trace st; simpl.
  - exists []. by rewrite app_nil_r.
  - destruct (examine kwargs r) as [[|rulekwargs]|e]; [by apply IH| |].
    + destruct (call r rulekwargs st) as [[cite|e] st1].
      * destruct (IH (match cite with
                      | Some c => cites ++ [str.strip c]
                      | None => cites
                      end) (trace ++ [Invocation r rulekwargs (Ok cite)]) st1)
          as [tr ->].
        rewrite <- app_assoc. eauto.
      * simpl. eauto.
    + exists []. by rewrite app_nil_r.
Qed.

(** A run that raises nothing is a [run]; its blocks are added to [cites]
    in the order of the calls. *)
Lemma dispatch_run kwargs rules cites trace st cites' trace' st' :
  dispatch kwargs rules cites trace st = (Ok cites', trace', st') →
  ∃ tr, trace' = trace ++ tr ∧ cites' = cites ++ blocks tr
        ∧ run kwargs rules st tr st'.
Proof.
  revert cites trace st.
  induction rules as [|r rules IH]; intros cites trace st Hd; simpl in Hd.
  - simplify_eq. exists []. rewrite !app_nil_r. split; [done|].
    split; [done|constructor].
  - destruct (examine kwargs r) as [[|rulekwargs]|e] eqn:Hexamine; [| |done].
    + apply IH in Hd as (tr & -> & -> & Hrun).
      exists tr. split; [done|]. split; [done|]. by constructor.
    + destruct (call r rulekwargs st) as [[cite|e] st1] eqn:Hcall; [|done].
      apply IH in Hd as (tr & -> & -> & Hrun).
      exists (Invocation r rulekwargs (Ok cite) :: tr).
      rewrite <- !app_assoc. split; [done|]. split.
      * unfold blocks at 2. simpl. fold (blocks tr).
        destruct cite as [c|]; simpl; [|done]. by rewrite <- app_assoc.
      * by econstructor.
Qed.

Lemma run_dispatch kwargs rules cites trace st tr st' :
  run kwargs rules st tr st' →
  dispatch kwargs rules cites trace st = (Ok (cites ++ blocks tr), trace ++ tr, st').
Proof.
  intros Hrun. revert cites trace.
  induction Hrun as [st|r rules st tr st' Hexamine Hrun IH
                     |r rules st rulekwargs cite st1 tr st' Hexamine Hcall Hrun IH];
    intros cites trace; simpl.
  - by rewrite !app_nil_r.
  - rewrite Hexamine. apply IH.
  - rewrite Hexamine, Hcall, IH. rewrite <- !app_assoc.
    unfold blocks at 2. simpl. fold (blocks tr).
    destruct cite as [c|]; simpl; [|done]. by rewrite <- app_assoc.
Qed.

(** The rules called are the admitted ones, in the order of the registry. *)
Lemma run_rules kwargs rules st tr st' :
  run kwargs rules st tr st' →
  inv_rule <$> tr = filter (admitted kwargs) rules.
Proof.
  induction 1 as [st|r rules st tr st' Hexamine Hrun IH
                  |r rules st rulekwargs cite st1 tr st' Hexamine Hcall Hrun IH].
  - done.
  - apply examine_Skip in Hexamine as [_ Hnot]. by rewrite filter_cons_False.
  - apply examine_Invoke in Hexamine as [_ Hadm].
    rewrite filter_cons_True by done. rewrite fmap_cons. simpl. by f_equal.
Qed.

Lemma dispatch_cons_skip kwargs r rules cites trace st :
  examine kwargs r = Ok Skip →
  dispatch kwargs (r :: rules) cites trace st
  = dispatch kwargs rules cites trace st.
Proof. intros H. simpl. by rewrite H. Qed.

Lemma dispatch_cons_call kwargs r rules cites trace st rulekwargs cite st1 :
  examine kwargs r = Ok (Invoke rulekwargs) →
  call r rulekwargs st = (Ok cite, st1) →
  dispatch kwargs (r :: rules) cites trace st
  = dispatch kwargs rules
      (match cite with
       | Some c => cites ++ [str.strip c]
       | None => cites
       end)
      (trace ++ [Invocation r rulekwargs (Ok cite)]) st1.
Proof. intros H1 H2. simpl. by rewrite H1, H2. Qed.


(** Nothing but [None] and text comes back from a call in a [run]. *)
Lemma run_results kwargs rules st tr st' :
  run kwargs rules st tr st' →
  Forall (λ i, ∃ cite, inv_result i = Ok cite) tr.
Proof. induction 1; repeat constructor; eauto. Qed.


(* ===================================================================== *)
(** ** Claims about the dispatcher *)
(* ===================================================================== *)

(** C1 (as amended).  A call of [citation] that raises nothing prints the
    start banner, then one block per admitted rule whose return value is not
    [None] -- the return value trimmed, so a rule that returns empty text
    contributes an empty block --, in registration order, then the end
    banner; consecutive blocks are joined by two newlines, and no block
    starts or ends with white space.  Rules returning [None] contribute no
    block. *)
Theorem citation_document sig rules args kwargs st doc trace st' :
  citation sig rules args kwargs st = (Printed doc, trace, st') →
  ∃ bound,
    inspect.bind_partial sig args kwargs = Ok bound
    ∧ run (canonical_kwargs sig bound) rules st trace st'
    ∧ inv_rule <$> trace = filter (admitted (canonical_kwargs sig bound)) rules
    ∧ doc = str.join blank_line (_start :: blocks trace ++ [_end])
    ∧ Forall trimmed (blocks trace).
Proof.
  unfold citation. intros Hcit.
  destruct (inspect.bind_partial sig args kwargs) as [bound|e]; [|done].
  exists bound. split; [done|].
  destruct (dispatch _ _ _ _ _) as [[[cites|e] trace1] st1] eqn:Hd; [|done].
  simplify_eq.
  apply dispatch_run in Hd as (tr & -> & -> & Hrun). simpl.
  split; [done|]. split; [by eapply run_rules|].
  split; [|apply blocks_trimmed]. done.
Qed.

(** C2.  A rule whose parameters pass the assertion of the dispatcher is
    called exactly when its required names are keys of the canonical map:
    the decision never raises; when the loop reaches an admitted rule the
    next call is a call of that rule; and a rule that is not admitted leaves
    no trace at all, the run being the run of the registry without it,
    whatever its body. *)
Theorem admission_by_required_names kwargs r :
  asserted (rule_parameters r) →
  (admitted kwargs r ↔ ∃ rulekwargs, examine kwargs r = Ok (Invoke rulekwargs))
  ∧ (¬ admitted kwargs r ↔ examine kwargs r = Ok Skip)
  ∧ (∀ before after cites trace st cites1 trace1 st1,
       admitted kwargs r →
       dispatch kwargs before cites trace st = (Ok cites1, trace1, st1) →
       ∃ rulekwargs,
         (dispatch kwargs (before ++ r :: after) cites trace st).1.2
           !! length trace1
         = Some (Invocation r rulekwargs (call r rulekwargs st1).1))
  ∧ (∀ before after cites trace st,
       ¬ admitted kwargs r →
       dispatch kwargs (before ++ r :: after) cites trace st
       = dispatch kwargs (before ++ after) cites trace st)
  ∧ (∀ sig before after args kw st bound,
       inspect.bind_partial sig args kw = Ok bound →
       canonical_kwargs sig bound = kwargs →
       ¬ admitted kwargs r →
       citation sig (before ++ r :: after) args kw st
       = citation sig (before ++ after) args kw st).
Proof.
  intros Has.
  pose proof (examine_asserted kwargs r Has) as Hexamine.
  assert (∀ before after cites trace st,
            ¬ admitted kwargs r →
            dispatch kwargs (before ++ r :: after) cites trace st
            = dispatch kwargs (before ++ after) cites trace st) as Hskip.
  { intros before after cites trace st Hnot.
    rewrite !dispatch_app.
    destruct (dispatch kwargs before cites trace st) as [[[c|e] t] s]; [|done].
    simpl. rewrite Hexamine. by rewrite decide_False. }
  split; [|split; [|split; [|split]]].
  - split.
    + intros Hadm. rewrite Hexamine, decide_True by done. eauto.
    + intros [rulekwargs H]. by apply examine_Invoke in H as [_ ?].
  - split.
    + intros Hnot. by rewrite Hexamine, decide_False.
    + intros H. by apply examine_Skip in H as [_ ?].
  - intros before after cites trace st cites1 trace1 st1 Hadm Hbefore.
    rewrite dispatch_app, Hbefore. simpl.
    rewrite Hexamine, decide_True by done.
    set (rk := if has_var_keyword (rule_parameters r) then kwargs
               else restriction (rule_parameters r) kwargs).
    exists rk. destruct (call r rk st1) as [[cite|e] st2]; simpl.
    + edestruct dispatch_trace_extends as [tr ->].
      rewrite <- app_assoc. by rewrite lookup_app_r, Nat.sub_diag.
    + by rewrite lookup_app_r, Nat.sub_diag.
  - done.
  - intros sig before after args kw st bound Hbind <- Hnot.
    unfold citation. rewrite Hbind. by rewrite Hskip.
Qed.


(** C5.  When the parameter list of [diffeqsolve] has no variadic
    parameter, a call with more positional values than it has parameters, or
    with a keyword that is not one of its names, raises [TypeError] out of
    the binding: no rule is called, the state is unchanged and nothing is
    printed. *)
Theorem citation_binding_error sig rules args kwargs st :
  no_variadic sig →
  length sig < length args ∨ (∃ k, k ∈ kwargs.*1 ∧ k ∉ param_names sig) →
  ∃ why,
    inspect.bind_partial sig args kwargs = Raise (TypeError why)
    ∧ citation sig rules args kwargs st = (Raised (TypeError why), [], st).
Proof.
  intros Hsig Hbad.
  destruct (bind_partial_rejects sig args kwargs Hsig Hbad) as [why Hbind].
  exists why. split; [done|]. by apply citation_bind_raises.
Qed.

(** C8 (as amended).  When a call gives a parameter both a positional value
    and a keyword, the binding raises [TypeError]: no canonical map is built,
    no rule is called and nothing is printed. *)
Theorem citation_rejects_twice_given sig rules args kwargs st i p :
  sig !! i = Some p →
  inspect.kind_of p = inspect.POSITIONAL_OR_KEYWORD →
  Forall (λ q, inspect.kind_of q ≠ inspect.VAR_POSITIONAL) (take i sig) →
  i < length args →
  inspect.name p ∈ kwargs.*1 →
  ∃ why,
    inspect.bind_partial sig args kwargs = Raise (TypeError why)
    ∧ citation sig rules args kwargs st = (Raised (TypeError why), [], st).
Proof.
  intros Hi Hkind Hvp Hlen Hin.
  destruct (bind_positional_twice sig i p args kwargs ∅ Hi Hkind Hvp Hlen Hin)
    as [why Hpos].
  exists why.
  assert (inspect.bind_partial sig args kwargs = Raise (TypeError why)) as Hbind.
  { unfold inspect.bind_partial, inspect._bind. by rewrite Hpos. }
  split; [done|]. by apply citation_bind_raises.
Qed.

Lemma citation_document_witness :
  ∃ doc trace st',
    citation example_signature (citation_rules example_env)
      [] [("dt0", VNone)] empty_store = (Printed doc, trace, st')
    ∧ rule_name <$> (inv_rule <$> trace) = ["_diffrax"; "_auto_dt0"]
    ∧ doc = str.join blank_line (_start :: blocks trace ++ [_end])
    ∧ Forall trimmed (blocks trace).
Proof.
  eexists _, _, _. split; [vm_compute; reflexivity|].
  split; [vm_compute; reflexivity|].
  edestruct (citation_document example_signature (citation_rules example_env)
               [] [("dt0", VNone)] empty_store)
    as (bound & _ & _ & _ & Hdoc & Htrim); [vm_compute; reflexivity|].
  split; [exact Hdoc|exact Htrim].
Defined.

(** C1 as it is worded fails: a rule that returns the empty string, appended
    to the registry, does contribute a block (an empty one, which puts two
    more newlines before the end banner). *)
Lemma empty_text_contributes_a_block :
  ∃ doc trace st',
    citation example_signature (citation_rules example_env ++ [example_empty_rule])
      [] [] empty_store = (Printed doc, trace, st')
    ∧ rule_name <$> (inv_rule <$> trace) = ["_diffrax"; "_empty"]
    ∧ length (blocks trace) = 2
    ∧ length (spec_blocks trace) = 1
    ∧ doc ≠ str.join blank_line (_start :: spec_blocks trace ++ [_end]).
Proof.
  eexists _, _, _. split; [vm_compute; reflexivity|].
  split; [vm_compute; reflexivity|].
  split; [vm_compute; reflexivity|].
  split; [vm_compute; reflexivity|].
  intros H. apply (f_equal length) in H. vm_compute in H. discriminate H.
Qed.

Lemma admission_by_required_names_witness :
  asserted (rule_parameters (_solvers example_env))
  ∧ (admitted {["solver" := example_dopri8]} (_solvers example_env)
     ↔ ∃ rulekwargs,
         examine {["solver" := example_dopri8]} (_solvers example_env)
         = Ok (Invoke rulekwargs))
  ∧ (¬ admitted {["saveat" := example_saveat]} (_solvers example_env)
     ↔ examine {["saveat" := example_saveat]} (_solvers example_env) = Ok Skip).
Proof.
  assert (asserted (rule_parameters (_solvers example_env))) as Has
    by (apply (bool_decide_unpack _); vm_compute; exact I).
  split; [exact Has|]. split.
  - exact (proj1 (admission_by_required_names
                    {["solver" := example_dopri8]} (_solvers example_env) Has)).
  - exact (proj1 (proj2 (admission_by_required_names
                    {["saveat" := example_saveat]} (_solvers example_env) Has))).
Defined.


Lemma citation_binding_error_witness :
  no_variadic example_signature
  ∧ ∃ why,
      inspect.bind_partial example_signature [] [("rtol", VInt 1)]
      = Raise (TypeError why)
      ∧ citation example_signature (citation_rules example_env)
          [] [("rtol", VInt 1)] empty_store
        = (Raised (TypeError why), [], empty_store).
Proof.
  assert (no_variadic example_signature) as Hsig
    by (apply (bool_decide_unpack _); vm_compute; exact I).
  split; [exact Hsig|].
  apply (citation_binding_error example_signature _ [] [("rtol", VInt 1)] _ Hsig).
  right. exists "rtol".
  split; apply (bool_decide_unpack _); vm_compute; exact I.
Defined.

Lemma citation_rejects_twice_given_witness :
  ∃ why,
    inspect.bind_partial example_signature
      [VNone; example_dopri8] [("solver", example_dopri8)]
    = Raise (TypeError why)
    ∧ citation example_signature (citation_rules example_env)
        [VNone; example_dopri8] [("solver", example_dopri8)] empty_store
      = (Raised (TypeError why), [], empty_store).
Proof.
  apply (citation_rejects_twice_given example_signature _
           [VNone; example_dopri8] [("solver", example_dopri8)] _ 1
           (positional_or_keyword "solver" None)).
  - reflexivity.
  - reflexivity.
  - apply (bool_decide_unpack _); vm_compute; exact I.
  - simpl; lia.
  - apply (bool_decide_unpack _); vm_compute; exact I.
Defined.

(** C8 as it is worded fails: with [terms] given both ways no canonical map
    is built; the call raises before any rule runs. *)
Lemma named_value_does_not_win :
  inspect.bind_partial example_signature [VInt 1] [("terms", VInt 2)]
  = Raise (TypeError (multiple_values_for_argument "terms"))
  ∧ citation example_signature (citation_rules example_env)
      [VInt 1] [("terms", VInt 2)] empty_store
    = (Raised (TypeError (multiple_values_for_argument "terms")), [],
       empty_store).
Proof. split; vm_compute; reflexivity. Qed.

(* ===================================================================== *)
(** ** The first rule *)
(* ===================================================================== *)

Lemma all_space_app a b :
  str.all_space (a ++ b) = str.all_space a && str.all_space b.
Proof.
  induction a as [|c a IH]; simpl; [done|]. by destruct (str.isspace c).
Qed.

Lemma lstrip_app a b :
  str.all_space a = false → str.lstrip (a ++ b) = str.lstrip a ++ b.
Proof.
  induction a as [|c a IH]; simpl; [done|].
  destruct (str.isspace c); [done|]. done.
Qed.






Section no_arguments.

Import inspect.






End no_arguments.


Lemma examine_diffrax env kwargs : examine kwargs (_diffrax env) = Ok (Invoke ∅).
Proof.
  unfold examine. simpl. rewrite bool_decide_eq_true_2 by set_solver. done.
Qed.

Lemma call_diffrax env st :
  call (_diffrax env) ∅ st = (Ok (Some (_diffrax_text env)), st).
Proof. reflexivity. Qed.




(* ===================================================================== *)
(** ** Rule bodies *)
(* ===================================================================== *)

Lemma bind_Ok {A B} (m : M A) (k : A → M B) st a st1 :
  m st = (Ok a, st1) → (m ≫= k) st = k a st1.
Proof. intros H. unfold mbind, M_bind. by rewrite H. Qed.

Lemma bind_Raise {A B} (m : M A) (k : A → M B) st e st1 :
  m st = (Raise e, st1) → (m ≫= k) st = (Raise e, st1).
Proof. intros H. unfold mbind, M_bind. by rewrite H. Qed.

Lemma type_is_name v cls : type_is v cls = true ↔ type_name v = cls.
Proof. unfold type_is. apply String.eqb_eq. Qed.

Lemma bind_lift_Ok {A B} (a : A) (k : A → M B) st :
  (lift (Ok a) ≫= k) st = k a st.
Proof. reflexivity. Qed.

(** The condition of the Dopri8 branch holds for every [saveat] other than
    [None]: when [saveat.dense] is false the value of the [or] is the
    generator object, which is true without being run. *)
Lemma dopri8_interpolant_cited_true env saveat dense is_dense leaves st :
  saveat ≠ VNone →
  getattr saveat "dense" = Ok dense →
  truthy dense = Ok is_dense →
  tree_leaves env (λ x, Ok (_is_subsaveat env x)) saveat = Ok leaves →
  dopri8_interpolant_cited env saveat st = (Ok true, st).
Proof.
  intros Hsaveat Hdense Htruth Hleaves.
  assert (dopri8_interpolant_cited env saveat
          = (dense ← lift (getattr saveat "dense");
             is_dense ← lift (truthy dense);
             if is_dense : bool then mret true
             else
               leaves ← lift (tree_leaves env
                                (λ x, Ok (_is_subsaveat env x)) saveat);
               lift (truthy (VGenerator leaves)))) as ->
    by (by destruct saveat).
  rewrite Hdense, bind_lift_Ok, Htruth, bind_lift_Ok.
  destruct is_dense; [done|]. by rewrite Hleaves, bind_lift_Ok.
Qed.

(** C10.  For a solver of type [Dopri8] whose class carries its two
    references, and any [saveat] other than [None], the rule [_solvers]
    returns the first reference followed by the interpolant comment and the
    second reference: the result does not depend on [saveat.dense] nor on
    the leaves of [saveat]. *)
Theorem dopri8_cites_interpolant env solver saveat dense is_dense leaves
    ref1 ref2 st st1 :
  type_is solver Dopri8 = true →
  saveat ≠ VNone →
  getattr saveat "dense" = Ok dense →
  truthy dense = Ok is_dense →
  tree_leaves env (λ x, Ok (_is_subsaveat env x)) saveat = Ok leaves →
  _parse_reference_multi env (Class Dopri8) st = (Ok [ref1; ref2], st1) →
  str.contains (text "Dormand") ref1 = true →
  str.contains (text "Prince") ref1 = true →
  str.contains (text "Bogacki") ref2 = true →
  str.contains (text "Shampine") ref2 = true →
  call (_solvers env) {["solver" := solver; "saveat" := saveat]} st
  = (Ok (Some ((text "
% Dormand--Prince 8(7) was introduced in:
" ++ ref1) ++ text "
% Output via `SaveAt(ts=...)` or `SaveAt(dense=True)` is done using the
% Dormand--Prince 8(7) interpolant introduced in:
" ++ ref2)), st1).
Proof.
  intros Htype Hsaveat Hdense Htruth Hleaves Hrefs Hd Hp Hb Hs.
  apply type_is_name in Htype.
  unfold call.
  assert (call_locals (rule_parameters (_solvers env))
            {["solver" := solver; "saveat" := saveat]}
          = Ok {["solver" := solver; "saveat" := saveat]}) as ->
    by (vm_compute; reflexivity).
  unfold _solvers. cbn [rule_body].
  assert (({["solver" := solver; "saveat" := saveat]} : gmap string value)
            !!! "solver" = solver) as -> by (vm_compute; reflexivity).
  assert (({["solver" := solver; "saveat" := saveat]} : gmap string value)
            !!! "saveat" = saveat) as -> by (vm_compute; reflexivity).
  assert (type_in solver
            [Tsit5; Kvaerno3; Kvaerno4; Kvaerno5; ReversibleHeun;
             LeapfrogMidpoint; ShARK; SRA1; SlowRK; GeneralShARK; SPaRK; SEA]
          = false) as ->
    by (unfold type_in, type_is; rewrite Htype; vm_compute; reflexivity).
  assert (type_is solver Dopri5 = false) as ->
    by (unfold type_is; rewrite Htype; vm_compute; reflexivity).
  assert (type_is solver Dopri8 = true) as ->
    by (unfold type_is; rewrite Htype; vm_compute; reflexivity).
  rewrite (bind_Ok _ _ _ _ _ Hrefs).
  change (unpack2 [ref1; ref2]) with (Ok (ref1, ref2)).
  rewrite bind_lift_Ok, Hd, Hp, Hb, Hs.
  change (assert true) with (@lift unit (Ok ())).
  rewrite !bind_lift_Ok.
  rewrite (bind_Ok _ _ _ _ _
             (dopri8_interpolant_cited_true env saveat dense is_dense leaves st1
                Hsaveat Hdense Htruth Hleaves)).
  reflexivity.
Qed.

Lemma dopri8_cites_interpolant_witness :
  ∃ ref1 ref2 st1,
    _parse_reference_multi example_env (Class Dopri8) empty_store
    = (Ok [ref1; ref2], st1)
    ∧ getattr example_saveat "dense" = Ok (VBool false)
    ∧ call (_solvers example_env)
        {["solver" := example_dopri8; "saveat" := example_saveat]} empty_store
      = (Ok (Some ((text "
% Dormand--Prince 8(7) was introduced in:
" ++ ref1) ++ text "
% Output via `SaveAt(ts=...)` or `SaveAt(dense=True)` is done using the
% Dormand--Prince 8(7) interpolant introduced in:
" ++ ref2)), st1).
Proof.
  eexists _, _, _. split; [vm_compute; reflexivity|]. split; [reflexivity|].
  eapply (dopri8_cites_interpolant example_env example_dopri8 example_saveat
            (VBool false) false);
    try (vm_compute; reflexivity).
  discriminate.
Defined.

Lemma no_tracer_traced field st :
  _no_tracer VTracer field st = (Raise (RuntimeError (traced_message field)), st).
Proof. reflexivity. Qed.

Lemma no_tracer_concrete x field st :
  is_tracer x = false → _no_tracer x field st = (Ok (), st).
Proof. intros H. unfold _no_tracer. by rewrite H. Qed.

Lemma eq_zero_tracer v : is_tracer (eq_zero v) = true ↔ v = VTracer.
Proof. destruct v; simpl; naive_solver. Qed.

Lemma is_tracer_false v : v ≠ VTracer → is_tracer v = false.
Proof. by destruct v. Qed.

Lemma pid_controller_traced env locals ctrl pcoeff dcoeff st :
  locals !!! "stepsize_controller" = ctrl →
  type_is ctrl PIDController = true →
  is_sde env (locals !!! "terms") = false →
  getattr ctrl "pcoeff" = Ok pcoeff →
  getattr ctrl "dcoeff" = Ok dcoeff →
  pcoeff = VTracer ∨ dcoeff = VTracer →
  rule_body (_pid_controller env) locals st
  = (Raise (RuntimeError (traced_message (traced_field pcoeff))), st).
Proof.
  intros Hctrl Htype Hsde Hp Hd Htraced.
  unfold _pid_controller. cbn [rule_body].
  rewrite Hctrl, Htype, Hsde, Hp, Hd.
  cbv iota.
  etrans; [apply bind_lift_Ok|]. etrans; [apply bind_lift_Ok|].
  destruct (is_tracer (eq_zero pcoeff)) eqn:Hnp.
  - apply eq_zero_tracer in Hnp. subst pcoeff.
    change (eq_zero VTracer) with VTracer.
    cbv beta iota delta [traced_field is_tracer].
    apply bind_Raise, no_tracer_traced.
  - assert (pcoeff ≠ VTracer) as Hpc.
    { intros ->. by rewrite (proj2 (eq_zero_tracer VTracer)) in Hnp. }
    destruct Htraced as [?| ->]; [done|].
    etrans; [apply bind_Ok, no_tracer_concrete, Hnp|].
    change (eq_zero VTracer) with VTracer.
    etrans; [apply bind_Raise, no_tracer_traced|].
    unfold traced_field. rewrite (is_tracer_false _ Hpc). reflexivity.
Qed.

Lemma citation_rules_split env :
  citation_rules env = rules_before_pid_controller env ++ [_pid_controller env].
Proof. reflexivity. Qed.

Lemma dispatch_cons_raise kwargs r rules cites trace st rulekwargs e st1 :
  examine kwargs r = Ok (Invoke rulekwargs) →
  call r rulekwargs st = (Raise e, st1) →
  dispatch kwargs (r :: rules) cites trace st
  = (Raise e, trace ++ [Invocation r rulekwargs (Raise e)], st1).
Proof. intros H1 H2. simpl. by rewrite H1, H2. Qed.

(** How the dispatcher calls [_pid_controller] when the map has a
    controller. *)
Lemma call_pid_controller env kwargs ctrl :
  kwargs !! "stepsize_controller" = Some ctrl →
  let rulekwargs := restriction (rule_parameters (_pid_controller env)) kwargs in
  examine kwargs (_pid_controller env) = Ok (Invoke rulekwargs)
  ∧ ∃ locals,
      call (_pid_controller env) rulekwargs
      = rule_body (_pid_controller env) locals
      ∧ locals !!! "stepsize_controller" = ctrl
      ∧ locals !!! "terms" = default VNone (kwargs !! "terms").
Proof.
  intros Hctrl rulekwargs.
  assert (asserted (rule_parameters (_pid_controller env))) as Has
    by (apply (bool_decide_unpack _); vm_compute; exact I).
  assert (NoDup (param_names (rule_parameters (_pid_controller env)))) as Hnd
    by (apply (bool_decide_unpack _); vm_compute; exact I).
  assert (admitted kwargs (_pid_controller env)) as Hadm.
  { unfold admitted.
    assert (required_names (rule_parameters (_pid_controller env))
            = {["stepsize_controller"]}) as -> by (vm_compute; reflexivity).
    apply singleton_subseteq_l, elem_of_dom. eauto. }
  split.
  - rewrite examine_asserted, decide_True by done. done.
  - destruct (call_locals_admitted kwargs (_pid_controller env) Has Hnd Hadm)
      as (locals & Hlocals & Hin).
    exists locals. split; [|split].
    + unfold call. change (has_var_keyword _) with false in Hlocals.
      subst rulekwargs. by rewrite Hlocals.
    + apply lookup_total_correct.
      pose proof (Hin (positional_or_keyword "stepsize_controller" None)
                    (list_elem_of_here _ _)) as H1.
      unfold bound_value in H1. simpl in H1. by rewrite Hctrl in H1.
    + pose proof (Hin (positional_or_keyword "terms" (Some VNone))
                    (list_elem_of_further _ _ _ (list_elem_of_here _ _))) as H2.
      unfold bound_value in H2. simpl in H2.
      apply lookup_total_correct. by destruct (kwargs !! "terms").
Qed.

(** The message of [_no_tracer], written out. *)
Lemma traced_message_names field :
  traced_message field
  = text "`diffrax.citation` was called with " ++ field
    ++ text " as a traced JAX value. Try "
    ++ text "running again without this, e.g. using `jax.disable_jit()`.".
Proof. unfold traced_message. reflexivity. Qed.

Lemma traced_field_names pcoeff :
  traced_field pcoeff
  = if is_tracer pcoeff
    then text "stepsize_controller.pcoeff"
    else text "stepsize_controller.dcoeff".
Proof. unfold traced_field. reflexivity. Qed.

(** C4 (as amended).  When the canonical map has a [PIDController] one of
    whose coefficients [pcoeff], [dcoeff] is a traced value, outside the SDE
    case, the call of [citation] raises and prints nothing; and when the
    rules registered before [_pid_controller] raise nothing, what is raised
    is the [RuntimeError] of [_no_tracer], whose message, written out here,
    names the traced field: [stepsize_controller.pcoeff] when [pcoeff] is
    traced, and else [stepsize_controller.dcoeff].  These two fields are the
    ones that the module guards. *)
Theorem traced_coefficient_raises env args kwargs st bound ctrl pcoeff dcoeff :
  let kw := canonical_kwargs (_diffeqsignature env) bound in
  inspect.bind_partial (_diffeqsignature env) args kwargs = Ok bound →
  kw !! "stepsize_controller" = Some ctrl →
  type_is ctrl PIDController = true →
  is_sde env (default VNone (kw !! "terms")) = false →
  getattr ctrl "pcoeff" = Ok pcoeff →
  getattr ctrl "dcoeff" = Ok dcoeff →
  pcoeff = VTracer ∨ dcoeff = VTracer →
  ∃ e trace st',
    citation (_diffeqsignature env) (citation_rules env) args kwargs st
    = (Raised e, trace, st')
    ∧ ∀ cites trace1 st1,
        dispatch kw (rules_before_pid_controller env) [_start] [] st
        = (Ok cites, trace1, st1) →
        e = RuntimeError
              (text "`diffrax.citation` was called with "
               ++ (if is_tracer pcoeff
                   then text "stepsize_controller.pcoeff"
                   else text "stepsize_controller.dcoeff")
               ++ text " as a traced JAX value. Try "
               ++ text "running again without this, e.g. using `jax.disable_jit()`.")
        ∧ trace = trace1 ++
            [Invocation (_pid_controller env)
               (restriction (rule_parameters (_pid_controller env)) kw)
               (Raise e)]
        ∧ st' = st1.
Proof.
  intros kw Hbind Hctrl Htype Hsde Hp Hd Htraced.
  unfold citation. rewrite Hbind. fold kw.
  rewrite citation_rules_split, dispatch_app.
  destruct (dispatch kw (rules_before_pid_controller env) [_start] [] st)
    as [[[cites1|e1] trace1] st1] eqn:Hbefore.
  - destruct (call_pid_controller env kw ctrl Hctrl)
      as (Hexamine & locals & Hcall & Hl1 & Hl2).
    rewrite <- Hl2 in Hsde.
    pose proof (pid_controller_traced env locals ctrl pcoeff dcoeff st1
                  Hl1 Htype Hsde Hp Hd Htraced) as Hbody.
    rewrite <- Hcall in Hbody.
    rewrite (dispatch_cons_raise _ _ _ _ _ _ _ _ _ Hexamine Hbody).
    exists (RuntimeError (traced_message (traced_field pcoeff))).
    eexists _, _. split; [reflexivity|].
    intros cites trace2 st2 [= <- <- <-].
    split; [|split; reflexivity].
    rewrite traced_message_names, traced_field_names. reflexivity.
  - eexists _, _, _. split; [done|]. intros cites trace2 st2 [=].
Qed.


Lemma traced_coefficient_raises_witness :
  ∃ e trace st',
    citation example_signature (citation_rules example_env)
      [VNone; VObj example_tsit5]
      [("stepsize_controller", example_pid VTracer (VInt 0))] empty_store
    = (Raised e, trace, st').
Proof.
  destruct (traced_coefficient_raises example_env
              [VNone; VObj example_tsit5]
              [("stepsize_controller", example_pid VTracer (VInt 0))]
              empty_store
              {["terms" := VNone; "solver" := VObj example_tsit5;
                "stepsize_controller" := example_pid VTracer (VInt 0)]}
              (example_pid VTracer (VInt 0)) VTracer (VInt 0))
    as (e & trace & st' & Hcit & _);
    [vm_compute; reflexivity..|left; reflexivity|].
  exists e, trace, st'. exact Hcit.
Defined.

(** C4, as stated, fails: not every field on which a rule branches is
    guarded.  The [Dopri8] branch of [_solvers] takes the truth value of
    [saveat.dense] as it is; when that field is a traced value the call
    raises, and prints nothing, but what is raised is the error of the
    conversion to [bool], not the [RuntimeError] of [_no_tracer]: no message
    of the module names the field. *)
Lemma traced_dense_is_not_named :
  getattr example_traced_saveat "dense" = Ok VTracer
  ∧ ∃ trace st',
      citation example_signature (citation_rules example_env)
        [] [("solver", example_dopri8); ("saveat", example_traced_saveat)]
        empty_store
      = (Raised TracerBoolConversionError, trace, st')
      ∧ ∀ field,
          TracerBoolConversionError ≠ RuntimeError (traced_message field).
Proof.
  split; [reflexivity|].
  destruct (citation example_signature (citation_rules example_env)
              [] [("solver", example_dopri8); ("saveat", example_traced_saveat)]
              empty_store) as [[o trace] st'] eqn:Hcit.
  pose proof (f_equal (λ x, x.1.1) Hcit) as Houtcome.
  vm_compute in Houtcome. cbn [fst] in Houtcome. subst o.
  exists trace, st'. split; [reflexivity|]. discriminate.
Qed.

(* ===================================================================== *)
(** ** The reference store *)
(* ===================================================================== *)

Section lru_cache.

Context {A : Type} (get : store → list (key * A))
  (set : list (key * A) → store → store) (f : pyobject → M A).

Hypothesis get_set : ∀ c st, get (set c st) = c.
Hypothesis f_get : ∀ obj st, get (f obj st).2 = get st.

Lemma lru_cache_hit obj k r st :
  cache_key obj = Some k →
  alist_lookup k (get st) = Some r →
  lru_cache get set f obj st = (Ok r, st).
Proof. intros Hk Hr. unfold lru_cache. by rewrite Hk, Hr. Qed.

Lemma lru_cache_miss_Ok obj k r st st1 :
  cache_key obj = Some k →
  alist_lookup k (get st) = None →
  f obj st = (Ok r, st1) →
  lru_cache get set f obj st = (Ok r, set ((k, r) :: get st1) st1).
Proof. intros Hk Hmiss Hf. unfold lru_cache. by rewrite Hk, Hmiss, Hf. Qed.

Lemma lru_cache_miss_Raise obj k e st st1 :
  cache_key obj = Some k →
  alist_lookup k (get st) = None →
  f obj st = (Raise e, st1) →
  lru_cache get set f obj st = (Raise e, st1).
Proof. intros Hk Hmiss Hf. unfold lru_cache. by rewrite Hk, Hmiss, Hf. Qed.

Lemma lru_cache_unhashable obj st :
  cache_key obj = None →
  lru_cache get set f obj st = (Raise (TypeError unhashable_type), st).
Proof. intros Hk. unfold lru_cache. by rewrite Hk. Qed.

(** An entry, once stored, stays, whatever is called. *)
Lemma lru_cache_keeps obj k r st :
  alist_lookup k (get st) = Some r →
  alist_lookup k (get (lru_cache get set f obj st).2) = Some r.
Proof using get_set f_get.
  intros Hr. unfold lru_cache.
  destruct (cache_key obj) as [k'|]; [|done].
  destruct (alist_lookup k' (get st)) as [r'|] eqn:Hk'; [done|].
  pose proof (f_get obj st) as Hget.
  destruct (f obj st) as [[r'|e] st1]; simpl in *.
  - rewrite get_set. simpl. rewrite Hget.
    destruct (decide (k = k')) as [->|]; [congruence|done].
  - by rewrite Hget.
Qed.

End lru_cache.

Lemma parse_reference_multi_body_Ok env obj doc st :
  doc_of env obj = Some doc →
  _parse_reference_multi_body env obj st
  = (Ok (inspect.cleandoc <$> _reference_regex_findall doc),
     Store (parse_reference_cache st) (parse_reference_multi_cache st)
       (S (scans st))).
Proof. intros Hdoc. unfold _parse_reference_multi_body. by rewrite Hdoc. Qed.

Lemma parse_reference_multi_body_cache env obj st :
  parse_reference_multi_cache (_parse_reference_multi_body env obj st).2
  = parse_reference_multi_cache st.
Proof.
  unfold _parse_reference_multi_body. by destruct (doc_of env obj).
Qed.

Lemma parse_reference_body_caches env obj st :
  parse_reference_cache (_parse_reference_body env obj st).2
  = parse_reference_cache st
  ∧ parse_reference_multi_cache (_parse_reference_body env obj st).2
    = parse_reference_multi_cache st.
Proof.
  unfold _parse_reference_body. destruct (doc_of env obj) as [doc|]; [|done].
  unfold mbind, M_bind. simpl.
  by destruct (inspect.cleandoc <$> _reference_regex_findall doc) as [|? [|? ?]].
Qed.

(** The body of [_parse_reference] on a documented object: exactly one
    reference, or [ValueError]. *)
Lemma parse_reference_body_spec env obj doc st :
  doc_of env obj = Some doc →
  _parse_reference_body env obj st
  = (match _reference_regex_findall doc with
     | [ref] => Ok (inspect.cleandoc ref)
     | _ => Raise ValueError
     end,
     Store (parse_reference_cache st) (parse_reference_multi_cache st)
       (S (scans st))).
Proof.
  intros Hdoc. unfold _parse_reference_body. rewrite Hdoc.
  unfold mbind, M_bind. simpl.
  by destruct (_reference_regex_findall doc) as [|? [|? ?]].
Qed.

(** Calls of [_parse_reference] leave the other cache alone. *)
Lemma parse_reference_multi_cache_untouched env obj st :
  parse_reference_multi_cache (_parse_reference env obj st).2
  = parse_reference_multi_cache st.
Proof.
  unfold _parse_reference, lru_cache.
  destruct (cache_key obj) as [k|]; [|done].
  destruct (alist_lookup k (parse_reference_cache st)); [done|].
  pose proof (parse_reference_body_caches env obj st) as [_ H].
  by destruct (_parse_reference_body env obj st) as [[r|e] st1].
Qed.

Section findall.

Lemma startswith_app sub s : str.startswith sub (sub ++ s) = true.
Proof.
  induction sub as [|a sub IH]; simpl; [by destruct s|].
  by rewrite N.eqb_refl.
Qed.

Lemma span_no_backtick_app body rest :
  no_backtick body →
  span_no_backtick (body ++ backtick :: rest) = (body, backtick :: rest).
Proof.
  induction 1 as [|c body Hc _ IH]; [done|].
  cbn [app span_no_backtick]. rewrite IH.
  by destruct (N.eqb_spec c backtick).
Qed.

Lemma match_reference_block body rest :
  no_backtick body →
  match_reference (reference_block body ++ rest) = Some (body, rest).
Proof.
  intros Hbody. unfold match_reference, reference_block.
  rewrite (app_assoc fence), <- (app_assoc (fence ++ _)), startswith_app.
  change (drop 9 ((fence ++ text "bibtex") ++ (body ++ fence) ++ rest))
    with ((body ++ fence) ++ rest).
  rewrite <- app_assoc.
  change (fence ++ rest) with (backtick :: (backtick :: backtick :: rest)).
  rewrite (span_no_backtick_app _ _ Hbody). reflexivity.
Qed.

Lemma match_reference_no_backtick c s :
  c ≠ backtick → match_reference (c :: s) = None.
Proof.
  intros Hc. unfold match_reference.
  change (str.startswith (fence ++ text "bibtex") (c :: s))
    with ((backtick =? c)%N
          && str.startswith (tail (fence ++ text "bibtex")) s).
  by destruct (N.eqb_spec backtick c).
Qed.

Lemma match_reference_nil : match_reference [] = None.
Proof. reflexivity. Qed.

Lemma findall_go_no_backtick fuel s :
  no_backtick s → findall_go fuel s = [].
Proof.
  intros Hs. revert fuel. induction Hs as [|c s Hc _ IH]; intros [|fuel];
    try done.
  cbn [findall_go]. by rewrite (match_reference_no_backtick _ _ Hc).
Qed.

Lemma findall_go_skip fuel before s :
  no_backtick before →
  findall_go (length before + fuel) (before ++ s) = findall_go fuel s.
Proof.
  induction 1 as [|c before Hc _ IH]; [done|].
  cbn [length app Nat.add findall_go].
  by rewrite (match_reference_no_backtick _ _ Hc).
Qed.

Lemma findall_go_documentation refs : ∀ before fuel,
  no_backtick before →
  Forall (λ ba, no_backtick ba.1 ∧ no_backtick ba.2) refs →
  length (documentation before refs) < fuel →
  findall_go fuel (documentation before refs) = fst <$> refs.
Proof.
  induction refs as [|[body after] refs IH]; intros before fuel Hb Hrefs Hfuel.
  - unfold documentation. simpl. rewrite app_nil_r.
    by apply findall_go_no_backtick.
  - apply Forall_cons in Hrefs as [[Hbody Hafter] Hrefs].
    assert (documentation before ((body, after) :: refs)
            = before ++ reference_block body ++ documentation after refs)
      as Heq.
    { unfold documentation. simpl. by rewrite <- !app_assoc. }
    rewrite Heq in *. rewrite !length_app in Hfuel.
    assert (0 < length (reference_block body)) as Hlen.
    { unfold reference_block. rewrite length_app. simpl. lia. }
    destruct (Nat.le_exists_sub (length before + 1) fuel) as (n & -> & _);
      [lia|].
    replace (n + (length before + 1)) with (length before + S n) by lia.
    rewrite (findall_go_skip _ _ _ Hb). cbn [findall_go].
    rewrite (match_reference_block _ _ Hbody). simpl. f_equal.
    apply IH; [done..|lia].
Qed.

(** The scan of a documentation text yields the bodies of its reference
    blocks, in the order of the text. *)
Lemma findall_documentation before refs :
  no_backtick before →
  Forall (λ ba, no_backtick ba.1 ∧ no_backtick ba.2) refs →
  _reference_regex_findall (documentation before refs) = fst <$> refs.
Proof.
  intros. apply findall_go_documentation; [done..|lia].
Qed.

End findall.

Lemma parse_reference_cache_untouched env obj st :
  parse_reference_cache (_parse_reference_multi env obj st).2
  = parse_reference_cache st.
Proof.
  unfold _parse_reference_multi, lru_cache.
  destruct (cache_key obj) as [k|]; [|done].
  destruct (alist_lookup k (parse_reference_multi_cache st)); [done|].
  unfold _parse_reference_multi_body. by destruct (doc_of env obj).
Qed.

Lemma parse_reference_keeps env obj k ref st :
  alist_lookup k (parse_reference_cache st) = Some ref →
  alist_lookup k (parse_reference_cache (_parse_reference env obj st).2)
  = Some ref.
Proof.
  apply (lru_cache_keeps parse_reference_cache set_parse_reference_cache);
    [done|].
  intros obj' st'. apply parse_reference_body_caches.
Qed.

Lemma parse_reference_multi_keeps env obj k refs st :
  alist_lookup k (parse_reference_multi_cache st) = Some refs →
  alist_lookup k
    (parse_reference_multi_cache (_parse_reference_multi env obj st).2)
  = Some refs.
Proof.
  apply (lru_cache_keeps parse_reference_multi_cache
           set_parse_reference_multi_cache); [done|].
  intros obj' st'. apply parse_reference_multi_body_cache.
Qed.

(** Entries stay in the caches for good. *)
Lemma later_parse_reference_cache env k ref st st' :
  later env st st' →
  alist_lookup k (parse_reference_cache st) = Some ref →
  alist_lookup k (parse_reference_cache st') = Some ref.
Proof.
  intros Hlater Hk. induction Hlater as [|obj st' _ IH|obj st' _ IH]; [done|..].
  - by apply parse_reference_keeps.
  - by rewrite parse_reference_cache_untouched.
Qed.

Lemma later_parse_reference_multi_cache env k refs st st' :
  later env st st' →
  alist_lookup k (parse_reference_multi_cache st) = Some refs →
  alist_lookup k (parse_reference_multi_cache st') = Some refs.
Proof.
  intros Hlater Hk. induction Hlater as [|obj st' _ IH|obj st' _ IH]; [done|..].
  - by rewrite parse_reference_multi_cache_untouched.
  - by apply parse_reference_multi_keeps.
Qed.

(** C7.  Multi extraction on a hashable object with a documentation text
    [doc], in a store whose entry for the object (if any) holds the
    references of the object: [_parse_reference_multi] returns the bodies of
    all the reference blocks of [doc], each cleaned by [inspect.cleandoc],
    in the order of the text (for a text made of blocks [refs] between
    stretches without a backtick, the cleaned bodies of [refs], in that
    order; the empty list when there is no block), scanning the text at most
    once; and every later call on the object, whatever calls of the two
    extraction functions come in between, returns the same list and leaves
    the store as it is, scan counter included. *)
Theorem parse_reference_multi_cached env obj k doc st :
  cache_key obj = Some k →
  doc_of env obj = Some doc →
  multi_cache_agrees env obj st →
  let refs := inspect.cleandoc <$> _reference_regex_findall doc in
  ∃ st1,
    _parse_reference_multi env obj st = (Ok refs, st1)
    ∧ scans st1 ≤ S (scans st)
    ∧ (∀ before blocks,
         doc = documentation before blocks →
         no_backtick before →
         Forall (λ ba, no_backtick ba.1 ∧ no_backtick ba.2) blocks →
         refs = inspect.cleandoc <$> (fst <$> blocks))
    ∧ (∀ st2, later env st1 st2 →
         _parse_reference_multi env obj st2 = (Ok refs, st2)).
Proof.
  intros Hk Hdoc Hagree refs.
  assert (∀ st1, alist_lookup k (parse_reference_multi_cache st1) = Some refs →
            _parse_reference_multi env obj st1 = (Ok refs, st1)) as Hhit.
  { intros st1 Hst1.
    by apply (lru_cache_hit parse_reference_multi_cache
                set_parse_reference_multi_cache _ obj k). }
  assert (∀ before blocks,
            doc = documentation before blocks →
            no_backtick before →
            Forall (λ ba, no_backtick ba.1 ∧ no_backtick ba.2) blocks →
            refs = inspect.cleandoc <$> (fst <$> blocks)) as Horder.
  { intros before blocks -> Hbefore Hblocks. unfold refs.
    by rewrite findall_documentation. }
  destruct (alist_lookup k (parse_reference_multi_cache st)) as [refs'|]
    eqn:Hlookup.
  - assert (refs' = refs) as ->.
    { specialize (Hagree k refs' Hk Hlookup). unfold references_of in Hagree.
      rewrite Hdoc in Hagree. by injection Hagree. }
    exists st. split_and!; [by apply Hhit|lia|exact Horder|].
    intros st2 Hlater. apply Hhit.
    by apply (later_parse_reference_multi_cache env k refs st).
  - pose proof (parse_reference_multi_body_Ok env obj doc st Hdoc) as Hbody.
    pose proof (lru_cache_miss_Ok parse_reference_multi_cache
                  set_parse_reference_multi_cache _ obj k _ st _ Hk Hlookup
                  Hbody) as Hcall.
    match type of Hcall with _ = (_, ?s) => exists s end.
    split; [exact Hcall|].
    assert (∀ c s, alist_lookup k
              (parse_reference_multi_cache
                 (set_parse_reference_multi_cache ((k, refs) :: c) s))
            = Some refs) as Hstored.
    { intros c s. simpl. by rewrite decide_True. }
    split_and!; [simpl; lia|exact Horder|].
    intros st2 Hlater. apply Hhit.
    eapply later_parse_reference_multi_cache; [exact Hlater|apply Hstored].
Qed.

Lemma parse_reference_multi_cached_witness :
  ∃ st1,
    _parse_reference_multi example_env (Class Dopri8) empty_store
    = (Ok [text "@article{prince1981high,
  author={Prince, P. J and Dormand, J. R.},
}"; text "@article{shampine1986some,
  author={Bogacki, P. and Shampine, Lawrence F.},
}"], st1)
    ∧ scans st1 = 1
    ∧ _parse_reference_multi example_env (Class Dopri8)
        (_parse_reference example_env example_tsit5 st1).2
      = (Ok [text "@article{prince1981high,
  author={Prince, P. J and Dormand, J. R.},
}"; text "@article{shampine1986some,
  author={Bogacki, P. and Shampine, Lawrence F.},
}"], (_parse_reference example_env example_tsit5 st1).2).
Proof.
  destruct (parse_reference_multi_cached example_env (Class Dopri8)
              (KClass Dopri8)
              (default [] (example_class_doc Dopri8)) empty_store)
    as (st1 & Hcall & _ & _ & Hlater);
    [reflexivity|vm_compute; reflexivity|by intros k refs _ [=]|].
  assert (inspect.cleandoc
            <$> _reference_regex_findall (default [] (example_class_doc Dopri8))
          = [text "@article{prince1981high,
  author={Prince, P. J and Dormand, J. R.},
}"; text "@article{shampine1986some,
  author={Bogacki, P. and Shampine, Lawrence F.},
}"]) as Hrefs by (vm_compute; reflexivity).
  rewrite Hrefs in Hcall, Hlater.
  exists st1. split; [exact Hcall|]. split.
  - transitivity (scans (_parse_reference_multi example_env (Class Dopri8)
                           empty_store).2);
      [by rewrite Hcall|vm_compute; reflexivity].
  - apply Hlater. apply later_parse_reference, later_now.
Defined.

(** C3.  Single extraction on a hashable object with a documentation text
    [doc], when the cache holds nothing under the key of the object.  If
    [doc] has no reference block or more than one, [_parse_reference] raises
    [ValueError] and caches nothing.  If [doc] has exactly one block, it
    returns the body of the block cleaned by [inspect.cleandoc], after one
    scan; and from then on, whatever calls of the two extraction functions
    come in between, a call on any object with the same cache key (the
    object itself, or another object that compares equal to it) returns the
    same text and leaves the store as it is, scan counter included: the
    cache is keyed by hash and equality, not by identity. *)
Theorem parse_reference_cached env obj k doc st :
  cache_key obj = Some k →
  doc_of env obj = Some doc →
  alist_lookup k (parse_reference_cache st) = None →
  match _reference_regex_findall doc with
  | [block] =>
      ∃ st1,
        _parse_reference env obj st = (Ok (inspect.cleandoc block), st1)
        ∧ scans st1 = S (scans st)
        ∧ ∀ st2 obj',
            later env st1 st2 →
            cache_key obj' = Some k →
            _parse_reference env obj' st2 = (Ok (inspect.cleandoc block), st2)
  | _ =>
      ∃ st1,
        _parse_reference env obj st = (Raise ValueError, st1)
        ∧ parse_reference_cache st1 = parse_reference_cache st
  end.
Proof.
  intros Hk Hdoc Hmiss.
  pose proof (parse_reference_body_spec env obj doc st Hdoc) as Hbody.
  destruct (_reference_regex_findall doc) as [|block [|block' blocks]].
  - eexists.
    split;
      [exact (lru_cache_miss_Raise parse_reference_cache
                set_parse_reference_cache _ obj k _ st _ Hk Hmiss Hbody)|].
    reflexivity.
  - pose proof (lru_cache_miss_Ok parse_reference_cache
                  set_parse_reference_cache _ obj k _ st _ Hk Hmiss Hbody)
      as Hcall.
    match type of Hcall with _ = (_, ?s) => exists s end.
    split_and!; [exact Hcall|reflexivity|].
    intros st2 obj' Hlater Hk'.
    apply (lru_cache_hit parse_reference_cache set_parse_reference_cache
             _ obj' k); [done|].
    eapply later_parse_reference_cache; [exact Hlater|].
    simpl. by rewrite decide_True.
  - eexists.
    split;
      [exact (lru_cache_miss_Raise parse_reference_cache
                set_parse_reference_cache _ obj k _ st _ Hk Hmiss Hbody)|].
    reflexivity.
Qed.

Lemma parse_reference_cached_witness :
  ∃ st1,
    _parse_reference example_env example_tsit5 empty_store
    = (Ok (text "@article{tsitouras2011runge,
  author={Tsitouras, Ch},
}"), st1)
    ∧ scans st1 = 1
    ∧ _parse_reference example_env example_tsit5
        (_parse_reference_multi example_env (Class Dopri8) st1).2
      = (Ok (text "@article{tsitouras2011runge,
  author={Tsitouras, Ch},
}"), (_parse_reference_multi example_env (Class Dopri8) st1).2).
Proof.
  pose proof (parse_reference_cached example_env example_tsit5 (KValue 0)
                (default [] (example_class_doc Tsit5)) empty_store
                eq_refl ltac:(vm_compute; reflexivity) eq_refl) as Hspec.
  assert (_reference_regex_findall (default [] (example_class_doc Tsit5))
          = [text "
    @article{tsitouras2011runge,
      author={Tsitouras, Ch},
    }
    "]) as Hscan by (vm_compute; reflexivity).
  rewrite Hscan in Hspec. destruct Hspec as (st1 & Hcall & Hscans & Hlater).
  assert (inspect.cleandoc (text "
    @article{tsitouras2011runge,
      author={Tsitouras, Ch},
    }
    ") = text "@article{tsitouras2011runge,
  author={Tsitouras, Ch},
}") as Hclean by (vm_compute; reflexivity).
  rewrite Hclean in Hcall, Hlater.
  exists st1. split_and!; [exact Hcall|exact Hscans|].
  apply Hlater; [|reflexivity]. apply later_parse_reference_multi, later_now.
Defined.

(** C3, as stated, fails: the cache is not keyed by identity.  After a call
    on one object, a call on a different object that compares equal to it
    returns the reference of the first, without a scan, although its own
    documentation text has no reference block. *)
Lemma parse_reference_cache_is_keyed_by_equality :
  ∃ ref st1,
    _parse_reference example_env example_tsit5 empty_store = (Ok ref, st1)
    ∧ example_tsit5 ≠ example_lookalike
    ∧ (_reference_regex_findall <$> doc_of example_env example_lookalike)
      = Some []
    ∧ _parse_reference example_env example_lookalike empty_store
      = (Raise ValueError, Store [] [] 1)
    ∧ _parse_reference example_env example_lookalike st1 = (Ok ref, st1).
Proof.
  eexists _, _. split_and!; [vm_compute; reflexivity|discriminate|
    vm_compute; reflexivity..].
Qed.

(* ===================================================================== *)
(** ** More on the regular expression and the reference store *)
(* ===================================================================== *)

Lemma startswith_true sub s :
  str.startswith sub s = true → s = sub ++ drop (length sub) s.
Proof.
  revert s. induction sub as [|a sub IH]; intros [|b s] H; simpl in *;
    try done.
  apply andb_true_iff in H as [Hab Hs]. apply N.eqb_eq in Hab as ->.
  f_equal. by apply IH.
Qed.

Lemma span_no_backtick_spec s :
  no_backtick (span_no_backtick s).1
  ∧ s = (span_no_backtick s).1 ++ (span_no_backtick s).2.
Proof.
  induction s as [|c s [IH1 IH2]]; simpl; [by split; [constructor|]|].
  destruct (N.eqb_spec c backtick) as [->|Hc]; simpl.
  - by split; [constructor|].
  - destruct (span_no_backtick s) as [g rest]; simpl in *.
    split; [by constructor|by f_equal].
Qed.

(** A match at the head of [s] is an occurrence of a reference block. *)
Lemma match_reference_Some s g rest :
  match_reference s = Some (g, rest) →
  no_backtick g ∧ s = reference_block g ++ rest.
Proof.
  unfold match_reference.
  destruct (str.startswith (fence ++ text "bibtex") s) eqn:Hopen; [|done].
  apply startswith_true in Hopen.
  change (length (fence ++ text "bibtex")) with 9 in Hopen.
  destruct (span_no_backtick_spec (drop 9 s)) as [Hg Hsplit].
  destruct (span_no_backtick (drop 9 s)) as [g' r]; cbn [fst snd] in *.
  destruct (str.startswith fence r) eqn:Hclose; [|done].
  apply startswith_true in Hclose. change (length fence) with 3 in Hclose.
  intros [= -> <-]. split; [done|].
  rewrite Hopen, Hsplit, Hclose at 1. unfold reference_block.
  by rewrite <- !app_assoc.
Qed.

Lemma documentation_cons_before c before refs :
  c :: documentation before refs = documentation (c :: before) refs.
Proof. done. Qed.

Lemma documentation_block g after refs :
  reference_block g ++ documentation after refs
  = documentation [] ((g, after) :: refs).
Proof.
  unfold documentation. rewrite fmap_cons. cbn [concat fst snd].
  by rewrite app_nil_l, <- app_assoc.
Qed.

(** X1.  What the regular expression finds are occurrences of reference
    blocks: every text splits into free text and blocks -- an opening fence
    with [bibtex], a body, a closing fence -- whose bodies are, in the order
    of the text, the groups that [findall] returns; and no group holds a
    backtick. *)
Theorem findall_decomposition doc :
  Forall no_backtick (_reference_regex_findall doc)
  ∧ ∃ before afters,
      length afters = length (_reference_regex_findall doc)
      ∧ doc = documentation before (zip (_reference_regex_findall doc) afters).
Proof.
  unfold _reference_regex_findall. generalize (S (length doc)) as fuel.
  intros fuel. revert doc.
  induction fuel as [|fuel IH]; intros s.
  - split; [constructor|]. exists s, []. split; [done|].
    unfold documentation. simpl. by rewrite app_nil_r.
  - cbn [findall_go].
    destruct (match_reference s) as [[g rest]|] eqn:Hmatch.
    + apply match_reference_Some in Hmatch as [Hg ->].
      destruct (IH rest) as (Hgs & before & afters & Hlen & Hrest).
      split; [by constructor|].
      exists [], (before :: afters). split; [simpl; lia|].
      rewrite Hrest at 1. apply documentation_block.
    + destruct s as [|c s].
      * split; [constructor|]. by exists [], [].
      * destruct (IH s) as (Hgs & before & afters & Hlen & Hs).
        split; [done|]. exists (c :: before), afters. split; [done|].
        rewrite Hs at 1. apply documentation_cons_before.
Qed.

(** X2.  What the two extraction functions reject.  An object that cannot
    be hashed makes both raise [TypeError] before anything is scanned; a
    hashable object whose [__doc__] is [None] makes both raise [TypeError]
    when the cache has no entry for it.  The store is unchanged either way:
    an error is never cached. *)
Theorem extraction_type_errors env obj st :
  (cache_key obj = None →
   _parse_reference env obj st = (Raise (TypeError unhashable_type), st)
   ∧ _parse_reference_multi env obj st
     = (Raise (TypeError unhashable_type), st))
  ∧ (∀ k, cache_key obj = Some k → doc_of env obj = None →
       (alist_lookup k (parse_reference_cache st) = None →
        _parse_reference env obj st
        = (Raise (TypeError expected_string_or_bytes), st))
       ∧ (alist_lookup k (parse_reference_multi_cache st) = None →
          _parse_reference_multi env obj st
          = (Raise (TypeError expected_string_or_bytes), st))).
Proof.
  split.
  - intros Hk. unfold _parse_reference, _parse_reference_multi, lru_cache.
    by rewrite Hk.
  - intros k Hk Hdoc.
    unfold _parse_reference, _parse_reference_multi, lru_cache,
      _parse_reference_body, _parse_reference_multi_body.
    rewrite Hk, Hdoc. split; by intros ->.
Qed.

Lemma extraction_type_errors_witness :
  _parse_reference example_env (Instance 6 Tsit5 Unhashable []) empty_store
  = (Raise (TypeError unhashable_type), empty_store)
  ∧ _parse_reference_multi example_env (Class "Euler") empty_store
    = (Raise (TypeError expected_string_or_bytes), empty_store).
Proof.
  split.
  - apply (extraction_type_errors example_env
             (Instance 6 Tsit5 Unhashable []) empty_store).
    reflexivity.
  - apply (proj2 (extraction_type_errors example_env (Class "Euler")
                    empty_store) (KClass "Euler")); reflexivity.
Defined.

(** X3.  The two extraction functions agree.  On a hashable object with a
    documentation text, and with empty entries in both caches, single
    extraction returns a reference exactly when multi extraction returns a
    list of one element, and then that element is the reference. *)
Theorem single_and_multi_extraction_agree env obj k doc st st' ref :
  cache_key obj = Some k →
  doc_of env obj = Some doc →
  alist_lookup k (parse_reference_cache st) = None →
  alist_lookup k (parse_reference_multi_cache st') = None →
  (_parse_reference env obj st).1 = Ok ref
  ↔ (_parse_reference_multi env obj st').1 = Ok [ref].
Proof.
  intros Hk Hdoc Hmiss Hmiss'.
  pose proof (parse_reference_body_spec env obj doc st Hdoc) as Hbody.
  pose proof (parse_reference_multi_body_Ok env obj doc st' Hdoc) as Hmulti.
  unfold _parse_reference_multi.
  rewrite (lru_cache_miss_Ok parse_reference_multi_cache
             set_parse_reference_multi_cache _ obj k _ st' _ Hk Hmiss' Hmulti).
  unfold _parse_reference, lru_cache. rewrite Hk, Hmiss, Hbody. simpl.
  destruct (_reference_regex_findall doc) as [|block [|block' blocks]]; simpl;
    naive_solver.
Qed.

Lemma single_and_multi_extraction_agree_witness :
  (_parse_reference_multi example_env example_tsit5 empty_store).1
  = Ok [text "@article{tsitouras2011runge,
  author={Tsitouras, Ch},
}"].
Proof.
  apply (single_and_multi_extraction_agree example_env example_tsit5
           (KValue 0) (default [] (example_class_doc Tsit5))
           empty_store empty_store);
    [reflexivity|vm_compute; reflexivity|reflexivity|reflexivity|].
  vm_compute. reflexivity.
Defined.

(* ===================================================================== *)
(** ** More on the rules *)
(* ===================================================================== *)

(** Replaces the texts that a rule returns by variables. *)
Ltac forget_texts :=
  repeat match goal with
         | |- context [Some ?t] =>
             lazymatch t with
             | text _ => idtac
             | _ ++ _ => idtac
             end;
             let x := fresh "cite" in generalize t; intros x
         end.

(** X4.  The three rules on the kind of solver never raise and never touch
    the store.  With SDE terms none of them returns a text.  The explicit
    and the implicit rule never both return a text; for terms that are not
    an SDE and an implicit solver, it is the implicit rule that does. *)
Theorem solver_kind_rules_exclusive env locals st :
  ∃ explicit implicit symplectic,
    rule_body (_explicit_solver env) locals st = (Ok explicit, st)
    ∧ rule_body (_implicit_solver env) locals st = (Ok implicit, st)
    ∧ rule_body (_symplectic_solver env) locals st = (Ok symplectic, st)
    ∧ (explicit = None ∨ implicit = None)
    ∧ (is_sde env (locals !!! "terms") = true →
       explicit = None ∧ implicit = None ∧ symplectic = None)
    ∧ (is_sde env (locals !!! "terms") = false →
       (isinstance env (locals !!! "solver") AbstractImplicitSolver = true →
        explicit = None ∧ is_Some implicit)
       ∧ (type_is (locals !!! "solver") SemiImplicitEuler = true →
          is_Some symplectic)).
Proof.
  unfold _explicit_solver, _implicit_solver, _symplectic_solver.
  cbn [rule_body existsb]. forget_texts.
  destruct (is_sde env (locals !!! "terms"));
    destruct (isinstance env (locals !!! "solver") AbstractImplicitSolver);
    destruct (type_is (locals !!! "solver") SemiImplicitEuler);
    cbn [negb andb orb];
    rewrite ?andb_false_r;
    try destruct (negb _);
    eexists _, _, _; (split; [reflexivity|]); (split; [reflexivity|]);
    (split; [reflexivity|]); naive_solver.
Qed.

Lemma solver_kind_rules_exclusive_witness :
  ∃ symplectic,
    rule_body (_explicit_solver example_env)
      {["solver" := VObj example_tsit5; "terms" := VNone]} empty_store
    ≠ (Ok None, empty_store)
    ∧ rule_body (_implicit_solver example_env)
        {["solver" := VObj example_tsit5; "terms" := VNone]} empty_store
      = (Ok None, empty_store)
    ∧ rule_body (_symplectic_solver example_env)
        {["solver" := VObj (Instance 7 SemiImplicitEuler (HashValue 1) []);
          "terms" := VNone]} empty_store
      = (Ok (Some symplectic), empty_store).
Proof.
  destruct (solver_kind_rules_exclusive example_env
              {["solver" := VObj (Instance 7 SemiImplicitEuler (HashValue 1) []);
                "terms" := VNone]} empty_store)
    as (e & i & s & _ & _ & Hs & _ & _ & Hnot).
  destruct Hnot as [_ [symplectic ->]]; [reflexivity|reflexivity|].
  exists symplectic. split; [|split; [|exact Hs]].
  - vm_compute. discriminate.
  - vm_compute. reflexivity.
Defined.

(** X5.  An adjoint is cited as a discrete adjoint or as a continuous
    (backsolve) adjoint, never as both: when [_discrete_adjoint] returns a
    text, [_backsolve_adjoint] and [_backsolve_rms_norm] return [None], and
    the other way round.  The tests are on the exact type. *)
Theorem adjoint_rules_exclusive env locals st :
  rule_body _discrete_adjoint locals st = (Ok None, st)
  ∨ (rule_body (_backsolve_adjoint env) locals st = (Ok None, st)
     ∧ rule_body (_backsolve_rms_norm env) locals st = (Ok None, st)).
Proof.
  unfold _discrete_adjoint, _backsolve_adjoint, _backsolve_rms_norm.
  cbn [rule_body].
  destruct (type_is (locals !!! "adjoint") BacksolveAdjoint) eqn:Hback.
  - left. apply type_is_name in Hback.
    assert (type_in (locals !!! "adjoint")
              [RecursiveCheckpointAdjoint; DirectAdjoint] = false) as ->
      by (unfold type_in, type_is; rewrite Hback; reflexivity).
    reflexivity.
  - right. done.
Qed.

(** Replaces the literals of the goal by variables. *)
Ltac forget_literals :=
  repeat match goal with
         | |- context [text ?s] =>
             let x := fresh "lit" in generalize (text s); intros x
         end.

(** X6.  Every text that [_backsolve_adjoint] returns is for an adjoint
    whose type is [BacksolveAdjoint] itself, and ends with the reference to
    the thesis; outside the SDE case the rule reads no reference and leaves
    the store alone. *)
Theorem backsolve_adjoint_cites_thesis env locals st cite st' :
  rule_body (_backsolve_adjoint env) locals st = (Ok (Some cite), st') →
  type_is (locals !!! "adjoint") BacksolveAdjoint = true
  ∧ (∃ comment, cite = comment ++ _thesis_cite)
  ∧ (is_sde env (locals !!! "terms") = false → st' = st).
Proof.
  unfold _backsolve_adjoint. cbn [rule_body]. forget_literals.
  destruct (type_is (locals !!! "adjoint") BacksolveAdjoint); [|done].
  destruct (is_sde env (locals !!! "terms")).
  - unfold mbind, M_bind.
    destruct (_parse_reference_multi env (Class VirtualBrownianTree) st)
      as [[refs|e] st1]; [|done].
    destruct refs as [|vbt_ref [|other [|]]]; try done.
    simpl. intros [= <- <-]. split; [done|]. split; [|done].
    exists (lit ++ vbt_ref ++ lit0). by rewrite <- !app_assoc.
  - destruct (is_cde env (locals !!! "terms")); intros [= <- <-];
      (split; [done|]); (split; [|done]); eauto.
Qed.

Lemma backsolve_adjoint_cites_thesis_witness :
  ∃ cite comment,
    rule_body (_backsolve_adjoint example_env)
      {["adjoint" := example_backsolve; "terms" := VNone]} empty_store
    = (Ok (Some cite), empty_store)
    ∧ cite = comment ++ _thesis_cite.
Proof.
  eexists.
  edestruct (backsolve_adjoint_cites_thesis example_env
               {["adjoint" := example_backsolve; "terms" := VNone]}
               empty_store) as (_ & [comment Hcite] & _);
    [vm_compute; reflexivity|].
  exists comment. split; [vm_compute; reflexivity|exact Hcite].
Defined.

Lemma truthy_eq_zero v : v ≠ VTracer → truthy (eq_zero v) = Ok (is_zero v).
Proof. by destruct v. Qed.

Lemma is_tracer_eq_zero v : v ≠ VTracer → is_tracer (eq_zero v) = false.
Proof. by destruct v. Qed.

(** Two texts of different lengths are different. *)
Ltac differ_in_length :=
  let H := fresh in
  intros H; apply (f_equal length) in H; apply Nat.eqb_eq in H;
  vm_compute in H; discriminate H.

(** X7.  With SDE terms [_pid_controller] returns one and the same text
    for every [PIDController]: it does not read the coefficients, so that
    traced or missing coefficients raise nothing. *)
Theorem pid_controller_sde :
  ∃ cite,
    str.contains (text "@article{burrage2004adaptive,") cite = true
    ∧ ∀ env locals st,
        type_is (locals !!! "stepsize_controller") PIDController = true →
        is_sde env (locals !!! "terms") = true →
        rule_body (_pid_controller env) locals st = (Ok (Some cite), st).
Proof.
  eexists. split; cycle 1.
  - intros env locals st Htype Hsde.
    unfold _pid_controller. cbn [rule_body]. rewrite Htype, Hsde.
    reflexivity.
  - vm_compute. reflexivity.
Qed.

Lemma pid_controller_sde_witness :
  ∃ cite,
    rule_body (_pid_controller example_sde_env)
      {["stepsize_controller" := example_pid VTracer VTracer;
        "terms" := VNone]} empty_store
    = (Ok (Some cite), empty_store).
Proof.
  destruct pid_controller_sde as (cite & _ & Hcite).
  exists cite.
  apply (Hcite example_sde_env
           {["stepsize_controller" := example_pid VTracer VTracer;
             "terms" := VNone]} empty_store); reflexivity.
Defined.

(** X8.  Outside the SDE case, for a [PIDController] whose coefficients
    are not traced, [_pid_controller] returns one of three different texts:
    that of the I controller when [dcoeff == 0] and [pcoeff == 0], that of
    the PI controller when [dcoeff == 0] only, that of the PID controller
    when [dcoeff] is not zero, whatever [pcoeff] is. *)
Theorem pid_controller_concrete :
  ∃ i_text pi_text pid_text,
    (i_text ≠ pi_text ∧ pi_text ≠ pid_text ∧ i_text ≠ pid_text)
    ∧ ∀ env locals st pcoeff dcoeff,
        type_is (locals !!! "stepsize_controller") PIDController = true →
        is_sde env (locals !!! "terms") = false →
        getattr (locals !!! "stepsize_controller") "pcoeff" = Ok pcoeff →
        getattr (locals !!! "stepsize_controller") "dcoeff" = Ok dcoeff →
        pcoeff ≠ VTracer →
        dcoeff ≠ VTracer →
        rule_body (_pid_controller env) locals st
        = (Ok (Some (if is_zero dcoeff
                     then if is_zero pcoeff then i_text else pi_text
                     else pid_text)), st).
Proof.
  eexists _, _, _. split; cycle 1.
  - intros env locals st pcoeff dcoeff Htype Hsde Hp Hd Hpc Hdc.
    unfold _pid_controller. cbn [rule_body].
    rewrite Htype, Hsde, Hp, Hd. cbv iota.
    etrans; [apply bind_lift_Ok|]. etrans; [apply bind_lift_Ok|].
    etrans; [apply bind_Ok, no_tracer_concrete, is_tracer_eq_zero, Hpc|].
    etrans; [apply bind_Ok, no_tracer_concrete, is_tracer_eq_zero, Hdc|].
    rewrite (truthy_eq_zero _ Hdc). etrans; [apply bind_lift_Ok|].
    destruct (is_zero dcoeff); [|reflexivity].
    rewrite (truthy_eq_zero _ Hpc). etrans; [apply bind_lift_Ok|].
    destruct (is_zero pcoeff); reflexivity.
  - split_and!; differ_in_length.
Qed.

Lemma pid_controller_concrete_witness :
  ∃ i_text pid_text,
    i_text ≠ pid_text
    ∧ rule_body (_pid_controller example_env)
        {["stepsize_controller" := example_pid (VInt 0) (VInt 0);
          "terms" := VNone]} empty_store
      = (Ok (Some i_text), empty_store)
    ∧ rule_body (_pid_controller example_env)
        {["stepsize_controller" := example_pid (VInt 0) (VFloat 1 (-2));
          "terms" := VNone]} empty_store
      = (Ok (Some pid_text), empty_store).
Proof.
  destruct pid_controller_concrete as (i & pi & pid & (_ & _ & Hne) & Hcite).
  exists i, pid. split; [exact Hne|]. split.
  - apply (Hcite example_env
             {["stepsize_controller" := example_pid (VInt 0) (VInt 0);
               "terms" := VNone]} empty_store (VInt 0) (VInt 0));
      (reflexivity || discriminate).
  - apply (Hcite example_env
             {["stepsize_controller" := example_pid (VInt 0) (VFloat 1 (-2));
               "terms" := VNone]} empty_store (VInt 0) (VFloat 1 (-2)));
      (reflexivity || discriminate).
Defined.


Lemma type_in_name v cls classes :
  type_name v = cls → type_in v classes = existsb (String.eqb cls) classes.
Proof. intros <-. reflexivity. Qed.

Lemma assert_true {B} (k : unit → M B) st :
  (assert true ≫= k) st = k () st.
Proof. reflexivity. Qed.

Lemma assert_false {B} (k : unit → M B) st :
  (assert false ≫= k) st = (Raise AssertionError, st).
Proof. reflexivity. Qed.

(** X10.  Without a [saveat] ([None], which is also its default) the rule
    [_solvers] cites for [Dopri8] the first reference alone; for [Dopri5] it
    cites both references whatever [saveat] is. *)
Theorem dopri_without_saveat env locals ref1 ref2 st st1 :
  (type_is (locals !!! "solver") Dopri8 = true →
   locals !!! "saveat" = VNone →
   _parse_reference_multi env (Class Dopri8) st = (Ok [ref1; ref2], st1) →
   str.contains (text "Dormand") ref1 = true →
   str.contains (text "Prince") ref1 = true →
   str.contains (text "Bogacki") ref2 = true →
   str.contains (text "Shampine") ref2 = true →
   rule_body (_solvers env) locals st
   = (Ok (Some (text "
% Dormand--Prince 8(7) was introduced in:
" ++ ref1)), st1))
  ∧ (type_is (locals !!! "solver") Dopri5 = true →
     _parse_reference_multi env (Class Dopri5) st = (Ok [ref1; ref2], st1) →
     str.contains (text "Dormand") ref1 = true →
     str.contains (text "Prince") ref1 = true →
     str.contains (text "Shampine") ref2 = true →
     rule_body (_solvers env) locals st
     = (Ok (Some (text "
% Dormand--Prince 5(4) was introduced in:
" ++ ref1 ++ text "
% The specific implementation used here is the improved version (different Butcher
% tableau) introduced in:
" ++ ref2)), st1)).
Proof.
  split.
  - intros Htype Hsaveat Hrefs Hd Hp Hb Hs.
    apply type_is_name in Htype.
    unfold _solvers. cbn [rule_body].
    rewrite (type_in_name _ _ _ Htype). unfold type_is. rewrite Htype, Hsaveat.
    change (existsb _ _) with false. change (Dopri8 =? Dopri5)%string with false.
    change (Dopri8 =? Dopri8)%string with true. cbv iota.
    rewrite (bind_Ok _ _ _ _ _ Hrefs).
    change (unpack2 [ref1; ref2]) with (Ok (ref1, ref2)).
    rewrite bind_lift_Ok, Hd, Hp, Hb, Hs, !assert_true.
    reflexivity.
  - intros Htype Hrefs Hd Hp Hs.
    apply type_is_name in Htype.
    unfold _solvers. cbn [rule_body].
    rewrite (type_in_name _ _ _ Htype). unfold type_is. rewrite Htype.
    change (existsb _ _) with false. change (Dopri5 =? Dopri5)%string with true.
    cbv iota.
    rewrite (bind_Ok _ _ _ _ _ Hrefs).
    change (unpack2 [ref1; ref2]) with (Ok (ref1, ref2)).
    rewrite bind_lift_Ok, Hd, Hp, Hs, !assert_true.
    reflexivity.
Qed.

Lemma dopri_without_saveat_witness :
  ∃ ref1 st1,
    rule_body (_solvers example_env)
      {["solver" := example_dopri8; "saveat" := VNone]} empty_store
    = (Ok (Some (text "
% Dormand--Prince 8(7) was introduced in:
" ++ ref1)), st1).
Proof.
  eexists _, _.
  eapply (proj1 (dopri_without_saveat example_env
                   {["solver" := example_dopri8; "saveat" := VNone]}
                   _ _ empty_store _));
    vm_compute; reflexivity.
Defined.

(** X11.  The [Dopri5] and [Dopri8] branches of [_solvers] check what they
    read: when the class does not carry exactly two references the
    unpacking raises [ValueError], and when the first reference does not
    name Dormand the assertion raises [AssertionError]. *)
Theorem dopri_references_checked env locals cls refs st st1 :
  cls = Dopri5 ∨ cls = Dopri8 →
  type_is (locals !!! "solver") cls = true →
  _parse_reference_multi env (Class cls) st = (Ok refs, st1) →
  (length refs ≠ 2 →
   rule_body (_solvers env) locals st = (Raise ValueError, st1))
  ∧ (∀ ref1 ref2,
       refs = [ref1; ref2] →
       str.contains (text "Dormand") ref1 = false →
       rule_body (_solvers env) locals st = (Raise AssertionError, st1)).
Proof.
  intros Hcls Htype Hrefs. apply type_is_name in Htype.
  split.
  - intros Hlen.
    assert (unpack2 refs = Raise ValueError) as Hunpack
      by (by destruct refs as [|? [|? [|]]]).
    unfold _solvers. cbn [rule_body].
    rewrite (type_in_name _ _ _ Htype). unfold type_is. rewrite Htype.
    destruct Hcls as [-> | ->].
    + change (existsb _ _) with false.
      change (Dopri5 =? Dopri5)%string with true. cbv iota.
      rewrite (bind_Ok _ _ _ _ _ Hrefs), Hunpack. reflexivity.
    + change (existsb _ _) with false.
      change (Dopri8 =? Dopri5)%string with false.
      change (Dopri8 =? Dopri8)%string with true. cbv iota.
      rewrite (bind_Ok _ _ _ _ _ Hrefs), Hunpack. reflexivity.
  - intros ref1 ref2 -> Hd.
    unfold _solvers. cbn [rule_body].
    rewrite (type_in_name _ _ _ Htype). unfold type_is. rewrite Htype.
    destruct Hcls as [-> | ->].
    + change (existsb _ _) with false.
      change (Dopri5 =? Dopri5)%string with true. cbv iota.
      rewrite (bind_Ok _ _ _ _ _ Hrefs).
      change (unpack2 [ref1; ref2]) with (Ok (ref1, ref2)).
      rewrite bind_lift_Ok, Hd. apply assert_false.
    + change (existsb _ _) with false.
      change (Dopri8 =? Dopri5)%string with false.
      change (Dopri8 =? Dopri8)%string with true. cbv iota.
      rewrite (bind_Ok _ _ _ _ _ Hrefs).
      change (unpack2 [ref1; ref2]) with (Ok (ref1, ref2)).
      rewrite bind_lift_Ok, Hd. apply assert_false.
Qed.

Lemma dopri_references_checked_witness :
  rule_body (_solvers example_bare_env)
    {["solver" := VObj (Instance 9 Dopri5 (HashValue 3) [])]} empty_store
  = (Raise ValueError, Store [] [(KClass Dopri5, [])] 1).
Proof.
  destruct (dopri_references_checked example_bare_env
              {["solver" := VObj (Instance 9 Dopri5 (HashValue 3) [])]}
              Dopri5 [] empty_store (Store [] [(KClass Dopri5, [])] 1))
    as [Hunpack _]; [left; reflexivity|vm_compute; reflexivity..|].
  apply Hunpack. discriminate.
Defined.

(* ===================================================================== *)
(** ** More on the dispatcher *)
(* ===================================================================== *)

Lemma required_names_param_names ps x :
  x ∈ required_names ps → x ∈ param_names ps.
Proof.
  unfold required_names, param_names. rewrite elem_of_list_to_set.
  rewrite !list_elem_of_fmap. intros (p & -> & Hp).
  apply list_elem_of_filter in Hp as [_ Hp]. eauto.
Qed.

(** What the loop decides for a rule without variadic parameter depends on
    the entries of the map that the parameters of the rule name. *)
Lemma examine_agree kw1 kw2 r :
  has_var_keyword (rule_parameters r) = false →
  (∀ x, x ∈ param_names (rule_parameters r) → kw1 !! x = kw2 !! x) →
  examine kw1 r = examine kw2 r.
Proof.
  intros Hvar Hagree. unfold examine.
  destruct (scan_parameters (rule_parameters r) ∅ false)
    as [[needed has_var]|e] eqn:Hscan; [|done].
  apply scan_parameters_Ok in Hscan as (_ & -> & ->).
  rewrite Hvar. simpl.
  assert (restrict_kwargs (rule_parameters r) kw1
          = restrict_kwargs (rule_parameters r) kw2) as ->.
  { apply map_eq. intros x. rewrite !restrict_kwargs_lookup.
    destruct (decide _); auto. }
  assert (required_names (rule_parameters r) ∪ ∅ ⊆ dom kw1
          ↔ required_names (rule_parameters r) ∪ ∅ ⊆ dom kw2) as Hiff.
  { rewrite !union_empty_r_L. rewrite !elem_of_subseteq.
    split; intros H x Hx; specialize (H x Hx);
      apply elem_of_dom; apply elem_of_dom in H;
      apply required_names_param_names in Hx;
      [rewrite <- Hagree by done|rewrite Hagree by done]; done. }
  destruct (decide (required_names (rule_parameters r) ∪ ∅ ⊆ dom kw1)).
  - by rewrite !bool_decide_eq_true_2 by tauto.
  - by rewrite !bool_decide_eq_false_2 by tauto.
Qed.

Lemma dispatch_agree kw1 kw2 rules : ∀ cites trace st,
  Forall (λ r, has_var_keyword (rule_parameters r) = false) rules →
  (∀ r x, r ∈ rules → x ∈ param_names (rule_parameters r) →
          kw1 !! x = kw2 !! x) →
  dispatch kw1 rules cites trace st = dispatch kw2 rules cites trace st.
Proof.
  induction rules as [|r rules IH]; intros cites trace st Hvar Hagree; [done|].
  apply Forall_cons in Hvar as [Hr Hvar]. cbn [dispatch].
  rewrite (examine_agree kw1 kw2 r Hr)
    by (intros x Hx; apply (Hagree r); [left|done]).
  assert (∀ cites trace st,
            dispatch kw1 rules cites trace st
            = dispatch kw2 rules cites trace st) as Hrest.
  { intros. apply IH; [done|]. intros r' x Hr'. apply Hagree. by right. }
  destruct (examine kw2 r) as [[|rulekwargs]|e]; [apply Hrest| |done].
  destruct (call r rulekwargs st) as [[cite|e] st1]; [apply Hrest|done].
Qed.

(** The names that the registered rules declare. *)
Lemma citation_rules_names env r x :
  r ∈ citation_rules env → x ∈ param_names (rule_parameters r) →
  x ∈ ["adjoint"; "terms"; "solver"; "saveat"; "dt0"; "stepsize_controller"].
Proof.
  intros Hr Hx. unfold citation_rules in Hr.
  repeat (apply elem_of_cons in Hr as [->|Hr]);
    [..|by apply elem_of_nil in Hr];
    apply list_elem_of_fmap in Hx as (p & -> & Hp);
    repeat (apply elem_of_cons in Hp as [->|Hp]);
    try (by apply elem_of_nil in Hp);
    rewrite !elem_of_cons; cbn [inspect.name positional_or_keyword]; tauto.
Qed.

Lemma citation_rules_no_var_keyword env :
  Forall (λ r, has_var_keyword (rule_parameters r) = false)
    (citation_rules env).
Proof. unfold citation_rules. repeat constructor. Qed.

(** X12.  What [citation] prints, or raises, depends only on six entries
    of the canonical map: [adjoint], [terms], [solver], [saveat], [dt0] and
    [stepsize_controller].  Two calls that bind and whose maps agree on
    these six names end alike, with the same calls of the same rules. *)
Theorem citation_reads_six_arguments env sig args1 kwargs1 args2 kwargs2
    bound1 bound2 st :
  inspect.bind_partial sig args1 kwargs1 = Ok bound1 →
  inspect.bind_partial sig args2 kwargs2 = Ok bound2 →
  (∀ x, x ∈ ["adjoint"; "terms"; "solver"; "saveat"; "dt0";
             "stepsize_controller"] →
        canonical_kwargs sig bound1 !! x = canonical_kwargs sig bound2 !! x) →
  citation sig (citation_rules env) args1 kwargs1 st
  = citation sig (citation_rules env) args2 kwargs2 st.
Proof.
  intros Hb1 Hb2 Hagree. unfold citation. rewrite Hb1, Hb2.
  rewrite (dispatch_agree (canonical_kwargs sig bound1)
             (canonical_kwargs sig bound2)); [done|..].
  - apply citation_rules_no_var_keyword.
  - intros r x Hr Hx. apply Hagree. by eapply citation_rules_names.
Qed.

Lemma citation_reads_six_arguments_witness :
  citation example_signature (citation_rules example_env)
    [] [("dt0", VNone)] empty_store
  = citation example_signature (citation_rules example_env)
      [] [("t0", VInt 0); ("dt0", VNone); ("max_steps", VInt 16)] empty_store.
Proof.
  apply (citation_reads_six_arguments example_env example_signature
           [] [("dt0", VNone)]
           [] [("t0", VInt 0); ("dt0", VNone); ("max_steps", VInt 16)]
           {["dt0" := VNone]}
           {["t0" := VInt 0; "dt0" := VNone; "max_steps" := VInt 16]});
    [vm_compute; reflexivity..|].
  intros x Hx. repeat (apply elem_of_cons in Hx as [->|Hx]);
    [vm_compute; reflexivity..|by apply elem_of_nil in Hx].
Defined.

Lemma citation_rules_asserted env :
  Forall (λ r, asserted (rule_parameters r)
               ∧ NoDup (param_names (rule_parameters r)))
    (citation_rules env).
Proof.
  unfold citation_rules.
  repeat (apply Forall_cons; split;
          [split; apply (bool_decide_unpack _); vm_compute; exact I|]).
  constructor.
Qed.

(** A rule one of whose required names is missing is skipped. *)
Lemma examine_missing kwargs r x :
  asserted (rule_parameters r) →
  x ∈ required_names (rule_parameters r) →
  kwargs !! x = None →
  examine kwargs r = Ok Skip.
Proof.
  intros Has Hx Hnone. rewrite examine_asserted by done.
  rewrite decide_False; [done|].
  intros Hadm. apply Hadm in Hx. by apply not_elem_of_dom in Hnone.
Qed.

Ltac skip_for_want_of x Hnone :=
  apply (examine_missing _ _ x);
  [apply (bool_decide_unpack _); vm_compute; exact I
  |apply (bool_decide_unpack _); vm_compute; exact I
  |apply Hnone; rewrite !elem_of_cons; tauto].

(** X13.  A call that gives none of [adjoint], [terms], [solver], [dt0]
    and [stepsize_controller] prints the two banners around the block of
    [_diffrax] and nothing else: every other rule requires one of these
    names, and is skipped without being called. *)
Theorem citation_without_rule_arguments env sig args kwargs bound st :
  inspect.bind_partial sig args kwargs = Ok bound →
  (∀ x, x ∈ ["adjoint"; "terms"; "solver"; "dt0"; "stepsize_controller"] →
        canonical_kwargs sig bound !! x = None) →
  citation sig (citation_rules env) args kwargs st
  = (Printed (str.join blank_line
                [_start; str.strip (_diffrax_text env); _end]),
     [Invocation (_diffrax env) ∅ (Ok (Some (_diffrax_text env)))], st).
Proof.
  intros Hbind Hnone. unfold citation. rewrite Hbind.
  set (kw := canonical_kwargs sig bound) in *.
  assert (dispatch kw (citation_rules env) [_start] [] st
          = (Ok ([_start] ++ [str.strip (_diffrax_text env)]),
             [] ++ [Invocation (_diffrax env) ∅
                      (Ok (Some (_diffrax_text env)))], st)) as ->; [|done].
  unfold citation_rules.
  erewrite dispatch_cons_call; [|apply examine_diffrax|apply call_diffrax].
  repeat (rewrite dispatch_cons_skip;
          [|first [solve [skip_for_want_of "adjoint" Hnone]
                  |solve [skip_for_want_of "terms" Hnone]
                  |solve [skip_for_want_of "solver" Hnone]
                  |solve [skip_for_want_of "dt0" Hnone]
                  |solve [skip_for_want_of "stepsize_controller" Hnone]]]).
  reflexivity.
Qed.

Lemma citation_without_rule_arguments_witness :
  citation example_signature (citation_rules example_env)
    [] [("t0", VInt 0); ("saveat", example_saveat)] empty_store
  = (Printed (str.join blank_line
                [_start; str.strip (_diffrax_text example_env); _end]),
     [Invocation (_diffrax example_env) ∅
        (Ok (Some (_diffrax_text example_env)))], empty_store).
Proof.
  apply (citation_without_rule_arguments example_env example_signature
           [] [("t0", VInt 0); ("saveat", example_saveat)]
           {["t0" := VInt 0; "saveat" := example_saveat]});
    [vm_compute; reflexivity|].
  intros x Hx. repeat (apply elem_of_cons in Hx as [->|Hx]);
    [vm_compute; reflexivity..|by apply elem_of_nil in Hx].
Defined.

(** When the loop raises, it is a call of a rule that raised: the decision
    on a rule whose parameters pass the assertion never raises, and the call
    of an admitted rule always binds. *)
Lemma dispatch_raises_in_rule kwargs rules : ∀ cites trace st e trace' st',
  Forall (λ r, asserted (rule_parameters r)
               ∧ NoDup (param_names (rule_parameters r))) rules →
  dispatch kwargs rules cites trace st = (Raise e, trace', st') →
  ∃ tr r rulekwargs locals st1,
    trace' = trace ++ tr ++ [Invocation r rulekwargs (Raise e)]
    ∧ r ∈ rules
    ∧ Forall (λ i, ∃ cite, inv_result i = Ok cite) tr
    ∧ call_locals (rule_parameters r) rulekwargs = Ok locals
    ∧ rule_body r locals st1 = (Raise e, st').
Proof.
  induction rules as [|r rules IH]; intros cites trace st e trace' st' Hall Hd;
    [done|].
  apply Forall_cons in Hall as [[Has Hnd] Hall]. cbn [dispatch] in Hd.
  rewrite examine_asserted in Hd by done.
  destruct (decide (admitted kwargs r)) as [Hadm|Hnot].
  - destruct (call_locals_admitted kwargs r Has Hnd Hadm)
      as (locals & Hlocals & _).
    set (rulekwargs := if has_var_keyword (rule_parameters r) then kwargs
                       else restriction (rule_parameters r) kwargs) in *.
    assert (call r rulekwargs = rule_body r locals) as Hcall
      by (unfold call; by rewrite Hlocals).
    destruct (call r rulekwargs st) as [[cite|e'] st1] eqn:Hres.
    + apply IH in Hd
        as (tr & r' & rk' & locals' & st2 & -> & Hr' & Htr & Hl' & Hbody);
        [|done].
      exists (Invocation r rulekwargs (Ok cite) :: tr), r', rk', locals', st2.
      split; [by rewrite <- !app_assoc|]. split; [by right|].
      split; [constructor; eauto|done].
    + injection Hd as <- <- <-.
      exists [], r, rulekwargs, locals, st.
      split; [done|]. split; [by left|]. split; [constructor|].
      split; [done|]. by rewrite <- Hcall.
  - apply IH in Hd
      as (tr & r' & rk' & locals' & st2 & -> & Hr' & Htr & Hl' & Hbody);
      [|done].
    exists tr, r', rk', locals', st2. split; [done|]. split; [by right|done].
Qed.

(** X14.  A call of [citation] raises for one of two reasons only: the
    binding of the arguments raised, and then no rule was called; or the
    body of a registered rule raised, after the calls before it had
    returned, and that exception is the one that leaves [citation].  The
    dispatcher itself raises nothing: its assertion holds for every
    registered rule, and every call it makes of a rule binds. *)
Theorem citation_raises_in_binding_or_rule env sig args kwargs st e trace st' :
  citation sig (citation_rules env) args kwargs st = (Raised e, trace, st') →
  (inspect.bind_partial sig args kwargs = Raise e ∧ trace = [] ∧ st' = st)
  ∨ (∃ tr r rulekwargs locals st1,
       trace = tr ++ [Invocation r rulekwargs (Raise e)]
       ∧ r ∈ citation_rules env
       ∧ Forall (λ i, ∃ cite, inv_result i = Ok cite) tr
       ∧ call_locals (rule_parameters r) rulekwargs = Ok locals
       ∧ rule_body r locals st1 = (Raise e, st')).
Proof.
  unfold citation.
  destruct (inspect.bind_partial sig args kwargs) as [bound|e0].
  - destruct (dispatch _ _ _ _ _) as [[[cites|e0] trace0] st0] eqn:Hd; [done|].
    intros [= -> -> ->]. right.
    apply dispatch_raises_in_rule in Hd; [|apply citation_rules_asserted].
    destruct Hd as (tr & r & rk & locals & st1 & -> & H). eauto 10.
  - intros [= -> <- <-]. by left.
Qed.

Lemma citation_raises_in_binding_or_rule_witness :
  ∃ locals st1,
    citation example_signature (citation_rules example_sde_env)
      [] [("adjoint", example_backsolve)] empty_store
    = (Raised (TypeError expected_string_or_bytes),
       [Invocation (_diffrax example_sde_env) ∅
          (Ok (Some (_diffrax_text example_sde_env)));
        Invocation (_backsolve_adjoint example_sde_env)
          {["adjoint" := example_backsolve]}
          (Raise (TypeError expected_string_or_bytes))], empty_store)
    ∧ rule_body (_backsolve_adjoint example_sde_env) locals st1
      = (Raise (TypeError expected_string_or_bytes), empty_store).
Proof.
  assert (citation example_signature (citation_rules example_sde_env)
            [] [("adjoint", example_backsolve)] empty_store
          = (Raised (TypeError expected_string_or_bytes),
             [Invocation (_diffrax example_sde_env) ∅
                (Ok (Some (_diffrax_text example_sde_env)));
              Invocation (_backsolve_adjoint example_sde_env)
                {["adjoint" := example_backsolve]}
                (Raise (TypeError expected_string_or_bytes))], empty_store))
    as Hcit.
  { unfold citation.
    assert (inspect.bind_partial example_signature []
              [("adjoint", example_backsolve)]
            = Ok {["adjoint" := example_backsolve]}) as ->
      by (vm_compute; reflexivity).
    assert (canonical_kwargs example_signature
              {["adjoint" := example_backsolve]}
            = {["adjoint" := example_backsolve]}) as ->
      by (vm_compute; reflexivity).
    unfold citation_rules.
    erewrite dispatch_cons_call; [|apply examine_diffrax|apply call_diffrax].
    erewrite dispatch_cons_raise; [reflexivity|..]; vm_compute; reflexivity. }
  destruct (citation_raises_in_binding_or_rule _ _ _ _ _ _ _ _ Hcit)
    as [(Hbind & _)|(tr & r & rk & locals & st1 & Htrace & _ & _ & _ & Hbody)].
  - exfalso. vm_compute in Hbind. discriminate Hbind.
  - exists locals, st1. split; [exact Hcit|].
    destruct tr as [|i1 [|i2 [|i3 tr]]]; simpl in Htrace;
      try (apply (f_equal length) in Htrace; simpl in Htrace;
           rewrite ?length_app in Htrace; simpl in Htrace; lia).
    injection Htrace as _ Hr. by rewrite Hr.
Defined.

(* ===================================================================== *)
(** ** More on the binding: the canonical map *)
(* ===================================================================== *)

Section canonical.

Import inspect.

Lemma list_to_map_alist_lookup (l : alist) x :
  (list_to_map l : gmap string value) !! x = alist_lookup x l.
Proof.
  induction l as [|[k v] l IH]; simpl; [done|].
  destruct (decide (x = k)) as [->|Hne].
  - by rewrite lookup_insert_eq.
  - by rewrite lookup_insert_ne.
Qed.

Lemma alist_lookup_None x (l : alist) :
  alist_lookup x l = None ↔ x ∉ l.*1.
Proof.
  induction l as [|[k v] l IH]; simpl.
  - split; [intros _; apply not_elem_of_nil|done].
  - rewrite not_elem_of_cons. destruct (decide (x = k)); [|tauto].
    split; [done|]. by intros [? _].
Qed.

Lemma alist_lookup_remove x k (l : alist) :
  alist_lookup x (alist_remove k l)
  = if decide (x = k) then None else alist_lookup x l.
Proof.
  unfold alist_remove, alist. induction l as [|[k' v] l IH].
  - by destruct (decide _).
  - rewrite filter_cons. cbn [fst]. destruct (decide (k' ≠ k)) as [Hk'|Hk'].
    + cbn [alist_lookup]. rewrite IH. repeat case_decide; congruence.
    + apply dec_stable in Hk'. subst k'. cbn [alist_lookup]. rewrite IH.
      repeat case_decide; congruence.
Qed.

Lemma zip_names_keys (names : list string) (vals : list value) x :
  x ∈ (zip names vals).*1 → x ∈ names.
Proof.
  revert vals. induction names as [|k names IH]; intros [|v vals]; simpl;
    try (by intros ?%elem_of_nil).
  rewrite !elem_of_cons. intros [?|?]; [by left|right; eauto].
Qed.

Lemma filter_all {A} (P : A → Prop) `{∀ x, Decision (P x)} (l : list A) :
  Forall P l → filter P l = l.
Proof.
  induction 1 as [|x l Hx _ IH]; [done|].
  by rewrite filter_cons, decide_True, IH.
Qed.

Lemma filter_agree {A} (P Q : A → Prop) `{∀ x, Decision (P x)}
    `{∀ x, Decision (Q x)} (l : list A) :
  Forall (λ x, P x ↔ Q x) l → filter P l = filter Q l.
Proof.
  induction 1 as [|x l Hx _ IH]; [done|].
  rewrite !filter_cons, IH. destruct (decide (P x)).
  - by rewrite decide_True by tauto.
  - by rewrite decide_False by tauto.
Qed.

(** The first loop of the binding stores each positional value under the
    name of the parameter at its position. *)
Lemma bind_positional_arguments sig : ∀ arg_vals kwargs arguments arguments'
    parameters,
  no_variadic sig →
  NoDup (param_names sig) →
  bind_positional true sig arg_vals kwargs arguments
  = Ok (arguments', parameters) →
  ∀ x, arguments' !! x
       = match alist_lookup x (zip (param_names sig) arg_vals) with
         | Some v => Some v
         | None => arguments !! x
         end.
Proof.
  induction sig as [|param rest IH];
    intros [|arg_val arg_vals] kwargs arguments arguments' parameters
      Hsig Hnd Hbind x; simpl in Hbind.
  - by simplify_eq.
  - done.
  - repeat case_match; by simplify_eq.
  - apply Forall_cons in Hsig as [[Hvp Hvk] Hsig].
    change (NoDup (name param :: param_names rest)) in Hnd.
    apply NoDup_cons in Hnd as [Hfresh Hnd].
    destruct (_ || _); [done|]. case_decide; [done|].
    destruct (_ && _); [done|].
    rewrite (IH _ _ _ _ _ Hsig Hnd Hbind x).
    change (zip (param_names (param :: rest)) (arg_val :: arg_vals))
      with ((name param, arg_val) :: zip (param_names rest) arg_vals).
    cbn [alist_lookup].
    destruct (decide (x = name param)) as [->|Hne].
    + rewrite lookup_insert_eq.
      destruct (alist_lookup (name param) (zip (param_names rest) arg_vals))
        eqn:Hl; [|done].
      exfalso. apply Hfresh. apply (zip_names_keys _ arg_vals).
      apply dec_stable. intros Hnot.
      apply (proj2 (alist_lookup_None _ _)) in Hnot. congruence.
    + by rewrite lookup_insert_ne.
Qed.

(** The second loop stores each keyword that names one of the remaining
    parameters, and leaves the others in [kwargs]. *)
Lemma bind_keywords_arguments parameters : ∀ kwargs kwargs_param arguments
    kwargs' kwargs_param' arguments',
  no_variadic parameters →
  bind_keywords true parameters kwargs kwargs_param arguments
  = Ok (kwargs', kwargs_param', arguments') →
  kwargs' = filter (λ kv, kv.1 ∉ param_names parameters) kwargs
  ∧ ∀ x, arguments' !! x
         = if decide (x ∈ param_names parameters)
           then match alist_lookup x kwargs with
                | Some v => Some v
                | None => arguments !! x
                end
           else arguments !! x.
Proof.
  induction parameters as [|param rest IH];
    intros kwargs kwargs_param arguments kwargs' kwargs_param' arguments'
      Hsig Hbind; simpl in Hbind.
  - simplify_eq. split; [|done].
    symmetry. apply filter_all, Forall_forall.
    intros ? _. apply not_elem_of_nil.
  - apply Forall_cons in Hsig as [[Hvp Hvk] Hsig].
    destruct (decide (kind_of param = VAR_KEYWORD)); [done|].
    destruct (decide (kind_of param = VAR_POSITIONAL)); [done|].
    destruct (alist_lookup (name param) kwargs) as [arg_val|] eqn:Hlookup.
    + destruct (decide (kind_of param = POSITIONAL_ONLY)); [done|].
      apply IH in Hbind as [-> Hargs]; [|done]. split.
      * unfold alist_remove, alist. rewrite list_filter_filter.
        apply list_filter_iff. intros [k v]. unfold param_names. simpl.
        rewrite not_elem_of_cons. tauto.
      * intros x. rewrite Hargs, alist_lookup_remove.
        pose proof (elem_of_cons (param_names rest) x (name param)) as Hin.
        change (name param :: param_names rest)
          with (param_names (param :: rest)) in Hin.
        destruct (decide (x = name param)) as [->|Hne];
          destruct (decide (_ ∈ param_names rest));
          destruct (decide (_ ∈ param_names (param :: rest)));
          rewrite ?Hlookup, ?lookup_insert_eq, ?lookup_insert_ne by done;
          try done; tauto.
    + simpl in Hbind. apply IH in Hbind as [-> Hargs]; [|done]. split.
      * apply filter_agree. apply Forall_forall. intros [k v] Hin.
        unfold param_names. simpl. rewrite not_elem_of_cons.
        split; [|tauto]. intros Hk. split; [|done]. intros ->.
        apply (proj1 (alist_lookup_None _ _)) in Hlookup. apply Hlookup.
        apply list_elem_of_fmap. by exists (name param, v).
      * intros x. rewrite Hargs.
        pose proof (elem_of_cons (param_names rest) x (name param)) as Hin.
        change (name param :: param_names rest)
          with (param_names (param :: rest)) in Hin.
        destruct (decide (x = name param)) as [->|Hne];
          destruct (decide (_ ∈ param_names rest));
          destruct (decide (_ ∈ param_names (param :: rest)));
          rewrite ?Hlookup; try done; tauto.
Qed.

End canonical.

Section canonical_map.

Import inspect.

(** Once the keywords have started, [BoundArguments.kwargs] takes every
    bound parameter. *)
Lemma kwargs_go_started sig : ∀ arguments acc x,
  no_variadic sig →
  kwargs_go sig arguments true acc !! x
  = match (if decide (x ∈ param_names sig) then arguments !! x else None) with
    | Some v => Some v
    | None => acc !! x
    end.
Proof.
  induction sig as [|param rest IH]; intros arguments acc x Hsig.
  - cbn [kwargs_go]. by rewrite decide_False by apply not_elem_of_nil.
  - apply Forall_cons in Hsig as [[Hvp Hvk] Hsig].
    pose proof (elem_of_cons (param_names rest) x (name param)) as Hin.
    change (name param :: param_names rest)
      with (param_names (param :: rest)) in Hin.
    cbn [kwargs_go negb andb].
    destruct (arguments !! name param) as [arg|] eqn:Harg.
    + rewrite decide_False by done. rewrite IH by done.
      destruct (decide (x = name param)) as [->|Hne];
        destruct (decide (_ ∈ param_names rest));
        destruct (decide (_ ∈ param_names (param :: rest)));
        rewrite ?Harg, ?lookup_insert_eq, ?lookup_insert_ne by done;
        try done; tauto.
    + rewrite IH by done.
      destruct (decide (x = name param)) as [->|Hne];
        destruct (decide (_ ∈ param_names rest));
        destruct (decide (_ ∈ param_names (param :: rest)));
        rewrite ?Harg; try done; tauto.
Qed.

(** The positional values of [BoundArguments.args], zipped with the names
    of the parameters, are entries of [arguments]. *)
Lemma args_zip sig : ∀ arguments x v,
  no_variadic sig →
  (x, v) ∈ zip (param_names sig) (args sig arguments) →
  arguments !! x = Some v.
Proof.
  induction sig as [|param rest IH]; intros arguments x v Hsig Hin.
  - by apply elem_of_nil in Hin.
  - apply Forall_cons in Hsig as [[Hvp Hvk] Hsig].
    cbn [args] in Hin.
    destruct (_ || _); [by apply elem_of_nil in Hin|].
    destruct (arguments !! name param) as [arg|] eqn:Harg;
      [|by apply elem_of_nil in Hin].
    rewrite decide_False in Hin by done.
    change (zip (param_names (param :: rest)) (arg :: args rest arguments))
      with ((name param, arg) :: zip (param_names rest) (args rest arguments))
      in Hin.
    apply elem_of_cons in Hin as [[= -> ->]|Hin]; [done|]. by apply IH.
Qed.

(** The parameters that [BoundArguments.args] leaves out are taken by
    [BoundArguments.kwargs]. *)
Lemma kwargs_go_not_started sig : ∀ arguments acc x,
  no_variadic sig →
  x ∉ (zip (param_names sig) (args sig arguments)).*1 →
  kwargs_go sig arguments false acc !! x
  = match (if decide (x ∈ param_names sig) then arguments !! x else None) with
    | Some v => Some v
    | None => acc !! x
    end.
Proof.
  induction sig as [|param rest IH]; intros arguments acc x Hsig Hnot.
  - cbn [kwargs_go]. by rewrite decide_False by apply not_elem_of_nil.
  - pose proof (kwargs_go_started (param :: rest) arguments acc x Hsig)
      as Hstarted.
    apply Forall_cons in Hsig as [[Hvp Hvk] Hsig].
    pose proof (elem_of_cons (param_names rest) x (name param)) as Hin.
    change (name param :: param_names rest)
      with (param_names (param :: rest)) in Hin.
    cbn [kwargs_go args negb andb] in *.
    rewrite (bool_decide_eq_false_2 (kind_of param = VAR_KEYWORD)) in *
      by done.
    cbn [orb] in *.
    destruct (bool_decide (kind_of param = KEYWORD_ONLY)); cbn [negb andb] in *;
      [exact Hstarted|].
    destruct (arguments !! name param) as [arg|] eqn:Harg.
    + rewrite bool_decide_eq_true_2 by eauto. cbn [negb].
      rewrite decide_False in Hnot by done.
      change (zip (param_names (param :: rest)) (arg :: args rest arguments))
        with ((name param, arg)
              :: zip (param_names rest) (args rest arguments)) in Hnot.
      rewrite fmap_cons in Hnot. apply not_elem_of_cons in Hnot as [Hne Hnot].
      rewrite IH by done.
      destruct (decide (_ ∈ param_names rest));
        destruct (decide (_ ∈ param_names (param :: rest)));
        try done; tauto.
    + rewrite bool_decide_eq_false_2 by (by intros [? ?]). cbn [negb].
      rewrite kwargs_go_started by done.
      destruct (decide (x = name param)) as [->|Hne];
        destruct (decide (_ ∈ param_names rest));
        destruct (decide (_ ∈ param_names (param :: rest)));
        rewrite ?Harg; try done; tauto.
Qed.

Lemma fold_left_insert_lookup (l : list (string * value)) :
  ∀ (m : gmap string value) x,
  (x ∉ l.*1 →
   fold_left (λ kwargs nv, <[nv.1 := nv.2]> kwargs) l m !! x = m !! x)
  ∧ (x ∈ l.*1 →
     ∃ v, (x, v) ∈ l
          ∧ fold_left (λ kwargs nv, <[nv.1 := nv.2]> kwargs) l m !! x = Some v).
Proof.
  induction l as [|[k v] l IH]; intros m x.
  - split; [done|]. by intros ?%elem_of_nil.
  - cbn [fold_left fst snd]. rewrite fmap_cons. cbn [fst]. split.
    + intros [Hne Hnot]%not_elem_of_cons.
      rewrite (proj1 (IH _ _) Hnot). by rewrite lookup_insert_ne.
    + intros Hin. destruct (decide (x ∈ l.*1)) as [Hl|Hl].
      * destruct (proj2 (IH (<[k:=v]> m) x) Hl) as (v' & Hv' & ->).
        exists v'. split; [by right|done].
      * apply elem_of_cons in Hin as [->|?]; [|done].
        rewrite (proj1 (IH _ _) Hl), lookup_insert_eq.
        exists v. split; [by left|done].
Qed.

Lemma zip_keys_not_dropped (names : list string) : ∀ (vals : list value) x,
  NoDup names →
  x ∈ (zip names vals).*1 → x ∉ drop (length vals) names.
Proof.
  induction names as [|k names IH]; intros [|v vals] x Hnd Hin;
    try (by apply elem_of_nil in Hin).
  apply NoDup_cons in Hnd as [Hk Hnd]. cbn [zip zip_with] in Hin.
  rewrite fmap_cons in Hin. cbn [length drop fst].
  apply elem_of_cons in Hin as [->|Hin]; [|by apply IH].
  intros Hdrop. apply Hk. by eapply subseteq_drop.
Qed.

(** The map that [citation] builds out of [bound.kwargs] and [bound.args]
    is the restriction of [bound.arguments] to the names of the
    signature. *)
Lemma canonical_kwargs_lookup sig arguments x :
  no_variadic sig →
  canonical_kwargs sig arguments !! x
  = if decide (x ∈ param_names sig) then arguments !! x else None.
Proof.
  intros Hsig. unfold canonical_kwargs, kwargs.
  destruct (fold_left_insert_lookup
              (zip (param_names sig) (args sig arguments))
              (kwargs_go sig arguments false ∅) x) as [Hout Hin].
  destruct (decide (x ∈ (zip (param_names sig) (args sig arguments)).*1))
    as [Hx|Hx].
  - destruct (Hin Hx) as (v & Hv & ->).
    rewrite decide_True by (by eapply zip_names_keys).
    symmetry. by eapply args_zip.
  - rewrite (Hout Hx), kwargs_go_not_started by done.
    rewrite lookup_empty. by destruct (decide _); [destruct (arguments !! x)|].
Qed.

(** X15.  When the parameter list has no variadic parameter and the
    binding succeeds, the canonical map of [citation] holds exactly what the
    caller supplied: each positional value under the name of the parameter
    at its position, each keyword under its own name.  A parameter that the
    caller left out has no entry: the defaults of [diffeqsolve] are not
    filled in. *)
Theorem canonical_kwargs_supplied sig args kwargs bound :
  no_variadic sig →
  NoDup (param_names sig) →
  inspect.bind_partial sig args kwargs = Ok bound →
  canonical_kwargs sig bound = supplied sig args kwargs
  ∧ length args ≤ length sig
  ∧ kwargs.*1 ⊆ param_names (drop (length args) sig)
  ∧ ∀ p, p ∈ drop (length args) sig → name p ∉ kwargs.*1 →
         canonical_kwargs sig bound !! name p = None.
Proof.
  intros Hsig Hnd Hbind. unfold bind_partial, _bind in Hbind.
  pose proof (bind_positional_no_variadic sig args kwargs ∅ Hsig) as Hpos.
  destruct (bind_positional true sig args kwargs ∅)
    as [[arguments parameters]|e] eqn:Hpositional; [|done].
  destruct Hpos as [Hlen ->]. cbn in Hbind.
  assert (no_variadic (drop (length args) sig)) as Hdrop
    by (by apply Forall_drop).
  destruct (bind_keywords true (drop (length args) sig) kwargs None arguments)
    as [[[kwargs' kwargs_param] arguments']|e] eqn:Hkeywords; [|done].
  cbn in Hbind.
  pose proof (bind_keywords_no_variadic _ kwargs None arguments Hdrop) as Hkp.
  rewrite Hkeywords in Hkp. destruct Hkp as [-> _].
  apply bind_keywords_arguments in Hkeywords as [-> Hargs]; [|done].
  destruct (filter _ kwargs) as [|[arg ?] ?] eqn:Hleft; [|done].
  injection Hbind as <-.
  assert (kwargs.*1 ⊆ param_names (drop (length args) sig)) as Hkeys.
  { intros k [[k' v] [-> Hin]]%list_elem_of_fmap. apply dec_stable.
    intros Hnot.
    assert ((k', v) ∈ filter (λ kv, kv.1 ∉ param_names (drop (length args) sig))
                        kwargs) as Hkv
      by (by apply list_elem_of_filter).
    unfold alist in *. rewrite Hleft in Hkv. by apply elem_of_nil in Hkv. }
  assert (∀ x, arguments' !! x = supplied sig args kwargs !! x) as Hbound.
  { intros x. rewrite Hargs.
    rewrite (bind_positional_arguments _ _ _ _ _ _ Hsig Hnd Hpositional x).
    rewrite lookup_empty. unfold supplied.
    rewrite list_to_map_app, lookup_union, !list_to_map_alist_lookup.
    destruct (alist_lookup x (zip (param_names sig) args)) as [v|] eqn:Hzip.
    - assert (x ∉ param_names (drop (length args) sig)) as Hx.
      { assert (x ∈ (zip (param_names sig) args).*1) as Hin.
        { apply dec_stable. intros Hn.
          apply (proj2 (alist_lookup_None _ _)) in Hn. congruence. }
        apply (zip_keys_not_dropped _ _ _ Hnd) in Hin.
        unfold param_names in *. by rewrite fmap_drop. }
      rewrite decide_False by done. by destruct (alist_lookup x kwargs).
    - destruct (decide (x ∈ param_names (drop (length args) sig))).
      + by destruct (alist_lookup x kwargs).
      + assert (alist_lookup x kwargs = None) as ->; [|done].
        apply alist_lookup_None. intros Hin. auto. }
  assert (canonical_kwargs sig arguments' = supplied sig args kwargs) as Hcan.
  { apply map_eq. intros x. rewrite canonical_kwargs_lookup by done.
    destruct (decide (x ∈ param_names sig)) as [Hx|Hx]; [apply Hbound|].
    rewrite <- Hbound, Hargs.
    rewrite (bind_positional_arguments _ _ _ _ _ _ Hsig Hnd Hpositional x).
    rewrite lookup_empty.
    assert (alist_lookup x (zip (param_names sig) args) = None) as ->.
    { apply alist_lookup_None. intros Hin. by apply zip_names_keys in Hin. }
    rewrite decide_False; [done|].
    intros Hin. apply Hx. unfold param_names in *. rewrite fmap_drop in Hin.
    by eapply subseteq_drop. }
  split; [done|]. split; [done|]. split; [done|].
  intros p Hp Hnot. rewrite Hcan. unfold supplied.
  rewrite list_to_map_app, lookup_union, !list_to_map_alist_lookup.
  rewrite (proj2 (alist_lookup_None _ _) Hnot).
  assert (alist_lookup (name p) (zip (param_names sig) args) = None) as ->;
    [|done].
  apply alist_lookup_None. intros Hin.
  apply (zip_keys_not_dropped _ _ _ Hnd) in Hin. apply Hin.
  unfold param_names. rewrite <- fmap_drop. apply list_elem_of_fmap. eauto.
Qed.

End canonical_map.

Lemma canonical_kwargs_supplied_witness :
  canonical_kwargs example_signature
    {["terms" := VNone; "solver" := VObj example_tsit5; "dt0" := VNone]}
  = supplied example_signature [VNone; VObj example_tsit5] [("dt0", VNone)]
  ∧ canonical_kwargs example_signature
      {["terms" := VNone; "solver" := VObj example_tsit5; "dt0" := VNone]}
    !! "adjoint" = None.
Proof.
  destruct (canonical_kwargs_supplied example_signature
              [VNone; VObj example_tsit5] [("dt0", VNone)]
              {["terms" := VNone; "solver" := VObj example_tsit5;
                "dt0" := VNone]})
    as (Hsupplied & _ & _ & Hdefault);
    [apply (bool_decide_unpack _); vm_compute; exact I
    |apply (bool_decide_unpack _); vm_compute; exact I
    |vm_compute; reflexivity|].
  split; [exact Hsupplied|].
  apply (Hdefault (inspect.Param "adjoint" inspect.KEYWORD_ONLY (Some VNone))).
  - unfold example_signature. cbn [length drop].
    do 7 apply list_elem_of_further. apply list_elem_of_here.
  - apply (bool_decide_unpack _). vm_compute. exact I.
Defined.

(* ===================================================================== *)
(** ** Replaying a call *)
(* ===================================================================== *)

Lemma extends_refl st : extends st st.
Proof. by split. Qed.

Lemma extends_trans st1 st2 st3 :
  extends st1 st2 → extends st2 st3 → extends st1 st3.
Proof. intros [H1 H2] [H3 H4]. split; eauto. Qed.

Lemma replayable_ret {A} (a : A) : replayable (mret a).
Proof.
  intros st a' st1 [= <- <-]. split; [apply extends_refl|done].
Qed.

Lemma replayable_raise {A} e : replayable (@raise A e).
Proof. by intros st a st1. Qed.

Lemma replayable_lift {A} (r : result A) : replayable (lift r).
Proof.
  intros st a st1 [= -> <-]. split; [apply extends_refl|done].
Qed.

Lemma replayable_bind {A B} (m : M A) (k : A → M B) :
  replayable m → (∀ a, replayable (k a)) → replayable (m ≫= k).
Proof.
  intros Hm Hk st b st2 Hrun. unfold mbind, M_bind in *.
  destruct (m st) as [[a|e] st1] eqn:Hmst; [|done].
  destruct (Hm _ _ _ Hmst) as [Hext1 Hm'].
  destruct (Hk a _ _ _ Hrun) as [Hext2 Hk'].
  split; [by eapply extends_trans|].
  intros st3 Hext3.
  rewrite (Hm' st3) by (by eapply extends_trans). by apply Hk'.
Qed.

Lemma replayable_assert b : replayable (assert b).
Proof. destruct b; [apply replayable_ret|apply replayable_raise]. Qed.

Lemma replayable_no_tracer x field : replayable (_no_tracer x field).
Proof.
  unfold _no_tracer.
  destruct (is_tracer x); [apply replayable_raise|apply replayable_ret].
Qed.

Lemma replayable_parse_reference env obj : replayable (_parse_reference env obj).
Proof.
  intros st ref st1 Hcall. unfold _parse_reference, lru_cache in *.
  destruct (cache_key obj) as [k|]; [|done].
  destruct (alist_lookup k (parse_reference_cache st)) as [ref'|] eqn:Hk.
  - injection Hcall as <- <-. split; [apply extends_refl|].
    intros st2 [Hext _]. by rewrite (Hext _ _ Hk).
  - pose proof (parse_reference_body_caches env obj st) as [Hc Hm].
    destruct (_parse_reference_body env obj st) as [[ref'|e] st'] eqn:Hbody;
      [|done].
    injection Hcall as <- <-. simpl in *. split.
    + split; simpl; [|by rewrite Hm].
      intros k' ref'' Hk'. rewrite Hc.
      destruct (decide (k' = k)) as [->|]; [congruence|done].
    + intros st2 [Hext _].
      rewrite (Hext k ref'); [done|]. simpl. by rewrite decide_True.
Qed.

Lemma replayable_parse_reference_multi env obj :
  replayable (_parse_reference_multi env obj).
Proof.
  intros st refs st1 Hcall. unfold _parse_reference_multi, lru_cache in *.
  destruct (cache_key obj) as [k|]; [|done].
  destruct (alist_lookup k (parse_reference_multi_cache st)) as [refs'|] eqn:Hk.
  - injection Hcall as <- <-. split; [apply extends_refl|].
    intros st2 [_ Hext]. by rewrite (Hext _ _ Hk).
  - pose proof (parse_reference_multi_body_cache env obj st) as Hm.
    assert (parse_reference_cache (_parse_reference_multi_body env obj st).2
            = parse_reference_cache st) as Hc
      by (unfold _parse_reference_multi_body; by destruct (doc_of env obj)).
    destruct (_parse_reference_multi_body env obj st) as [[refs'|e] st']
      eqn:Hbody; [|done].
    injection Hcall as <- <-. simpl in *. split.
    + split; simpl; [by rewrite Hc|].
      intros k' refs'' Hk'. rewrite Hm.
      destruct (decide (k' = k)) as [->|]; [congruence|done].
    + intros st2 [_ Hext].
      rewrite (Hext k refs'); [done|]. simpl. by rewrite decide_True.
Qed.

(** Takes a rule body apart, down to the calls of the extraction
    functions. *)
Ltac replay :=
  repeat first
    [ apply replayable_ret
    | apply replayable_raise
    | apply replayable_lift
    | apply replayable_assert
    | apply replayable_no_tracer
    | apply replayable_parse_reference
    | apply replayable_parse_reference_multi
    | apply replayable_bind; [|intros ?]
    | progress cbv beta
    | match goal with
      | |- replayable (if ?b then _ else _) => destruct b
      | |- replayable (match ?x with _ => _ end) => destruct x
      end ].

Lemma replayable_rules env r locals :
  r ∈ citation_rules env → replayable (rule_body r locals).
Proof.
  unfold citation_rules. intros Hr.
  repeat (apply elem_of_cons in Hr as [->|Hr]);
    [..|by apply elem_of_nil in Hr].
  - unfold _diffrax. cbn [rule_body]. replay.
  - unfold _backsolve_adjoint. cbn [rule_body]. replay.
  - unfold _discrete_adjoint. cbn [rule_body]. replay.
  - unfold _virtual_brownian_tree. cbn [rule_body]. replay.
  - unfold _space_time_levy_area. cbn [rule_body]. replay.
  - unfold _backsolve_rms_norm. cbn [rule_body]. replay.
  - unfold _explicit_solver. cbn [rule_body]. replay.
  - unfold _implicit_solver. cbn [rule_body]. replay.
  - unfold _symplectic_solver. cbn [rule_body]. replay.
  - unfold _cde. cbn [rule_body]. replay.
  - unfold _sde. cbn [rule_body]. replay.
  - unfold _solvers, dopri8_interpolant_cited. cbn [rule_body]. replay.
  - unfold _auto_dt0. cbn [rule_body]. replay.
  - unfold _pid_controller. cbn [rule_body]. replay.
Qed.

Lemma replayable_call r rulekwargs :
  (∀ locals, replayable (rule_body r locals)) → replayable (call r rulekwargs).
Proof.
  intros Hr. unfold call.
  destruct (call_locals (rule_parameters r) rulekwargs);
    [apply Hr|apply replayable_raise].
Qed.

Lemma dispatch_replay kwargs rules : ∀ cites trace st cites' trace' st1,
  Forall (λ r, ∀ locals, replayable (rule_body r locals)) rules →
  dispatch kwargs rules cites trace st = (Ok cites', trace', st1) →
  extends st st1
  ∧ ∀ st2, extends st1 st2 →
           dispatch kwargs rules cites trace st2 = (Ok cites', trace', st2).
Proof.
  induction rules as [|r rules IH]; intros cites trace st cites' trace' st1
    Hall Hd; cbn [dispatch] in *.
  - injection Hd as <- <- <-. split; [apply extends_refl|done].
  - apply Forall_cons in Hall as [Hr Hall].
    destruct (examine kwargs r) as [[|rulekwargs]|e]; [by apply IH| |done].
    destruct (call r rulekwargs st) as [[cite|e] st'] eqn:Hcall; [|done].
    destruct (replayable_call r rulekwargs Hr _ _ _ Hcall) as [Hext Hagain].
    destruct (IH _ _ _ _ _ _ Hall Hd) as [Hext' Hrest].
    split; [by eapply extends_trans|].
    intros st2 Hext2.
    rewrite (Hagain st2) by (by eapply extends_trans). by apply Hrest.
Qed.

(** X16.  A call of [citation] that printed can be replayed: it has only
    added entries to the two caches, and the same call made again -- right
    away, or later, from any store that still has these entries -- prints
    the same document after the same calls of the same rules, and leaves the
    store as it is: no documentation text is scanned again, every reference
    comes out of the caches. *)
Theorem citation_replay env sig args kwargs st doc trace st1 :
  citation sig (citation_rules env) args kwargs st = (Printed doc, trace, st1) →
  extends st st1
  ∧ ∀ st2,
      extends st1 st2 →
      citation sig (citation_rules env) args kwargs st2
      = (Printed doc, trace, st2).
Proof.
  unfold citation.
  destruct (inspect.bind_partial sig args kwargs) as [bound|e]; [|done].
  destruct (dispatch _ _ _ _ st) as [[[cites|e] trace'] st'] eqn:Hd; [|done].
  intros [= <- <- <-].
  apply dispatch_replay in Hd as [Hext Hagain].
  - split; [done|]. intros st2 Hext2. by rewrite Hagain.
  - apply Forall_forall. intros r Hr locals. by apply (replayable_rules env).
Qed.

Lemma citation_replay_witness :
  ∃ doc trace st1,
    citation example_signature (citation_rules example_env)
      [] [("solver", VObj example_tsit5)] empty_store
    = (Printed doc, trace, st1)
    ∧ scans st1 = 1
    ∧ citation example_signature (citation_rules example_env)
        [] [("solver", VObj example_tsit5)] st1
      = (Printed doc, trace, st1).
Proof.
  destruct (citation example_signature (citation_rules example_env)
              [] [("solver", VObj example_tsit5)] empty_store)
    as [[o trace] st1] eqn:Hcit.
  pose proof (f_equal (λ x, match x.1.1 with
                            | Printed _ => true
                            | Raised _ => false
                            end) Hcit) as Hprinted.
  pose proof (f_equal (λ x, scans x.2) Hcit) as Hscans.
  vm_compute in Hprinted. vm_compute in Hscans.
  destruct o as [doc|e]; [|discriminate Hprinted].
  exists doc, trace, st1. split; [reflexivity|]. split; [by symmetry|].
  apply (citation_replay example_env example_signature
           [] [("solver", VObj example_tsit5)] empty_store doc trace st1 Hcit).
  apply extends_refl.
Defined.

(* ===================================================================== *)
(** ** [inspect.cleandoc] *)
(* ===================================================================== *)

Section cleandoc.

Import inspect.

Lemma visible_cons c s :
  visible (c :: s) = if str.isspace c then visible s else c :: visible s.
Proof.
  unfold visible. rewrite filter_cons.
  destruct (str.isspace c); [by rewrite decide_False|by rewrite decide_True].
Qed.

Lemma visible_app s t : visible (s ++ t) = visible s ++ visible t.
Proof. apply filter_app. Qed.

Lemma visible_all_space s : str.all_space s = true → visible s = [].
Proof.
  induction s as [|c s IH]; [done|]. cbn [str.all_space]. rewrite visible_cons.
  destruct (str.isspace c); [done|discriminate].
Qed.

Lemma visible_replicate_space n : visible (replicate n 32%N) = [].
Proof. induction n as [|n IH]; [done|]. cbn [replicate]. by rewrite visible_cons. Qed.

Lemma visible_expandtabs_go s : ∀ line_pos,
  visible (str.expandtabs_go line_pos s) = visible s.
Proof.
  induction s as [|c s IH]; intros line_pos; [done|].
  cbn [str.expandtabs_go].
  destruct (N.eqb_spec c 9) as [->|Hc].
  - rewrite visible_app, visible_replicate_space, IH. by rewrite visible_cons.
  - destruct (_ || _); by rewrite !visible_cons, IH.
Qed.

Lemma split_cons sep s : ∃ line lines, str.split sep s = line :: lines.
Proof.
  induction s as [|c s (line & lines & IH)]; cbn [str.split]; [eauto|].
  destruct (c =? sep)%N; [eauto|]. rewrite IH. eauto.
Qed.

(** Joining the lines of a text gives the text back. *)
Lemma join_split sep s : str.join [sep] (str.split sep s) = s.
Proof.
  induction s as [|c s IH]; [done|]. cbn [str.split].
  destruct (split_cons sep s) as (line & lines & Hsplit).
  rewrite Hsplit in *.
  destruct (N.eqb_spec c sep) as [->|Hc].
  - change (str.join [sep] ([] :: line :: lines))
      with (sep :: str.join [sep] (line :: lines)).
    by rewrite IH.
  - destruct lines as [|line' lines].
    + cbn [str.join] in *. by rewrite IH.
    + change (str.join [sep] ((c :: line) :: line' :: lines))
        with (c :: line ++ [sep] ++ str.join [sep] (line' :: lines)).
      change (str.join [sep] (line :: line' :: lines))
        with (line ++ [sep] ++ str.join [sep] (line' :: lines)) in IH.
      by rewrite IH.
Qed.

Lemma visible_join lines :
  visible (str.join newline lines) = concat (visible <$> lines).
Proof.
  induction lines as [|line lines IH]; [done|].
  destruct lines as [|line' lines].
  - cbn [str.join]. simpl. by rewrite app_nil_r.
  - change (str.join newline (line :: line' :: lines))
      with (line ++ newline ++ str.join newline (line' :: lines)).
    rewrite !visible_app, IH. by rewrite fmap_cons.
Qed.

Lemma lstrip_split s :
  ∃ spaces, s = spaces ++ str.lstrip s ∧ str.all_space spaces = true.
Proof.
  induction s as [|c s (spaces & IH & Hspaces)]; [by exists []|].
  cbn [str.lstrip]. destruct (str.isspace c) eqn:Hc.
  - exists (c :: spaces). split; [by rewrite IH at 1|].
    cbn [str.all_space]. by rewrite Hc.
  - by exists [].
Qed.

Lemma visible_lstrip s : visible (str.lstrip s) = visible s.
Proof.
  destruct (lstrip_split s) as (spaces & Hs & Hspaces).
  rewrite Hs at 2. by rewrite visible_app, (visible_all_space spaces).
Qed.

Lemma all_space_drop n s : str.all_space s = true → str.all_space (drop n s) = true.
Proof.
  revert n. induction s as [|c s IH]; intros [|n] Hs; try done.
  cbn [str.all_space drop] in *. destruct (str.isspace c); [auto|done].
Qed.

(** Cutting a line within its indentation removes white space only. *)
Lemma visible_drop_indent m line i :
  indent line = Some i → m ≤ i → visible (drop m line) = visible line.
Proof.
  unfold indent. intros Hindent Hm.
  destruct (lstrip_split line) as (spaces & Hline & Hspaces).
  destruct (length (str.lstrip line) =? 0); [done|].
  injection Hindent as <-.
  assert (length line = length spaces + length (str.lstrip line)) as Hlen
    by (rewrite Hline at 1; by rewrite length_app).
  rewrite Hline at 1 2. rewrite drop_app_le by lia.
  rewrite !visible_app.
  rewrite (visible_all_space spaces) by done.
  by rewrite (visible_all_space (drop m spaces)) by (by apply all_space_drop).
Qed.

Lemma visible_drop_blank m line :
  indent line = None → visible (drop m line) = visible line.
Proof.
  unfold indent. intros Hindent.
  destruct (lstrip_split line) as (spaces & Hline & Hspaces).
  destruct (length (str.lstrip line) =? 0) eqn:Hlen; [|done].
  apply Nat.eqb_eq, nil_length_inv in Hlen.
  rewrite Hlen, app_nil_r in Hline. subst line.
  rewrite (visible_all_space spaces) by done.
  by rewrite (visible_all_space (drop m spaces)) by (by apply all_space_drop).
Qed.

Lemma margin_None lines line :
  margin lines = None → line ∈ lines → indent line = None.
Proof.
  induction lines as [|l lines IH]; intros Hm Hin;
    [by apply elem_of_nil in Hin|].
  cbn [margin] in Hm.
  destruct (indent l) eqn:Hl, (margin lines); try done.
  apply elem_of_cons in Hin as [->|Hin]; auto.
Qed.

Lemma margin_le lines m line i :
  margin lines = Some m → line ∈ lines → indent line = Some i → m ≤ i.
Proof.
  revert m. induction lines as [|l lines IH]; intros m Hm Hin Hi;
    [by apply elem_of_nil in Hin|].
  cbn [margin] in Hm.
  apply elem_of_cons in Hin as [->|Hin].
  - rewrite Hi in Hm. destruct (margin lines); injection Hm as <-; lia.
  - destruct (margin lines) as [m'|] eqn:Hm'.
    + specialize (IH _ eq_refl Hin Hi).
      destruct (indent l); injection Hm as <-; lia.
    + pose proof (margin_None _ _ Hm' Hin). congruence.
Qed.

Lemma visible_dedent lines m :
  margin lines = Some m →
  concat (visible <$> (drop m <$> lines)) = concat (visible <$> lines).
Proof.
  intros Hm.
  assert (Forall (λ line, visible (drop m line) = visible line) lines) as Hall.
  { apply Forall_forall. intros line Hin.
    destruct (indent line) as [i|] eqn:Hi.
    - apply (visible_drop_indent _ _ i); [done|]. by eapply margin_le.
    - by apply visible_drop_blank. }
  clear Hm. induction Hall as [|line lines Hline _ IH]; [done|].
  rewrite !fmap_cons. cbn [concat]. by rewrite Hline, IH.
Qed.

Lemma drop_leading_empty_split lines :
  ∃ empty, lines = empty ++ drop_leading_empty lines
           ∧ Forall (λ line, line = []) empty.
Proof.
  induction lines as [|line lines (empty & IH & Hempty)]; [by exists []|].
  cbn [drop_leading_empty]. destruct line as [|c line].
  - exists ([] :: empty). split; [by rewrite IH at 1|by constructor].
  - by exists [].
Qed.

Lemma concat_visible_empty empty :
  Forall (λ line, line = []) empty → concat (visible <$> empty) = [].
Proof. induction 1 as [|line empty -> _ IH]; [done|]. by rewrite fmap_cons. Qed.

Lemma visible_drop_leading_empty lines :
  concat (visible <$> drop_leading_empty lines) = concat (visible <$> lines).
Proof.
  destruct (drop_leading_empty_split lines) as (empty & Hlines & Hempty).
  rewrite Hlines at 2. rewrite fmap_app, concat_app.
  by rewrite (concat_visible_empty empty).
Qed.

Lemma visible_drop_trailing_empty lines :
  concat (visible <$> drop_trailing_empty lines) = concat (visible <$> lines).
Proof.
  unfold drop_trailing_empty.
  destruct (drop_leading_empty_split (rev lines)) as (empty & Hlines & Hempty).
  apply (f_equal (@rev _)) in Hlines.
  rewrite rev_involutive, rev_app_distr in Hlines.
  rewrite Hlines at 2. rewrite fmap_app, concat_app.
  rewrite (concat_visible_empty (rev empty)) by (by apply Forall_rev).
  by rewrite app_nil_r.
Qed.

(** X17.  [inspect.cleandoc], through which every extracted reference
    goes, changes white space only: the characters of the cleaned text that
    are not white space are those of the text, in the same order. *)
Theorem cleandoc_keeps_content doc : visible (cleandoc doc) = visible doc.
Proof.
  unfold cleandoc.
  rewrite <- (visible_expandtabs_go doc 0). fold (str.expandtabs doc).
  rewrite <- (join_split 10 (str.expandtabs doc)) at 2.
  fold newline. rewrite visible_join.
  destruct (str.split 10 (str.expandtabs doc)) as [|first rest]; [done|].
  rewrite visible_join, visible_drop_leading_empty,
    visible_drop_trailing_empty.
  rewrite !fmap_cons. cbn [concat]. rewrite visible_lstrip. f_equal.
  destruct (margin rest) as [m|] eqn:Hm; [|done]. by apply visible_dedent.
Qed.

End cleandoc.

(* ===================================================================== *)
(** ** How the blocks begin *)
(* ===================================================================== *)

Lemma returns_bind {A B} (P : B → Prop) (m : M A) (k : A → M B) :
  (∀ a, returns P (k a)) → returns P (m ≫= k).
Proof.
  intros Hk st b st' Hrun. unfold mbind, M_bind in Hrun.
  destruct (m st) as [[a|e] st1]; [|done]. by eapply Hk.
Qed.

Lemma returns_ret {A} (P : A → Prop) a : P a → returns P (mret a).
Proof. by intros Ha st a' st' [= <- <-]. Qed.

Lemma returns_raise {A} (P : A → Prop) e : returns P (raise e).
Proof. by intros st a st'. Qed.

Lemma block_begins_with_None p : block_begins_with p None.
Proof. by intros c. Qed.

Lemma all_space_lstrip s : str.all_space s = true → str.lstrip s = [].
Proof.
  induction s as [|c s IH]; [done|]. cbn [str.all_space str.lstrip].
  by destruct (str.isspace c).
Qed.

(** Trimming on the right keeps a prefix that ends with a character other
    than white space. *)
Lemma rstrip_keeps_prefix p : ∀ c rest,
  last p = Some c → str.isspace c = false →
  ∃ rest', str.rstrip (p ++ rest) = p ++ rest'.
Proof.
  induction p as [|a p IH]; intros c rest Hlast Hc; [done|].
  assert (str.all_space ((a :: p) ++ rest) = false) as Hall.
  { rewrite all_space_app. apply andb_false_iff. left.
    clear IH. revert a Hlast. induction p as [|b p IHp]; intros a Hlast.
    - injection Hlast as ->. cbn [str.all_space]. by rewrite Hc.
    - cbn [str.all_space]. destruct (str.isspace a); [|done].
      apply (IHp b). by rewrite <- Hlast. }
  rewrite <- app_comm_cons in *. cbn [str.rstrip]. rewrite Hall.
  destruct p as [|b p].
  - exists (str.rstrip rest). done.
  - destruct (IH c rest) as [rest' ->]; [by rewrite <- Hlast|done|]. eauto.
Qed.

(** A text whose first characters other than white space are [p] gives a
    block that begins with [p], whatever follows. *)
Lemma begins_with_app p c lit rest :
  str.startswith p (str.lstrip lit) = true →
  last p = Some c → str.isspace c = false →
  begins_with p (lit ++ rest).
Proof.
  intros Hp Hlast Hc. unfold begins_with, str.strip.
  apply startswith_true in Hp.
  assert (str.all_space lit = false) as Hlit.
  { destruct (str.all_space lit) eqn:Hall; [|done].
    rewrite (all_space_lstrip _ Hall) in Hp. by destruct p. }
  rewrite lstrip_app by done. rewrite Hp, <- app_assoc.
  destruct (rstrip_keeps_prefix p c
              (drop (length p) (str.lstrip lit) ++ rest) Hlast Hc)
    as [rest' ->].
  apply startswith_app.
Qed.

Lemma begins_with_lit p c lit :
  str.startswith p (str.lstrip lit) = true →
  last p = Some c → str.isspace c = false →
  begins_with p lit.
Proof.
  intros. rewrite <- (app_nil_r lit). by eapply begins_with_app.
Qed.

Lemma begins_with_app_assoc p c lit rest more :
  str.startswith p (str.lstrip lit) = true →
  last p = Some c → str.isspace c = false →
  begins_with p ((lit ++ rest) ++ more).
Proof.
  intros. rewrite <- app_assoc. by eapply begins_with_app.
Qed.

(** What a rule returns, leaf by leaf. *)
Ltac block_begins :=
  intros ? [= <-];
  repeat match goal with
         | |- context [if ?b then _ else _] => destruct b
         end;
  first
    [ eapply begins_with_app_assoc; vm_compute; reflexivity
    | eapply begins_with_app; vm_compute; reflexivity
    | eapply begins_with_lit; vm_compute; reflexivity
    | vm_compute; reflexivity ].

Ltac returns :=
  repeat first
    [ apply returns_raise
    | apply returns_ret; first [apply block_begins_with_None | block_begins]
    | apply returns_bind; intros ?
    | progress cbv beta zeta
    | match goal with
      | |- returns _ (if ?b then _ else _) => destruct b
      | |- returns _ (match ?x with _ => _ end) => destruct x
      end ].

Ltac pick_prefix :=
  first [ change (String.eqb _ "_symplectic_solver") with false
        | change (String.eqb _ "_symplectic_solver") with true ];
  cbv iota.

(** X18.  The block of every registered rule begins with a comment sign,
    but for one: what [_symplectic_solver] returns begins with the plain
    words of its first line, without the sign. *)
Theorem blocks_begin_with_comment env r locals st cite st' :
  r ∈ citation_rules env →
  rule_body r locals st = (Ok (Some cite), st') →
  if String.eqb (rule_name r) "_symplectic_solver"
  then begins_with (text "You are using a symplectic solver") cite
  else begins_with (text "%") cite.
Proof.
  intros Hr Hbody.
  assert (returns (block_begins_with
                     (if String.eqb (rule_name r) "_symplectic_solver"
                      then text "You are using a symplectic solver"
                      else text "%"))
            (rule_body r locals)) as Hreturns.
  { clear Hbody. unfold citation_rules in Hr.
    repeat (apply elem_of_cons in Hr as [->|Hr]);
      [..|by apply elem_of_nil in Hr].
    - unfold _diffrax, _diffrax_text. cbn [rule_body rule_name]. pick_prefix.
      returns.
    - unfold _backsolve_adjoint. cbn [rule_body rule_name]. pick_prefix.
      returns.
    - unfold _discrete_adjoint. cbn [rule_body rule_name]. pick_prefix.
      returns.
    - unfold _virtual_brownian_tree. cbn [rule_body rule_name]. pick_prefix.
      returns.
    - unfold _space_time_levy_area. cbn [rule_body rule_name]. pick_prefix.
      returns.
    - unfold _backsolve_rms_norm. cbn [rule_body rule_name]. pick_prefix.
      returns.
    - unfold _explicit_solver. cbn [rule_body rule_name]. pick_prefix.
      returns.
    - unfold _implicit_solver. cbn [rule_body rule_name]. pick_prefix.
      returns.
    - unfold _symplectic_solver. cbn [rule_body rule_name]. pick_prefix.
      returns.
    - unfold _cde. cbn [rule_body rule_name]. pick_prefix.
      returns.
    - unfold _sde. cbn [rule_body rule_name]. pick_prefix.
      returns.
    - unfold _solvers, dopri8_interpolant_cited. cbn [rule_body rule_name].
      pick_prefix.
      returns.
    - unfold _auto_dt0. cbn [rule_body rule_name]. pick_prefix.
      returns.
    - unfold _pid_controller. cbn [rule_body rule_name]. pick_prefix.
      returns. }
  specialize (Hreturns _ _ _ Hbody cite eq_refl).
  by destruct (String.eqb (rule_name r) "_symplectic_solver").
Qed.

Lemma blocks_begin_with_comment_witness :
  ∃ cite,
    rule_body (_symplectic_solver example_env)
      {["solver" := VObj (Instance 7 SemiImplicitEuler (HashValue 1) []);
        "terms" := VNone]} empty_store
    = (Ok (Some cite), empty_store)
    ∧ begins_with (text "You are using a symplectic solver") cite.
Proof.
  eexists. split; [vm_compute; reflexivity|].
  apply (blocks_begin_with_comment example_env (_symplectic_solver example_env)
           {["solver" := VObj (Instance 7 SemiImplicitEuler (HashValue 1) []);
             "terms" := VNone]} empty_store _ empty_store).
  - unfold citation_rules. do 8 apply list_elem_of_further.
    apply list_elem_of_here.
  - vm_compute. reflexivity.
Defined.

(* ===================================================================== *)
(** ** The rules on Brownian motion, the listed solvers, the discrete
       adjoints *)
(* ===================================================================== *)

(** X19.  The two rules on Brownian motion read the same list of
    references, that of [VirtualBrownianTree], by position:
    [_virtual_brownian_tree] cites the first one when some leaf of [terms]
    is a virtual Brownian tree, [_space_time_levy_area] cites the second one
    when some leaf is a Brownian path with a Levy area; without such a leaf
    they return [None] and read nothing. *)
Theorem brownian_rules_cite_by_position env locals st ref1 ref2 st1 :
  _parse_reference_multi env (Class VirtualBrownianTree) st
  = (Ok [ref1; ref2], st1) →
  (∀ leaves,
     tree_leaves env (λ x, Ok (isinstance env x VirtualBrownianTree))
       (locals !!! "terms") = Ok leaves →
     rule_body (_virtual_brownian_tree env) locals st
     = if existsb (λ x, isinstance env x VirtualBrownianTree) leaves
       then (Ok (Some (text "
% You are simulating Brownian motion using a virtual Brownian tree, which was introduced
% in:
" ++ ref1)), st1)
       else (Ok None, st))
  ∧ (∀ leaves found,
       tree_leaves env (has_levy_area env) (locals !!! "terms") = Ok leaves →
       any (has_levy_area env) leaves = Ok found →
       rule_body (_space_time_levy_area env) locals st
       = if found : bool
         then (Ok (Some (text "
% You are simulating Brownian motion using space-time Levy area, the formulae for which
% were developed in:
" ++ ref2)), st1)
         else (Ok None, st)).
Proof.
  intros Hrefs. split.
  - intros leaves Hleaves.
    unfold _virtual_brownian_tree. cbn [rule_body].
    rewrite Hleaves, bind_lift_Ok.
    destruct (existsb _ leaves); [|done].
    rewrite (bind_Ok _ _ _ _ _ Hrefs).
    change (unpack2 [ref1; ref2]) with (Ok (ref1, ref2)).
    by rewrite bind_lift_Ok.
  - intros leaves found Hleaves Hfound.
    unfold _space_time_levy_area. cbn [rule_body].
    rewrite Hleaves, bind_lift_Ok, Hfound, bind_lift_Ok.
    destruct found; [|done].
    rewrite (bind_Ok _ _ _ _ _ Hrefs).
    change (unpack2 [ref1; ref2]) with (Ok (ref1, ref2)).
    by rewrite bind_lift_Ok.
Qed.

Lemma brownian_rules_cite_by_position_witness :
  ∃ ref1 ref2 st1,
    rule_body (_virtual_brownian_tree example_brownian_env)
      {["terms" := example_brownian_tree]} empty_store
    = (Ok (Some (text "
% You are simulating Brownian motion using a virtual Brownian tree, which was introduced
% in:
" ++ ref1)), st1)
    ∧ rule_body (_space_time_levy_area example_brownian_env)
        {["terms" := example_brownian_tree]} empty_store
      = (Ok (Some (text "
% You are simulating Brownian motion using space-time Levy area, the formulae for which
% were developed in:
" ++ ref2)), st1).
Proof.
  assert (∃ ref1 ref2 st1,
            _parse_reference_multi example_brownian_env
              (Class VirtualBrownianTree) empty_store
            = (Ok [ref1; ref2], st1)) as (ref1 & ref2 & st1 & Hrefs)
    by (eexists _, _, _; vm_compute; reflexivity).
  destruct (brownian_rules_cite_by_position example_brownian_env
              {["terms" := example_brownian_tree]} empty_store ref1 ref2 st1
              Hrefs) as [Htree Hlevy].
  exists ref1, ref2, st1. split.
  - apply (Htree [example_brownian_tree]). vm_compute. reflexivity.
  - apply (Hlevy [example_brownian_tree] true); vm_compute; reflexivity.
Defined.

(** X20.  For a solver of one of the twelve listed classes, [_solvers]
    calls [_parse_reference] on the solver itself, not on its class: a
    solver that cannot be hashed raises [TypeError]; and when the cache has
    no entry for the solver, a class text with exactly one reference gives
    the line that names the class of the solver followed by that reference,
    any other number of references raises [ValueError]. *)
Theorem listed_solver_reference env locals obj st :
  locals !!! "solver" = VObj obj →
  type_in (VObj obj)
    [Tsit5; Kvaerno3; Kvaerno4; Kvaerno5; ReversibleHeun; LeapfrogMidpoint;
     ShARK; SRA1; SlowRK; GeneralShARK; SPaRK; SEA] = true →
  (cache_key obj = None →
   rule_body (_solvers env) locals st
   = (Raise (TypeError unhashable_type), st))
  ∧ (∀ k doc,
       cache_key obj = Some k →
       doc_of env obj = Some doc →
       alist_lookup k (parse_reference_cache st) = None →
       (rule_body (_solvers env) locals st).1
       = match _reference_regex_findall doc with
         | [block] =>
             Ok (Some (text "
% You are using the " ++ text (type_name (VObj obj))
                       ++ text " solver, which was introduced in:
" ++ inspect.cleandoc block))
         | _ => Raise ValueError
         end).
Proof.
  intros Hsolver Hlisted.
  assert (rule_body (_solvers env) locals
          = (ref ← _parse_reference env obj;
             mret (Some (text "
% You are using the " ++ text (type_name (VObj obj))
                         ++ text " solver, which was introduced in:
" ++ ref)))) as ->.
  { unfold _solvers. cbn [rule_body]. by rewrite Hsolver, Hlisted. }
  split.
  - intros Hk. apply bind_Raise.
    by apply (lru_cache_unhashable parse_reference_cache
                set_parse_reference_cache).
  - intros k doc Hk Hdoc Hmiss.
    pose proof (parse_reference_body_spec env obj doc st Hdoc) as Hbody.
    destruct (_reference_regex_findall doc) as [|block [|block' blocks]].
    + by rewrite (bind_Raise _ _ _ _ _
                    (lru_cache_miss_Raise parse_reference_cache
                       set_parse_reference_cache _ obj k _ st _ Hk Hmiss
                       Hbody)).
    + by rewrite (bind_Ok _ _ _ _ _
                    (lru_cache_miss_Ok parse_reference_cache
                       set_parse_reference_cache _ obj k _ st _ Hk Hmiss
                       Hbody)).
    + by rewrite (bind_Raise _ _ _ _ _
                    (lru_cache_miss_Raise parse_reference_cache
                       set_parse_reference_cache _ obj k _ st _ Hk Hmiss
                       Hbody)).
Qed.

Lemma listed_solver_reference_witness :
  rule_body (_solvers example_env)
    {["solver" := VObj (Instance 6 Tsit5 Unhashable [])]} empty_store
  = (Raise (TypeError unhashable_type), empty_store)
  ∧ (rule_body (_solvers example_bare_env)
       {["solver" := VObj example_tsit5]} empty_store).1
    = Raise ValueError.
Proof.
  split.
  - apply (listed_solver_reference example_env
             {["solver" := VObj (Instance 6 Tsit5 Unhashable [])]}
             (Instance 6 Tsit5 Unhashable []) empty_store);
      vm_compute; reflexivity.
  - destruct (listed_solver_reference example_bare_env
                {["solver" := VObj example_tsit5]} example_tsit5 empty_store)
      as [_ Hmiss]; [vm_compute; reflexivity..|].
    apply (Hmiss (KValue 0) (text "No reference here.")); reflexivity.
Defined.

Lemma join_three a b c :
  str.join newline [a; b; c] = str.join newline [a; b] ++ newline ++ c.
Proof. cbn [str.join]. by rewrite <- !app_assoc. Qed.

(** X21.  [_discrete_adjoint] never raises and reads no reference.  What
    it returns for [RecursiveCheckpointAdjoint] is what it returns for
    [DirectAdjoint], then a newline, then the references on checkpointing;
    for an adjoint of any other type it returns [None]. *)
Theorem discrete_adjoint_texts :
  ∃ general checkpointing,
    (general ≠ [] ∧ checkpointing ≠ [])
    ∧ ∀ locals st,
        rule_body _discrete_adjoint locals st
        = (Ok (if type_is (locals !!! "adjoint") RecursiveCheckpointAdjoint
               then Some (general ++ newline ++ checkpointing)
               else if type_is (locals !!! "adjoint") DirectAdjoint
                    then Some general
                    else None), st).
Proof.
  eexists _, _. split; cycle 1.
  - intros locals st. unfold _discrete_adjoint. cbn [rule_body type_in existsb].
    cbv zeta.
    destruct (type_is (locals !!! "adjoint") RecursiveCheckpointAdjoint).
    + cbn [orb app fmap list_fmap].
      etrans; [apply (f_equal (λ t, (Ok (Some t), st))), join_three|].
      reflexivity.
    + destruct (type_is (locals !!! "adjoint") DirectAdjoint); reflexivity.
  - split; intros H; apply (f_equal length) in H; vm_compute in H;
      discriminate H.
Qed.
